(** * The crawl frontier and worker pool of 07-crawl/main.go

    A shallow embedding of [URLFrontier], [Fetcher], [Parser], [Indexer],
    the worker pool of [Crawler] and [main], followed by the properties of
    the crawler's specification and further properties of the code.

    Conventions
    - Go's [int] is a [Z]; the one addition of the crawler ([depth+1]) is
      written with its 64-bit wrap-around.
    - Go maps are [gmap]s; reading a missing key yields the zero value, which
      is written [default zero (m !! k)].
    - A buffered channel is a record with its buffer, its capacity and its
      closed flag; [select] with a [default] branch is a try-operation.
    - [net/url] and [net/http] are not part of the repository: the functions
      the crawler calls from them are fields of the classes [UrlLib],
      [HtmlLib] and [HttpLib].
    - The two regular expressions of [extractText], [strings.TrimSpace] and
      [strings.HasPrefix] are written out on the bytes of a string. *)

From Stdlib Require Import ZArith Lia Ascii.
From stdpp Require Import gmap strings list fin_maps pretty.

Local Open Scope string_scope.
Local Open Scope list_scope.
Local Open Scope Z_scope.

(** ** Go values *)

(** The message of a Go [error] value. *)
Definition error := string.

(** A Go call that returns [(value, error)]. *)
Inductive go_result (A : Type) : Type :=
| Ok (a : A)
| Err (e : error).
Arguments Ok {A} a.
Arguments Err {A} e.

(** How a call ends: it returns, or it panics (deferred calls have run). *)
Inductive outcome (A : Type) : Type :=
| Returns (a : A)
| Panics (msg : string) (a : A).
Arguments Returns {A} a.
Arguments Panics {A} msg a.

(** Go's [int] on 64-bit targets. *)
Definition wrap64 (z : Z) : Z := (z + 2 ^ 63) mod 2 ^ 64 - 2 ^ 63.

(** ** Buffered channels *)

Module Chan.

Record chan (A : Type) : Type := Make {
  buf : list A;
  cap : nat;
  closed : bool;
}.
Arguments Make {A} buf cap closed.
Arguments buf {A} c.
Arguments cap {A} c.
Arguments closed {A} c.

(** [make(chan A, n)] *)
Definition make {A : Type} (n : nat) : chan A := Make [] n false.

(** [close(c)] *)
Definition close {A : Type} (c : chan A) : chan A := Make (buf c) (cap c) true.

Definition full {A : Type} (c : chan A) : bool := (cap c <=? length (buf c))%nat.

(** The send case of a [select] that has a [default] branch. *)
Inductive try_send_result (A : Type) : Type :=
| Sent (c : chan A)
| SendWouldBlock
| SendOnClosed.
Arguments Sent {A} c.
Arguments SendWouldBlock {A}.
Arguments SendOnClosed {A}.

Definition try_send {A : Type} (c : chan A) (v : A) : try_send_result A :=
  if closed c then SendOnClosed
  else if full c then SendWouldBlock
  else Sent (Make (buf c ++ [v]) (cap c) (closed c)).

(** The receive case of a [select] that has a [default] branch.  A closed
    channel whose buffer is drained is always ready and yields the zero
    value. *)
Inductive try_recv_result (A : Type) : Type :=
| Received (v : A) (c : chan A)
| RecvWouldBlock
| RecvClosed.
Arguments Received {A} v c.
Arguments RecvWouldBlock {A}.
Arguments RecvClosed {A}.

Definition try_recv {A : Type} (c : chan A) : try_recv_result A :=
  match buf c with
  | v :: rest => Received v (Make rest (cap c) (closed c))
  | [] => if closed c then RecvClosed else RecvWouldBlock
  end.

End Chan.

(** ** The URL library the crawler is linked against *)

Class UrlLib : Type := {
  (** the type [url.URL] *)
  url_URL : Type;
  (** [url.Parse] *)
  url_Parse : string -> go_result url_URL;
  (** the [String] method of a parsed URL *)
  URL_String : url_URL -> string;
  (** the [Hostname] method of a parsed URL *)
  URL_Hostname : url_URL -> string;
  (** the [Scheme] field of a parsed URL *)
  URL_Scheme : url_URL -> string;
  (** the [Parse] method of a parsed URL: resolve a reference against it *)
  URL_Parse : url_URL -> string -> go_result url_URL;
}.

(** The normal form [AddURL] computes: [url.Parse] followed by [String]. *)
Definition normalize {net_url : UrlLib} (rawURL : string) : option string :=
  match url_Parse rawURL with
  | Ok parsedURL => Some (URL_String parsedURL)
  | Err _ => None
  end.

(** ** URLFrontier *)

Record URLFrontier : Type := MkFrontier {
  urls : Chan.chan string;
  visited : gmap string bool;
  maxDepth : Z;
  depth : gmap string Z;
}.

Definition NewURLFrontier (maxDepth : Z) : URLFrontier :=
  {| urls := Chan.make 1000;
     visited := ∅;
     maxDepth := maxDepth;
     depth := ∅ |}.

Definition set_urls (c : Chan.chan string) (uf : URLFrontier) : URLFrontier :=
  {| urls := c; visited := visited uf; maxDepth := maxDepth uf; depth := depth uf |}.

(** [uf.visited[u]] *)
Definition is_visited (uf : URLFrontier) (u : string) : bool :=
  default false (visited uf !! u).

(** [uf.depth[u]] *)
Definition depth_of (uf : URLFrontier) (u : string) : Z :=
  default 0 (depth uf !! u).

(** The pending queue. *)
Definition pending (uf : URLFrontier) : list string := Chan.buf (urls uf).

Section Frontier.
Context {net_url : UrlLib}.

(** The body of [AddURL] runs under [uf.mu]; it is one atomic step. *)
Definition AddURL (uf : URLFrontier) (rawURL : string) (currentDepth : Z)
  : outcome URLFrontier :=
  match url_Parse rawURL with
  | Err _ => Returns uf
  | Ok parsedURL =>
      let normalizedURL := URL_String parsedURL in
      if is_visited uf normalizedURL || (currentDepth >=? maxDepth uf) then
        Returns uf
      else
        let uf1 := {| urls := urls uf;
                      visited := <[normalizedURL := true]> (visited uf);
                      maxDepth := maxDepth uf;
                      depth := <[normalizedURL := currentDepth]> (depth uf) |} in
        match Chan.try_send (urls uf1) normalizedURL with
        | Chan.Sent c => Returns (set_urls c uf1)
        | Chan.SendWouldBlock => Returns uf1
        | Chan.SendOnClosed => Panics "send on closed channel" uf1
        end
  end.

(** [GetURL]: the triple it returns and the frontier it leaves. *)
Definition GetURL (uf : URLFrontier) : (string * Z * bool) * URLFrontier :=
  match Chan.try_recv (urls uf) with
  | Chan.Received url c => ((url, depth_of uf url, true), set_urls c uf)
  | Chan.RecvClosed => (("", depth_of uf "", true), uf)
  | Chan.RecvWouldBlock => (("", 0, false), uf)
  end.

(** [Close] *)
Definition Close (uf : URLFrontier) : URLFrontier :=
  set_urls (Chan.close (urls uf)) uf.

(** *** Runs of frontier operations

    The crawler calls [AddURL] and [GetURL] only ([Close] has no caller).
    A run threads the frontier through a list of calls and collects the
    URLs that [GetURL] handed out with [ok = true]. *)

Inductive op : Type :=
| OpAddURL (rawURL : string) (currentDepth : Z)
| OpGetURL.

Definition exec (o : op) (st : URLFrontier * list string)
  : outcome (URLFrontier * list string) :=
  let '(uf, got) := st in
  match o with
  | OpAddURL rawURL d =>
      match AddURL uf rawURL d with
      | Returns uf' => Returns (uf', got)
      | Panics msg uf' => Panics msg (uf', got)
      end
  | OpGetURL =>
      let '((url, _, ok), uf') := GetURL uf in
      Returns (uf', if ok then got ++ [url] else got)
  end.

Fixpoint run (os : list op) (st : URLFrontier * list string)
  : outcome (URLFrontier * list string) :=
  match os with
  | [] => Returns st
  | o :: os' =>
      match exec o st with
      | Returns st' => run os' st'
      | Panics msg st' => Panics msg st'
      end
  end.

End Frontier.

(** ** CrawlResult *)

Inductive URLStatus : Type :=
| StatusPending
| StatusFetched
| StatusError
| StatusRedirect.

Record CrawlResult : Type := MkResult {
  URL : string;
  Status : URLStatus;
  Content : string;
  Links : list string;
  Error : option error;
  StatusCode : Z;
  RedirectURL : string;
}.

Definition set_Status (s : URLStatus) (r : CrawlResult) : CrawlResult :=
  MkResult (URL r) s (Content r) (Links r) (Error r) (StatusCode r) (RedirectURL r).

Definition set_Content (c : string) (r : CrawlResult) : CrawlResult :=
  MkResult (URL r) (Status r) c (Links r) (Error r) (StatusCode r) (RedirectURL r).

Definition set_Links (l : list string) (r : CrawlResult) : CrawlResult :=
  MkResult (URL r) (Status r) (Content r) l (Error r) (StatusCode r) (RedirectURL r).

Definition set_Error (e : error) (r : CrawlResult) : CrawlResult :=
  MkResult (URL r) (Status r) (Content r) (Links r) (Some e) (StatusCode r) (RedirectURL r).

Definition set_StatusCode (c : Z) (r : CrawlResult) : CrawlResult :=
  MkResult (URL r) (Status r) (Content r) (Links r) (Error r) c (RedirectURL r).

Definition set_RedirectURL (u : string) (r : CrawlResult) : CrawlResult :=
  MkResult (URL r) (Status r) (Content r) (Links r) (Error r) (StatusCode r) u.

(** ** The HTTP client the fetcher is linked against *)

(** What [Fetch] reads of an [http.Response]. *)
Record Response : Type := MkResponse {
  resp_StatusCode : Z;
  (** [resp.Header.Get("Location")] *)
  resp_Location : string;
  (** [io.ReadAll(resp.Body)] *)
  resp_ReadAll : go_result string;
}.

Class HttpLib : Type := {
  (** [http.NewRequest("GET", rawURL, nil)]: the error it returns, if any *)
  http_NewRequest : string -> option error;
  (** [client.Do] on the GET request for a URL: the response the client
      returns, after the redirects it has followed itself *)
  client_Do : string -> go_result Response;
}.

(** ** Fetcher

    Instants and durations are counted in nanoseconds. *)

Record Fetcher : Type := MkFetcher {
  userAgent : string;
  rateLimiter : gmap string Z;
  delay : Z;
}.

Definition NewFetcher (delay : Z) : Fetcher :=
  {| userAgent := "GoCrawler/1.0 (+https://example.com/bot)";
     rateLimiter := ∅;
     delay := delay |}.

Definition set_rateLimiter (m : gmap string Z) (f : Fetcher) : Fetcher :=
  {| userAgent := userAgent f; rateLimiter := m; delay := delay f |}.

(** [time.Since(t)] read at the instant [now]. *)
Definition time_Since (now t : Z) : Z := now - t.

(** [time.Sleep(d)] returns at once when [d <= 0]. *)
Definition time_Sleep (now d : Z) : Z := now + Z.max d 0.

Section Fetch.
Context {net_url : UrlLib} {net_http : HttpLib}.

(** Lines 141-149 run by one goroutine without interruption: the instant at
    which it leaves the critical section and the fetcher it leaves. *)
Definition Fetch_pace (f : Fetcher) (now : Z) (hostname : string) : Fetcher * Z :=
  let now1 :=
    match rateLimiter f !! hostname with
    | Some lastRequest =>
        if time_Since now lastRequest <? delay f
        then time_Sleep now (delay f - time_Since now lastRequest)
        else now
    | None => now
    end in
  (set_rateLimiter (<[hostname := now1]> (rateLimiter f)) f, now1).

(** [Fetch]: the result, the fetcher it leaves and the instant it returns
    at (the clock advances by what the call sleeps). *)
Definition Fetch (f : Fetcher) (now : Z) (rawURL : string)
  : CrawlResult * Fetcher * Z :=
  let result := {| URL := rawURL; Status := StatusPending; Content := "";
                   Links := []; Error := None; StatusCode := 0;
                   RedirectURL := "" |} in
  match url_Parse rawURL with
  | Err err => (set_Error err (set_Status StatusError result), f, now)
  | Ok parsedURL =>
      let hostname := URL_Hostname parsedURL in
      let '(f1, now1) := Fetch_pace f now hostname in
      match http_NewRequest rawURL with
      | Some err => (set_Error err (set_Status StatusError result), f1, now1)
      | None =>
          match client_Do rawURL with
          | Err err => (set_Error err (set_Status StatusError result), f1, now1)
          | Ok resp =>
              let result := set_StatusCode (resp_StatusCode resp) result in
              if (resp_StatusCode resp >=? 300) && (resp_StatusCode resp <? 400) then
                (set_RedirectURL (resp_Location resp)
                   (set_Status StatusRedirect result), f1, now1)
              else
                match resp_ReadAll resp with
                | Err err =>
                    (set_Error err (set_Status StatusError result), f1, now1)
                | Ok body =>
                    (set_Status StatusFetched (set_Content body result), f1, now1)
                end
          end
      end
  end.

(** The result of [Fetch] without its pacing: the same branches, the clock
    and the fetcher left out ([Fetch_result] below relates the two). *)
Definition classify (rawURL : string) : CrawlResult :=
  let result := {| URL := rawURL; Status := StatusPending; Content := "";
                   Links := []; Error := None; StatusCode := 0;
                   RedirectURL := "" |} in
  match url_Parse rawURL with
  | Err err => set_Error err (set_Status StatusError result)
  | Ok _ =>
      match http_NewRequest rawURL with
      | Some err => set_Error err (set_Status StatusError result)
      | None =>
          match client_Do rawURL with
          | Err err => set_Error err (set_Status StatusError result)
          | Ok resp =>
              let result := set_StatusCode (resp_StatusCode resp) result in
              if (resp_StatusCode resp >=? 300) && (resp_StatusCode resp <? 400) then
                set_RedirectURL (resp_Location resp) (set_Status StatusRedirect result)
              else
                match resp_ReadAll resp with
                | Err err => set_Error err (set_Status StatusError result)
                | Ok body => set_Status StatusFetched (set_Content body result)
                end
          end
      end
  end.

End Fetch.

(** ** Parser *)

(** What [extractLinks] reads of an [html.Node]. *)
Inductive NodeType : Type :=
| ErrorNode
| TextNode
| DocumentNode
| ElementNode
| CommentNode
| DoctypeNode.

#[warnings="-register-all"]
Inductive Node : Type :=
| MkNode (Type_ : NodeType) (Data : string) (Attr : list (string * string))
         (children : list Node).

Class HtmlLib : Type := {
  (** [html.Parse(strings.NewReader(content))] *)
  html_Parse : string -> go_result Node;
}.

Definition NodeType_eqb (a b : NodeType) : bool :=
  match a, b with
  | ErrorNode, ErrorNode | TextNode, TextNode | DocumentNode, DocumentNode
  | ElementNode, ElementNode | CommentNode, CommentNode
  | DoctypeNode, DoctypeNode => true
  | _, _ => false
  end.

Section Parser.
Context {net_url : UrlLib} {x_html : HtmlLib}.

Record Parser : Type := MkParser {
  baseURL : url_URL;
}.

Definition NewParser (baseURL : string) : go_result Parser :=
  match url_Parse baseURL with
  | Err err => Err err
  | Ok parsedURL => Ok {| baseURL := parsedURL |}
  end.

(** The loop over the attributes of an [a] element. *)
Definition extractHrefs (base : url_URL) (attrs : list (string * string))
           (links : list string) : list string :=
  fold_left
    (fun links attr =>
       if String.eqb (fst attr) "href" then
         match URL_Parse base (snd attr) with
         | Ok resolvedURL =>
             if String.eqb (URL_Scheme resolvedURL) "http"
                || String.eqb (URL_Scheme resolvedURL) "https"
             then links ++ [URL_String resolvedURL]
             else links
         | Err _ => links
         end
       else links)
    attrs links.

Fixpoint extractLinks (n : Node) (base : url_URL) (links : list string)
  : list string :=
  match n with
  | MkNode ty data attrs children =>
      let links :=
        if NodeType_eqb ty ElementNode && String.eqb data "a"
        then extractHrefs base attrs links
        else links in
      fold_left (fun links c => extractLinks c base links) children links
  end.

(** The [Parse] method of [Parser]. *)
Definition Parser_Parse (p : Parser) (content : string) (currentURL : string)
  : list string :=
  match url_Parse currentURL with
  | Err _ => []
  | Ok currentParsedURL =>
      match html_Parse content with
      | Err _ => []
      | Ok doc => extractLinks doc currentParsedURL []
      end
  end.

End Parser.

(** ** Crawler: the worker pool

    A crawl is a pool of goroutines over one frontier, one fetcher and one
    results channel.  Each goroutine is at a point of [worker]; a schedule
    picks which goroutine takes its next step.  A step is one call on the
    shared state ([GetURL], [Fetch], one [AddURL], the send on [results]),
    so every interleaving of these calls is a schedule. *)

Record Crawler : Type := MkCrawler {
  frontier : URLFrontier;
  fetcher : Fetcher;
  workers : Z;
}.

Definition NewCrawler (maxDepth workers delay : Z) : Crawler :=
  {| frontier := NewURLFrontier maxDepth;
     fetcher := NewFetcher delay;
     workers := workers |}.

(** Where a goroutine running [worker] stands. *)
Inductive wstate : Type :=
| Polling                                   (* line 364, [GetURL] *)
| Waiting                                   (* line 367, [time.Sleep] *)
| Retrying                                  (* line 368, second [GetURL] *)
| Fetching (url : string) (depth : Z)       (* lines 375-380 *)
| Adding (result : CrawlResult) (links : list string) (depth : Z)
                                            (* lines 383-385 *)
| Reporting (result : CrawlResult)          (* lines 389-393 *)
| Exited.                                   (* [wg.Done] *)

(** The calls a run makes, in the order it makes them. *)
Inductive event : Type :=
| EvDequeue (worker : nat) (url : string)   (* [GetURL] returned [ok = true] *)
| EvFetch (worker : nat) (url : string).    (* [Fetch] was called *)

Section Pool.
Context {net_url : UrlLib} {net_http : HttpLib} {x_html : HtmlLib}.

Record pool : Type := MkPool {
  p_frontier : URLFrontier;
  p_fetcher : Fetcher;
  p_parser : Parser;
  p_clock : Z;
  results : Chan.chan CrawlResult;
  goroutines : list wstate;
  (** what [processResults] has passed to the indexer *)
  indexed : list CrawlResult;
  trace : list event;
}.

Definition set_frontier (uf : URLFrontier) (s : pool) : pool :=
  MkPool uf (p_fetcher s) (p_parser s) (p_clock s) (results s) (goroutines s)
         (indexed s) (trace s).

Definition set_fetcher (f : Fetcher) (now : Z) (s : pool) : pool :=
  MkPool (p_frontier s) f (p_parser s) now (results s) (goroutines s)
         (indexed s) (trace s).

Definition set_clock (now : Z) (s : pool) : pool :=
  MkPool (p_frontier s) (p_fetcher s) (p_parser s) now (results s)
         (goroutines s) (indexed s) (trace s).

Definition set_results (c : Chan.chan CrawlResult) (s : pool) : pool :=
  MkPool (p_frontier s) (p_fetcher s) (p_parser s) (p_clock s) c (goroutines s)
         (indexed s) (trace s).

Definition set_goroutine (i : nat) (w : wstate) (s : pool) : pool :=
  MkPool (p_frontier s) (p_fetcher s) (p_parser s) (p_clock s) (results s)
         (<[i := w]> (goroutines s)) (indexed s) (trace s).

Definition add_indexed (r : CrawlResult) (s : pool) : pool :=
  MkPool (p_frontier s) (p_fetcher s) (p_parser s) (p_clock s) (results s)
         (goroutines s) (indexed s ++ [r]) (trace s).

Definition log (e : event) (s : pool) : pool :=
  MkPool (p_frontier s) (p_fetcher s) (p_parser s) (p_clock s) (results s)
         (goroutines s) (indexed s) (trace s ++ [e]).

(** Where the loop over [links] stands: at its next [AddURL], or past it. *)
Definition adding (result : CrawlResult) (links : list string) (depth : Z)
  : wstate :=
  match links with
  | [] => Reporting result
  | _ :: _ => Adding result links depth
  end.

Definition URLStatus_eqb (a b : URLStatus) : bool :=
  match a, b with
  | StatusPending, StatusPending | StatusFetched, StatusFetched
  | StatusError, StatusError | StatusRedirect, StatusRedirect => true
  | _, _ => false
  end.

(** One step of goroutine [i] through the loop of [worker]. *)
Definition worker_step (i : nat) (s : pool) : outcome pool :=
  match goroutines s !! i with
  | None | Some Exited => Returns s
  | Some Polling =>
      let '((url, depth, ok), uf) := GetURL (p_frontier s) in
      if ok then
        Returns (log (EvDequeue i url)
                   (set_goroutine i (Fetching url depth) (set_frontier uf s)))
      else
        Returns (set_goroutine i Waiting (set_frontier uf s))
  | Some Waiting =>
      Returns (set_goroutine i Retrying
                 (set_clock (time_Sleep (p_clock s) 100000000) s))
  | Some Retrying =>
      let '((url, _, stillOk), uf) := GetURL (p_frontier s) in
      if stillOk then
        Returns (log (EvDequeue i url)
                   (set_goroutine i Polling (set_frontier uf s)))
      else
        Returns (set_goroutine i Exited (set_frontier uf s))
  | Some (Fetching url depth) =>
      let '(result, f, now) := Fetch (p_fetcher s) (p_clock s) url in
      let s := log (EvFetch i url) (set_fetcher f now s) in
      if URLStatus_eqb (Status result) StatusFetched then
        let links := Parser_Parse (p_parser s) (Content result) url in
        Returns (set_goroutine i (adding (set_Links links result) links depth) s)
      else
        Returns (set_goroutine i (Reporting result) s)
  | Some (Adding result [] depth) =>
      Returns (set_goroutine i (Reporting result) s)
  | Some (Adding result (link :: rest) depth) =>
      match AddURL (p_frontier s) link (wrap64 (depth + 1)) with
      | Returns uf =>
          Returns (set_goroutine i (adding result rest depth) (set_frontier uf s))
      | Panics msg uf => Panics msg (set_frontier uf s)
      end
  | Some (Reporting result) =>
      match Chan.try_send (results s) result with
      | Chan.Sent c => Returns (set_goroutine i Polling (set_results c s))
      | Chan.SendWouldBlock => Returns (set_goroutine i Polling s)
      | Chan.SendOnClosed => Panics "send on closed channel" s
      end
  end.

(** One turn of the loop of [processResults]; with nothing to receive the
    goroutine stays blocked. *)
Definition processResults_step (s : pool) : pool :=
  match Chan.try_recv (results s) with
  | Chan.Received result c => add_indexed result (set_results c s)
  | Chan.RecvWouldBlock | Chan.RecvClosed => s
  end.

Inductive action : Type :=
| Run (i : nat)
| Drain.

Definition step (a : action) (s : pool) : outcome pool :=
  match a with
  | Run i => worker_step i s
  | Drain => Returns (processResults_step s)
  end.

Definition is_Exited (w : wstate) : bool :=
  match w with
  | Exited => true
  | _ => false
  end.

(** How [Crawl] ends under a schedule. *)
Inductive crawl_end : Type :=
| CrawlReturns (err : option error)
| CrawlBlocked                      (* [wg.Wait] has not returned yet *)
| CrawlPanics (msg : string).

(** [wg.Wait()] followed by [close(results)]. *)
Fixpoint wg_Wait (sched : list action) (s : pool) : crawl_end * pool :=
  if forallb is_Exited (goroutines s) then
    (CrawlReturns None, set_results (Chan.close (results s)) s)
  else
    match sched with
    | [] => (CrawlBlocked, s)
    | a :: sched' =>
        match step a s with
        | Returns s' => wg_Wait sched' s'
        | Panics msg s' => (CrawlPanics msg, s')
        end
    end.

(** [Crawl], started at the instant [now] and run under [sched]. *)
Definition Crawl (c : Crawler) (now : Z) (startURL : string)
           (sched : list action) : crawl_end * option pool :=
  match NewParser startURL with
  | Err err => (CrawlReturns (Some err), None)
  | Ok parser =>
      match AddURL (frontier c) startURL 0 with
      | Panics msg _ => (CrawlPanics msg, None)
      | Returns uf =>
          let s0 := {| p_frontier := uf;
                       p_fetcher := fetcher c;
                       p_parser := parser;
                       p_clock := now;
                       results := Chan.make 100;
                       goroutines := replicate (Z.to_nat (workers c)) Polling;
                       indexed := [];
                       trace := [] |} in
          let '(e, s) := wg_Wait sched s0 in
          (e, Some s)
      end
  end.

End Pool.

(** ** Invariants of the frontier *)

(** What holds of every frontier the crawler can build: the queue is open,
    no URL was handed out or is pending twice, and whatever was handed out
    or is pending is marked visited. *)
Record frontier_inv (uf : URLFrontier) (got : list string) : Prop := {
  inv_open : Chan.closed (urls uf) = false;
  inv_nodup : NoDup (got ++ pending uf);
  inv_visited : forall u, u ∈ got ++ pending uf -> is_visited uf u = true;
}.

(** What a run of frontier operations keeps. *)
Record step_keeps (uf : URLFrontier) (got : list string)
       (uf' : URLFrontier) (got' : list string) : Prop := {
  keeps_inv : frontier_inv uf' got';
  keeps_maxDepth : maxDepth uf' = maxDepth uf;
  keeps_visited : forall u, is_visited uf u = true ->
                            is_visited uf' u = true /\ depth uf' !! u = depth uf !! u;
}.

(** ** The invariant of CrawlResult

    A terminal status is set; [RedirectURL] is set only with
    [StatusRedirect], [Links] only with [StatusFetched]. *)
Definition result_wf (r : CrawlResult) : Prop :=
  Status r <> StatusPending /\
  (RedirectURL r <> "" -> Status r = StatusRedirect) /\
  (Links r <> [] -> Status r = StatusFetched).

(** ** Invariants of a crawl *)

(** How often a schedule gives goroutine [i] a turn. *)
Fixpoint runs (i : nat) (sched : list action) : nat :=
  match sched with
  | [] => 0
  | Run j :: sched' => ((if Nat.eqb i j then 1 else 0) + runs i sched')%nat
  | Drain :: sched' => runs i sched'
  end.

(** The result a goroutine holds between [Fetch] and the send on [results]. *)
Definition held (w : wstate) : option CrawlResult :=
  match w with
  | Adding result _ _ | Reporting result => Some result
  | _ => None
  end.

Section PoolInvariants.
Context {net_url : UrlLib} {net_http : HttpLib} {x_html : HtmlLib}.

(** Every result of a crawl, held, sent or indexed, satisfies the invariant
    of results. *)
Record pool_wf (s : pool) : Prop := {
  wf_sent : forall r, r ∈ Chan.buf (results s) ++ indexed s -> result_wf r;
  wf_held : forall i w r, goroutines s !! i = Some w -> held w = Some r ->
                          result_wf r;
}.

End PoolInvariants.

(** How many steps a goroutine has left when the queue stays empty. *)
Definition weight (w : wstate) : nat :=
  match w with
  | Fetching _ _ | Adding _ _ _ => 5
  | Reporting _ => 4
  | Polling => 3
  | Waiting => 2
  | Retrying => 1
  | Exited => 0
  end.

Section PoolMeasure.
Context {net_url : UrlLib} {net_http : HttpLib} {x_html : HtmlLib}.

(** A bound on the steps the pool has left when no URL is added: a pending
    URL costs the two steps that fetch and report it and the poll after. *)
Definition load (s : pool) : nat :=
  (sum_list_with weight (goroutines s) + 3 * length (pending (p_frontier s)))%nat.

(** A pool in which no goroutine is about to add a link and both channels
    are open. *)
Record quiet (s : pool) : Prop := {
  quiet_frontier : Chan.closed (urls (p_frontier s)) = false;
  quiet_results : Chan.closed (results s) = false;
  quiet_adding : forall i result link rest d,
      goroutines s !! i <> Some (Adding result (link :: rest) d);
}.

(** What a run of the pool keeps: its size, and the goroutines that have
    exited. *)
Record pool_later (s s' : pool) : Prop := {
  later_quiet : quiet s';
  later_size : length (goroutines s') = length (goroutines s);
  later_exited : forall j, goroutines s !! j = Some Exited ->
                           goroutines s' !! j = Some Exited;
  later_load : (load s' <= load s)%nat;
}.

End PoolMeasure.

(** ** Fetch: the pacing section under concurrency

    Lines 141-149 of [Fetch], run by several goroutines at once.  The clock
    is shared and only moves forward; a goroutine inside [time.Sleep] cannot
    take its next step before its wake-up instant, and a goroutine at
    [f.mu.Lock()] cannot take it while another one holds the mutex. *)

Module Pacing.

(** Where a goroutine stands in the section. *)
Inductive pc : Type :=
| AtLock                       (* line 142, [f.mu.Lock()] *)
| AtCheck                      (* lines 143-144, lookup and [time.Since] *)
| AtSleep (lastRequest : Z)    (* line 145, [time.Since] and call of [time.Sleep] *)
| Sleeping (wake : Z)          (* inside [time.Sleep] *)
| AtStamp                      (* line 148 *)
| AtUnlock                     (* line 149 *)
| Passed (at_ : Z).            (* past the section, since the instant [at_] *)

Record goroutine : Type := MkGoroutine {
  hostname : string;
  at_pc : pc;
}.

Record state : Type := MkState {
  now : Z;
  (** the goroutine that holds [f.mu], if any *)
  mu : option nat;
  limiter : Fetcher;
  pool : list goroutine;
}.

Definition set_pc (i : nat) (h : string) (p : pc) (s : state) : state :=
  MkState (now s) (mu s) (limiter s) (<[i := MkGoroutine h p]> (pool s)).

Definition set_mu (m : option nat) (s : state) : state :=
  MkState (now s) m (limiter s) (pool s).

Definition set_limiter (f : Fetcher) (s : state) : state :=
  MkState (now s) (mu s) f (pool s).

(** The next step of goroutine [i]; a goroutine that cannot move stays. *)
Definition go (i : nat) (s : state) : state :=
  match pool s !! i with
  | None => s
  | Some (MkGoroutine h p) =>
      match p with
      | AtLock =>
          match mu s with
          | None => set_pc i h AtCheck (set_mu (Some i) s)
          | Some _ => s
          end
      | AtCheck =>
          match rateLimiter (limiter s) !! h with
          | Some lastRequest =>
              if time_Since (now s) lastRequest <? delay (limiter s)
              then set_pc i h (AtSleep lastRequest) s
              else set_pc i h AtStamp s
          | None => set_pc i h AtStamp s
          end
      | AtSleep lastRequest =>
          set_pc i h
            (Sleeping (time_Sleep (now s)
                         (delay (limiter s) - time_Since (now s) lastRequest))) s
      | Sleeping wake =>
          if wake <=? now s then set_pc i h AtStamp s else s
      | AtStamp =>
          set_pc i h AtUnlock
            (set_limiter
               (set_rateLimiter (<[h := now s]> (rateLimiter (limiter s)))
                  (limiter s)) s)
      | AtUnlock => set_pc i h (Passed (now s)) (set_mu None s)
      | Passed _ => s
      end
  end.

Inductive action : Type :=
| Tick (dt : N)     (* the clock advances by [dt] nanoseconds *)
| Go (i : nat).     (* goroutine [i] takes its next step *)

Definition step (a : action) (s : state) : state :=
  match a with
  | Tick dt => MkState (now s + Z.of_N dt) (mu s) (limiter s) (pool s)
  | Go i => go i s
  end.

Definition run (sched : list action) (s : state) : state :=
  fold_left (fun s a => step a s) sched s.

(** The instant since which goroutine [i] is past the section. *)
Definition passed_at (i : nat) (s : state) : option Z :=
  match pool s !! i with
  | Some (MkGoroutine _ (Passed t)) => Some t
  | _ => None
  end.

(** Goroutines that all arrive at [f.mu.Lock()] at the instant [t0]. *)
Definition arrive (f : Fetcher) (t0 : Z) (hosts : list string) : state :=
  MkState t0 None f (map (fun h => MkGoroutine h AtLock) hosts).

(** What the program point of goroutine [i] says about the shared state:
    inside the section it holds the mutex, and from the check on it knows
    how far the last request to its host lies back. *)
Definition holds (s : state) (i : nat) (g : goroutine) : Prop :=
  match at_pc g with
  | AtLock | Passed _ => True
  | AtCheck | AtUnlock => mu s = Some i
  | AtSleep lastRequest =>
      mu s = Some i /\
      rateLimiter (limiter s) !! hostname g = Some lastRequest
  | Sleeping wake =>
      mu s = Some i /\
      exists lastRequest,
        rateLimiter (limiter s) !! hostname g = Some lastRequest /\
        lastRequest + delay (limiter s) <= wake
  | AtStamp =>
      mu s = Some i /\
      forall lastRequest,
        rateLimiter (limiter s) !! hostname g = Some lastRequest ->
        lastRequest + delay (limiter s) <= now s
  end.

Definition paced (s : state) : Prop :=
  forall i g, pool s !! i = Some g -> holds s i g.

End Pacing.

(** ** A small world to run the model in

    Stand-ins for [net/url], [net/http] and [html] on which the model
    computes.  The URL library keeps a URL as its text: like [net/url] it
    refuses a text with an ASCII control character and accepts the empty
    text and relative paths; pages are looked up in a table; the body of a
    page is read as a list of [href] targets separated by blanks. *)

Module World.

Definition is_ctl (c : Ascii.ascii) : bool :=
  let n := Ascii.N_of_ascii c in ((n <? 32) || (n =? 127))%N.

Fixpoint stringContainsCTLByte (s : string) : bool :=
  match s with
  | EmptyString => false
  | String c s' => is_ctl c || stringContainsCTLByte s'
  end.

Definition parse (rawURL : string) : go_result string :=
  if stringContainsCTLByte rawURL
  then Err "net/url: invalid control character in URL"
  else Ok rawURL.

Definition scheme (u : string) : string :=
  if String.prefix "https://" u then "https"
  else if String.prefix "http://" u then "http"
  else "".

Fixpoint upto_slash (s : string) : string :=
  match s with
  | EmptyString => EmptyString
  | String c s' => if Ascii.eqb c "/"%char then EmptyString else String c (upto_slash s')
  end.

Definition hostname (u : string) : string :=
  if String.prefix "https://" u then upto_slash (String.substring 8 (String.length u - 8) u)
  else if String.prefix "http://" u then upto_slash (String.substring 7 (String.length u - 7) u)
  else "".

Definition resolve (base ref : string) : go_result string :=
  if stringContainsCTLByte ref
  then Err "net/url: invalid control character in URL"
  else if String.eqb (scheme ref) "" then Ok (String.append base ref)
  else Ok ref.

#[export] Instance url_lib : UrlLib :=
  {| url_URL := string;
     url_Parse := parse;
     URL_String := fun u => u;
     URL_Hostname := hostname;
     URL_Scheme := scheme;
     URL_Parse := resolve |}.

Fixpoint fields (s cur : string) : list string :=
  match s with
  | EmptyString => if String.eqb cur "" then [] else [cur]
  | String c s' =>
      if Ascii.eqb c " "%char
      then (if String.eqb cur "" then fields s' "" else cur :: fields s' "")
      else fields s' (String.append cur (String c EmptyString))
  end.

Definition anchors (content : string) : go_result Node :=
  Ok (MkNode DocumentNode "" []
        (map (fun href => MkNode ElementNode "a" [("href", href)] [])
             (fields content ""))).

#[export] Instance html_lib : HtmlLib := {| html_Parse := anchors |}.

Fixpoint page (pages : list (string * Response)) (rawURL : string)
  : go_result Response :=
  match pages with
  | [] => Err "dial tcp: lookup failed: no such host"
  | (u, r) :: pages' => if String.eqb u rawURL then Ok r else page pages' rawURL
  end.

(** The web as a table of pages; every other URL is unreachable. *)
Definition web (pages : list (string * Response)) : HttpLib :=
  {| http_NewRequest := fun _ => None;
     client_Do := page pages |}.

(** A page that answers 200 with the given body. *)
Definition ok_page (body : string) : Response :=
  {| resp_StatusCode := 200; resp_Location := ""; resp_ReadAll := Ok body |}.

(** The site of the crawl below: a root page with one link. *)
Definition site : HttpLib :=
  web [("http://a.test/", ok_page "http://a.test/x");
       ("http://a.test/x", ok_page "")].

(** A web in which no host can be reached. *)
Definition nowhere : HttpLib := web [].

(** A page whose body cannot be read to its end. *)
Definition truncated : HttpLib :=
  web [("http://a.test/",
        {| resp_StatusCode := 200; resp_Location := "";
           resp_ReadAll := Err "unexpected EOF" |})].

(** Two workers taking turns, ten turns each. *)
Definition round_robin : list action :=
  concat (replicate 10 [Run 0%nat; Run 1%nat]).

(** Two workers on [site]: worker 1 finds the queue empty while worker 0
    fetches the root page, and polls again after worker 0 added the link. *)
Definition overlap : list action :=
  [Run 0; Run 1; Run 0; Run 0; Run 1; Run 1; Run 0;
   Run 0; Run 0; Run 0; Run 1; Run 1; Run 1]%nat.

(** A fetcher with a delay of one second that has sent a request to
    [a.test] at the instant 0. *)
Definition paced_fetcher : Fetcher :=
  set_rateLimiter {["a.test" := 0]} (NewFetcher 1000000000).

(** [n] distinct URLs. *)
Definition numbered (n : nat) : list string :=
  map (fun i => String.append "http://a.test/" (pretty i)) (seq 0 n).

(** A frontier whose queue is full: 1000 distinct URLs were added. *)
Definition fill : list op := map (fun u => OpAddURL u 0) (numbered 1000).

Definition full_frontier : URLFrontier :=
  match run fill (NewURLFrontier 2, []) with
  | Returns (uf, _) => uf
  | Panics _ (uf, _) => uf
  end.

Definition full_got : list string :=
  match run fill (NewURLFrontier 2, []) with
  | Returns (_, got) => got
  | Panics _ (_, got) => got
  end.

End World.

(** ** What the parser extracts, said without the traversal *)

Section ParserSpec.
Context {net_url : UrlLib}.

(** The [href] values of the [a] elements of a tree, in document order: an
    element before its children, children from first to last. *)
Fixpoint hrefs (n : Node) : list string :=
  match n with
  | MkNode ty data attrs children =>
      (if NodeType_eqb ty ElementNode && String.eqb data "a"
       then map snd (List.filter (fun attr => String.eqb (fst attr) "href") attrs)
       else [])
      ++ concat (map hrefs children)
  end.

(** A reference resolved against the page, kept when it is a web link. *)
Definition resolve_http (base : url_URL) (ref : string) : option string :=
  match URL_Parse base ref with
  | Ok resolvedURL =>
      if String.eqb (URL_Scheme resolvedURL) "http"
         || String.eqb (URL_Scheme resolvedURL) "https"
      then Some (URL_String resolvedURL)
      else None
  | Err _ => None
  end.

End ParserSpec.

(** ** What a crawl has done, read off its trace *)

(** The URLs [GetURL] handed out, in order. *)
Definition dequeued (tr : list event) : list string :=
  omap (fun e => match e with EvDequeue _ url => Some url | EvFetch _ _ => None end) tr.

(** The URLs [Fetch] was called on, in order. *)
Definition fetched (tr : list event) : list string :=
  omap (fun e => match e with EvFetch _ url => Some url | EvDequeue _ _ => None end) tr.

Definition is_Fetching (w : wstate) : bool :=
  match w with
  | Fetching _ _ => true
  | _ => false
  end.

Section CrawlInvariants.
Context {net_url : UrlLib} {net_http : HttpLib} {x_html : HtmlLib}.

(** The results that left the workers, oldest first: those the indexer got,
    then those still in the channel. *)
Definition reported (s : pool) : list CrawlResult :=
  indexed s ++ Chan.buf (results s).

(** Both channels are open and hold no more than their capacity. *)
Record chan_inv (s : pool) : Prop := {
  ch_frontier_open : Chan.closed (urls (p_frontier s)) = false;
  ch_results_open : Chan.closed (results s) = false;
  ch_frontier_cap : (length (pending (p_frontier s))
                     <= Chan.cap (urls (p_frontier s)))%nat;
  ch_results_cap : (length (Chan.buf (results s)) <= Chan.cap (results s))%nat;
}.

(** Between [GetURL] and [Fetch]: a URL is with one goroutine, was handed
    out, and has not been fetched; no URL is fetched twice. *)
Record once_inv (s : pool) : Prop := {
  on_frontier : frontier_inv (p_frontier s) (dequeued (trace s));
  on_results : Chan.closed (results s) = false;
  on_fetched : NoDup (fetched (trace s));
  on_fetched_deq : forall url, url ∈ fetched (trace s) -> url ∈ dequeued (trace s);
  on_flight : forall i url d,
      goroutines s !! i = Some (Fetching url d) ->
      url ∈ dequeued (trace s) /\ url ∉ fetched (trace s);
  on_flight_one : forall i j url d d',
      goroutines s !! i = Some (Fetching url d) ->
      goroutines s !! j = Some (Fetching url d') -> i = j;
}.

(** Between [Fetch] and the send on [results]: a result is with one
    goroutine and belongs to a fetched URL; no URL is reported twice. *)
Record report_inv (s : pool) : Prop := {
  rp_reported : NoDup (map URL (reported s));
  rp_fetched : forall r, r ∈ reported s -> URL r ∈ fetched (trace s);
  rp_held : forall i w r,
      goroutines s !! i = Some w -> held w = Some r ->
      URL r ∈ fetched (trace s) /\ URL r ∉ map URL (reported s);
  rp_held_one : forall i j w w' r r',
      goroutines s !! i = Some w -> goroutines s !! j = Some w' ->
      held w = Some r -> held w' = Some r' -> URL r = URL r' -> i = j;
}.

(** Depths stay within [0, md): those recorded in the frontier and those the
    goroutines carry. *)
Record depth_inv (md : Z) (s : pool) : Prop := {
  dp_maxDepth : maxDepth (p_frontier s) = md;
  dp_visited : forall url, is_visited (p_frontier s) url = true ->
                           0 <= depth_of (p_frontier s) url < md;
  dp_fetching : forall i url d,
      goroutines s !! i = Some (Fetching url d) -> 0 <= d < md;
  dp_adding : forall i result links d,
      goroutines s !! i = Some (Adding result links d) -> 0 <= d < md;
}.

End CrawlInvariants.

(** ** Where the URLs of a crawl come from *)

Section Provenance.
Context {net_url : UrlLib} {net_http : HttpLib} {x_html : HtmlLib}.

(** The links a worker adds after fetching [url]: those of the page when the
    fetch ends in [StatusFetched], none otherwise. *)
Definition page_links (parser : Parser) (url : string) : list string :=
  if URLStatus_eqb (Status (classify url)) StatusFetched
  then Parser_Parse parser (Content (classify url)) url
  else [].

(** Every visited URL is the start URL, at depth 0, or a link of a fetched
    page, one level below that page; a goroutine carries the recorded depth
    of its page and adds links of that page only. *)
Record prov_inv (startURL : string) (parser : Parser) (s : pool) : Prop := {
  pv_parser : p_parser s = parser;
  pv_visited : forall v,
      is_visited (p_frontier s) v = true ->
      (normalize startURL = Some v /\ depth_of (p_frontier s) v = 0) \/
      exists u l, u ∈ fetched (trace s) /\ l ∈ page_links parser u /\
                  normalize l = Some v /\
                  depth_of (p_frontier s) v = depth_of (p_frontier s) u + 1;
  pv_fetching : forall i u d,
      goroutines s !! i = Some (Fetching u d) -> d = depth_of (p_frontier s) u;
  pv_adding : forall i result links d,
      goroutines s !! i = Some (Adding result links d) ->
      exists u, u ∈ fetched (trace s) /\ d = depth_of (p_frontier s) u /\
                forall l, l ∈ links -> l ∈ page_links parser u;
}.

End Provenance.

Section LinkDistance.
Context {net_url : UrlLib} {net_http : HttpLib} {x_html : HtmlLib}.

(** [linked parser startURL pages k v]: a chain of [k] links leads from the
    start URL to [v]; every page of the chain that carries a link is one of
    [pages] and is fetched with [StatusFetched]. *)
Inductive linked (parser : Parser) (startURL : string) (pages : list string)
  : Z -> string -> Prop :=
| linked_start (v : string) :
    normalize startURL = Some v ->
    linked parser startURL pages 0 v
| linked_step (k : Z) (u l v : string) :
    linked parser startURL pages k u ->
    u ∈ pages ->
    Status (classify u) = StatusFetched ->
    l ∈ Parser_Parse parser (Content (classify u)) u ->
    normalize l = Some v ->
    linked parser startURL pages (k + 1) v.

End LinkDistance.

(** ** The functions of [strings] the program calls

    Go strings are byte strings.  A white-space rune is recognised by its
    UTF-8 encoding: decoding a rune forwards or backwards yields a white-space
    rune exactly when the text starts or ends with one of these
    encodings. *)

Module Strings.

(** The UTF-8 encodings of the runes [unicode.IsSpace] accepts: tab to
    carriage return, blank, U+0085, U+00A0, U+1680, U+2000 to U+200A,
    U+2028, U+2029, U+202F, U+205F and U+3000. *)
Definition space_runes : list (list Ascii.ascii) :=
  map (map Ascii.ascii_of_N)
      [[9]; [10]; [11]; [12]; [13]; [32];
       [194; 133]; [194; 160]; [225; 154; 128];
       [226; 128; 128]; [226; 128; 129]; [226; 128; 130]; [226; 128; 131];
       [226; 128; 132]; [226; 128; 133]; [226; 128; 134]; [226; 128; 135];
       [226; 128; 136]; [226; 128; 137]; [226; 128; 138];
       [226; 128; 168]; [226; 128; 169]; [226; 128; 175];
       [226; 129; 159]; [227; 128; 128]]%N.

(** The white-space rune [s] starts with, and the one it ends with. *)
Definition leading_space (s : list Ascii.ascii) : option (list Ascii.ascii) :=
  List.find (fun r => bool_decide (r `prefix_of` s)) space_runes.

Definition trailing_space (s : list Ascii.ascii) : option (list Ascii.ascii) :=
  List.find (fun r => bool_decide (r `suffix_of` s)) space_runes.

(** [strings.TrimLeftFunc(s, unicode.IsSpace)]: at most [fuel] runes are
    taken off; [TrimSpace] gives one unit of fuel per byte. *)
Fixpoint TrimLeft (fuel : nat) (s : list Ascii.ascii) : list Ascii.ascii :=
  match fuel with
  | O => s
  | S fuel' =>
      match leading_space s with
      | Some r => TrimLeft fuel' (drop (length r) s)
      | None => s
      end
  end.

(** [strings.TrimRightFunc(s, unicode.IsSpace)] *)
Fixpoint TrimRight (fuel : nat) (s : list Ascii.ascii) : list Ascii.ascii :=
  match fuel with
  | O => s
  | S fuel' =>
      match trailing_space s with
      | Some r => TrimRight fuel' (take (length s - length r) s)
      | None => s
      end
  end.

(** [strings.TrimSpace] *)
Definition TrimSpace (s : list Ascii.ascii) : list Ascii.ascii :=
  TrimRight (length s) (TrimLeft (length s) s).

(** [strings.HasPrefix(s, prefix)] *)
Definition HasPrefix (s prefix : string) : bool := String.prefix prefix s.

End Strings.

(** ** Indexer

    [len] counts bytes and [s[:n]] cuts at a byte.  The two regular
    expressions of [extractText] are written out on bytes: the bytes [<],
    [>] and the white space of [\s] are ASCII and occur in UTF-8 text only
    as themselves, so matching on bytes is matching on runes. *)

Module Indexer.

(** [min] *)
Definition min (a b : Z) : Z := if a <? b then a else b.

(** [len(s)] of a string *)
Definition len (s : string) : Z := Z.of_nat (String.length s).

(** The slice expression [s[:n]] on a string. *)
Definition string_upto (s : string) (n : Z) : outcome string :=
  if (0 <=? n) && (n <=? len s)
  then Returns (String.substring 0 (Z.to_nat n) s)
  else Panics "runtime error: slice bounds out of range" "".

(** The slice expression [l[:n]] on a slice whose capacity is its length. *)
Definition strings_upto (l : list string) (n : Z) : outcome (list string) :=
  if (0 <=? n) && (n <=? Z.of_nat (length l))
  then Returns (take (Z.to_nat n) l)
  else Panics "runtime error: slice bounds out of range" [].

(** [truncate] *)
Definition truncate (text : string) (length : Z) : outcome string :=
  if len text <=? length then Returns text
  else
    match string_upto text length with
    | Returns head => Returns (head +:+ "...")
    | Panics msg _ => Panics msg ""
    end.

(** Whether [>] occurs in [s]. *)
Definition has_gt (s : list Ascii.ascii) : bool :=
  existsb (fun c => Ascii.eqb c ">"%char) s.

(** [ReplaceAllString(s, " ")] for the expression [<[^>]*>].  A match
    starts at a [<] that has a [>] after it and ends at the first such [>]
    ([[^>]] matches every rune but [>], line ends included); matches are
    taken from left to right.  [in_tag] says that the scan is inside a
    match. *)
Fixpoint strip_tags (in_tag : bool) (s : list Ascii.ascii) : list Ascii.ascii :=
  match s with
  | [] => []
  | c :: s' =>
      if in_tag then
        if Ascii.eqb c ">"%char then " "%char :: strip_tags false s'
        else strip_tags true s'
      else if Ascii.eqb c "<"%char && has_gt s' then strip_tags true s'
      else c :: strip_tags false s'
  end.

(** The class [\s] of Go's regular expressions: tab, line feed, form feed,
    carriage return and blank. *)
Definition is_space (c : Ascii.ascii) : bool :=
  existsb (N.eqb (Ascii.N_of_ascii c)) [9; 10; 12; 13; 32]%N.

(** [ReplaceAllString(s, " ")] for the expression [\s+]: every maximal run
    of white space becomes one blank.  [in_run] says that the byte before
    was white space. *)
Fixpoint collapse_space (in_run : bool) (s : list Ascii.ascii)
  : list Ascii.ascii :=
  match s with
  | [] => []
  | c :: s' =>
      if is_space c then
        if in_run then collapse_space true s'
        else " "%char :: collapse_space true s'
      else c :: collapse_space false s'
  end.

(** [extractText] *)
Definition extractText (htmlContent : string) : string :=
  let text := strip_tags false (String.list_ascii_of_string htmlContent) in
  let text := collapse_space false text in
  String.string_of_list_ascii (Strings.TrimSpace text).

(** The line end of the format strings. *)
Definition nl : string := String (Ascii.ascii_of_N 10) EmptyString.

(** [%d] of an [int] *)
Definition fmt_int (z : Z) : string := pretty z.

(** [%v] of a slice of strings *)
Definition fmt_strings (l : list string) : string :=
  "[" +:+ String.concat " " l +:+ "]".

(** [%v] of an [error] *)
Definition fmt_error (e : option error) : string := default "<nil>" e.

(** [Index]: what it writes to its output; a panic leaves what was written
    before it. *)
Definition Index (result : CrawlResult) : outcome string :=
  match Status result with
  | StatusFetched =>
      let text := extractText (Content result) in
      let out := "=== CRAWLED: " +:+ URL result +:+ " ===" +:+ nl in
      let out := out +:+ "Status Code: " +:+ fmt_int (StatusCode result) +:+ nl in
      let out := out +:+ "Content Length: " +:+ fmt_int (len (Content result))
                     +:+ " bytes" +:+ nl in
      let out := out +:+ "Links Found: "
                     +:+ fmt_int (Z.of_nat (length (Links result))) +:+ nl in
      match truncate text 200 with
      | Panics msg _ => Panics msg out
      | Returns preview =>
          let out := out +:+ "Text Preview: " +:+ preview +:+ nl in
          match strings_upto (Links result)
                             (min (Z.of_nat (length (Links result))) 5) with
          | Panics msg _ => Panics msg out
          | Returns shown =>
              Returns (out +:+ "Links: " +:+ fmt_strings shown +:+ nl +:+ nl)
          end
      end
  | StatusError =>
      Returns ("ERROR crawling " +:+ URL result +:+ ": "
                 +:+ fmt_error (Error result) +:+ nl)
  | StatusRedirect =>
      Returns ("REDIRECT " +:+ URL result +:+ " -> " +:+ RedirectURL result +:+ nl)
  | StatusPending => Returns ""
  end.

End Indexer.

(** ** What [extractText] leaves *)

(** No [<] of [s] has a [>] after it. *)
Fixpoint no_tag (s : list Ascii.ascii) : bool :=
  match s with
  | [] => true
  | c :: s' => negb (Ascii.eqb c "<"%char && Indexer.has_gt s') && no_tag s'
  end.

Definition starts_with_space (s : list Ascii.ascii) : bool :=
  match s with
  | [] => false
  | c :: _ => Indexer.is_space c
  end.

(** Every white-space byte of [s] is a blank with no white space after it. *)
Fixpoint collapsed (s : list Ascii.ascii) : bool :=
  match s with
  | [] => true
  | c :: s' =>
      (if Indexer.is_space c
       then Ascii.eqb c " "%char && negb (starts_with_space s')
       else true)
      && collapsed s'
  end.

(** ** main

    What [main] does with the line it has read: the URL it starts the crawl
    at, the crawler it builds and how it ends.  What it prints, and the time
    it measures, are left out. *)

Inductive main_end : Type :=
| MainNoURL                         (* line 415, the line is blank *)
| MainInvalidURL (err : error)      (* line 421 *)
| MainCrawlFailed (err : error)     (* line 442 *)
| MainCompleted                     (* line 446 *)
| MainWaiting                       (* [Crawl] has not returned yet *)
| MainPanics (msg : string).

Section Main.
Context {net_url : UrlLib} {net_http : HttpLib} {x_html : HtmlLib}.

(** [main], with [line] what [scanner.Text()] returns, started at the
    instant [now] and run under [sched]. *)
Definition main (line : string) (now : Z) (sched : list action)
  : main_end * option pool :=
  let startURL :=
    String.string_of_list_ascii
      (Strings.TrimSpace (String.list_ascii_of_string line)) in
  if String.eqb startURL "" then (MainNoURL, None)
  else
    match url_Parse startURL with
    | Err err => (MainInvalidURL err, None)
    | Ok _ =>
        let startURL :=
          if negb (Strings.HasPrefix startURL "http://")
             && negb (Strings.HasPrefix startURL "https://")
          then "https://" +:+ startURL
          else startURL in
        let crawler := NewCrawler 2 3 1000000000 in
        match Crawl crawler now startURL sched with
        | (CrawlReturns (Some err), s) => (MainCrawlFailed err, s)
        | (CrawlReturns None, s) => (MainCompleted, s)
        | (CrawlBlocked, s) => (MainWaiting, s)
        | (CrawlPanics msg, s) => (MainPanics msg, s)
        end
    end.

End Main.

(* ------------------------------------------------------------------ *)
(** * Properties *)

(** ** Facts about the frontier *)

Section FrontierFacts.
Context {net_url : UrlLib}.

Lemma frontier_inv_new (md : Z) : frontier_inv (NewURLFrontier md) [].
Proof.
  split; simpl.
  - reflexivity.
  - constructor.
  - intros u Hu. inversion Hu.
Qed.

Lemma is_visited_insert (uf : URLFrontier) (c : Chan.chan string)
      (u v : string) (d : Z) :
  is_visited {| urls := c; visited := <[u := true]> (visited uf);
                maxDepth := maxDepth uf; depth := <[u := d]> (depth uf) |} v
  = if decide (u = v) then true else is_visited uf v.
Proof.
  unfold is_visited; simpl. rewrite lookup_insert.
  destruct (decide (u = v)); reflexivity.
Qed.

(** The three ways [AddURL] ends on an open queue. *)
Lemma AddURL_rejects (uf : URLFrontier) (rawURL : string) (d : Z) :
  normalize rawURL = None -> AddURL uf rawURL d = Returns uf.
Proof.
  unfold normalize, AddURL. destruct (url_Parse rawURL); [discriminate | reflexivity].
Qed.

Lemma AddURL_skips (uf : URLFrontier) (rawURL u : string) (d : Z) :
  normalize rawURL = Some u ->
  is_visited uf u = true \/ maxDepth uf <= d ->
  AddURL uf rawURL d = Returns uf.
Proof.
  unfold normalize, AddURL. destruct (url_Parse rawURL) as [p|e]; [|discriminate].
  intros [= <-] Hc. simpl.
  destruct Hc as [-> | Hd]; [reflexivity |].
  assert (Hge : (d >=? maxDepth uf) = true) by (apply Z.geb_le; lia).
  rewrite Hge, orb_true_r. reflexivity.
Qed.

Lemma AddURL_accepts (uf : URLFrontier) (rawURL u : string) (d : Z) :
  normalize rawURL = Some u ->
  is_visited uf u = false ->
  d < maxDepth uf ->
  Chan.closed (urls uf) = false ->
  AddURL uf rawURL d =
  Returns {| urls := if Chan.full (urls uf) then urls uf
                     else Chan.Make (pending uf ++ [u]) (Chan.cap (urls uf)) false;
             visited := <[u := true]> (visited uf);
             maxDepth := maxDepth uf;
             depth := <[u := d]> (depth uf) |}.
Proof.
  unfold normalize, AddURL. destruct (url_Parse rawURL) as [p|e]; [|discriminate].
  intros [= <-] Hv Hd Hopen. simpl. rewrite Hv. simpl.
  assert (Hge : (d >=? maxDepth uf) = false) by (rewrite Z.geb_leb; apply Z.leb_gt; lia).
  rewrite Hge. unfold Chan.try_send, pending. simpl. rewrite Hopen.
  destruct (Chan.full (urls uf)); reflexivity.
Qed.

Lemma step_keeps_refl (uf : URLFrontier) (got : list string) :
  frontier_inv uf got -> step_keeps uf got uf got.
Proof.
  intros Hi. split; auto.
Qed.

Lemma step_keeps_trans (uf1 uf2 uf3 : URLFrontier) (g1 g2 g3 : list string) :
  step_keeps uf1 g1 uf2 g2 -> step_keeps uf2 g2 uf3 g3 -> step_keeps uf1 g1 uf3 g3.
Proof.
  intros [I1 M1 V1] [I2 M2 V2]. split.
  - exact I2.
  - congruence.
  - intros u Hu. destruct (V1 u Hu) as [Hv Hd].
    destruct (V2 u Hv) as [Hv' Hd']. split; congruence.
Qed.

Lemma AddURL_keeps (uf : URLFrontier) (got : list string) (rawURL : string) (d : Z) :
  frontier_inv uf got ->
  exists uf', AddURL uf rawURL d = Returns uf' /\ step_keeps uf got uf' got.
Proof.
  intros Hi. pose proof Hi as [Hopen Hnd Hvis].
  destruct (normalize rawURL) as [u|] eqn:Hn.
  2:{ exists uf. split; [by apply AddURL_rejects | by apply step_keeps_refl]. }
  destruct (is_visited uf u) eqn:Hv.
  { exists uf. split; [eapply AddURL_skips; eauto | by apply step_keeps_refl]. }
  destruct (Z_lt_le_dec d (maxDepth uf)) as [Hd|Hd].
  2:{ exists uf. split; [eapply AddURL_skips; eauto | by apply step_keeps_refl]. }
  eexists. split; [eapply AddURL_accepts; eauto |].
  assert (Hfresh : u ∉ got ++ pending uf).
  { intros Hin. apply Hvis in Hin. congruence. }
  split; simpl.
  - split.
    + simpl. destruct (Chan.full (urls uf)); [exact Hopen | reflexivity].
    + unfold pending at 1. simpl.
      destruct (Chan.full (urls uf)); simpl; [exact Hnd |].
      rewrite app_assoc. apply NoDup_app. split; [exact Hnd |].
      split; [| apply NoDup_singleton].
      intros x Hx Hx'. apply list_elem_of_singleton in Hx'. subst x. by apply Hfresh.
    + intros v Hin. rewrite is_visited_insert.
      destruct (decide (u = v)) as [|Hne]; [reflexivity |].
      apply Hvis. unfold pending in Hin. simpl in Hin.
      destruct (Chan.full (urls uf)); simpl in Hin; [exact Hin |].
      rewrite app_assoc in Hin. apply elem_of_app in Hin.
      destruct Hin as [Hin | Hin]; [exact Hin |].
      apply list_elem_of_singleton in Hin. congruence.
  - reflexivity.
  - intros v Hv'. rewrite is_visited_insert.
    destruct (decide (u = v)) as [->|Hne]; [congruence |].
    split; [exact Hv' |]. by rewrite lookup_insert_ne.
Qed.

Lemma GetURL_keeps (uf : URLFrontier) (got : list string) :
  frontier_inv uf got ->
  forall url d ok uf', GetURL uf = ((url, d, ok), uf') ->
  step_keeps uf got uf' (if ok then got ++ [url] else got).
Proof.
  intros Hi url d ok uf'. pose proof Hi as [Hopen Hnd Hvis].
  unfold GetURL, Chan.try_recv. unfold pending in *.
  destruct (Chan.buf (urls uf)) as [|v rest] eqn:Hbuf.
  - rewrite Hopen. intros [= <- <- <- <-]. by apply step_keeps_refl.
  - intros [= <- <- <- <-]. split; simpl; auto.
    split; simpl.
    + exact Hopen.
    + unfold pending; simpl. by rewrite <- app_assoc.
    + intros u Hu. unfold pending in Hu; simpl in Hu.
      rewrite <- app_assoc in Hu. by apply Hvis.
Qed.

Lemma exec_keeps (o : op) (uf : URLFrontier) (got : list string) :
  frontier_inv uf got ->
  exists uf' got', exec o (uf, got) = Returns (uf', got') /\
                   step_keeps uf got uf' got'.
Proof.
  intros Hi. destruct o as [rawURL d|]; simpl.
  - destruct (AddURL_keeps uf got rawURL d Hi) as (uf' & -> & Hk). eauto.
  - destruct (GetURL uf) as [[[url d] ok] uf'] eqn:Hg.
    eexists _, _. split; [reflexivity |]. eapply GetURL_keeps; eauto.
Qed.

(** Runs from a frontier of the crawler never panic and keep the
    invariant. *)
Lemma run_keeps (os : list op) (uf : URLFrontier) (got : list string) :
  frontier_inv uf got ->
  exists uf' got', run os (uf, got) = Returns (uf', got') /\
                   step_keeps uf got uf' got'.
Proof.
  revert uf got. induction os as [|o os IH]; intros uf got Hi; cbn [run].
  - eexists _, _. split; [reflexivity | by apply step_keeps_refl].
  - destruct (exec_keeps o uf got Hi) as (uf1 & got1 & -> & Hk1).
    destruct (IH uf1 got1 (keeps_inv _ _ _ _ Hk1)) as (uf2 & got2 & Hr & Hk2).
    eexists _, _. split; [exact Hr |]. eapply step_keeps_trans; eauto.
Qed.

End FrontierFacts.

(** ** The frontier: depth ceiling, deduplication, back-pressure *)

Section FrontierClaims.
Context {net_url : UrlLib}.

Lemma AddURL_maxDepth (uf uf' : URLFrontier) (rawURL : string) (d : Z) :
  AddURL uf rawURL d = Returns uf' -> maxDepth uf' = maxDepth uf.
Proof.
  unfold AddURL. destruct (url_Parse rawURL) as [p|e]; [| by intros [= <-]].
  simpl. destruct (is_visited uf (URL_String p) || (d >=? maxDepth uf));
    [by intros [= <-] |].
  unfold Chan.try_send; simpl.
  destruct (Chan.closed (urls uf)); [discriminate |].
  destruct (Chan.full (urls uf)); by intros [= <-].
Qed.

Lemma GetURL_maxDepth (uf : URLFrontier) : maxDepth (GetURL uf).2 = maxDepth uf.
Proof.
  unfold GetURL. destruct (Chan.try_recv (urls uf)); reflexivity.
Qed.

Lemma run_maxDepth (os : list op) (uf uf' : URLFrontier) (got got' : list string) :
  run os (uf, got) = Returns (uf', got') -> maxDepth uf' = maxDepth uf.
Proof.
  revert uf got. induction os as [|o os IH]; intros uf got; cbn [run].
  - by intros [= <- _].
  - destruct o as [rawURL d|]; cbn [exec].
    + destruct (AddURL uf rawURL d) as [uf1|msg uf1] eqn:Ha; [| discriminate].
      intros Hr. rewrite (IH _ _ Hr). by eapply AddURL_maxDepth.
    + pose proof (GetURL_maxDepth uf) as Hg.
      destruct (GetURL uf) as [[[url dd] ok] uf1]. simpl in Hg.
      intros Hr. rewrite (IH _ _ Hr). exact Hg.
Qed.

(** C3. A call [AddURL(u, d)] with [d >= maxDepth] (equality included) leaves
    the frontier as it was: nothing is marked visited, nothing is recorded in
    the depth map, and every later sequence of calls, [GetURL] included, runs
    exactly as if the call had not been made.  [maxDepth] itself never
    changes. *)
Theorem AddURL_depth_ceiling (uf : URLFrontier) (rawURL : string) (d : Z)
        (os : list op) (got : list string) :
  maxDepth uf <= d ->
  AddURL uf rawURL d = Returns uf /\
  run (OpAddURL rawURL d :: os) (uf, got) = run os (uf, got) /\
  (forall uf' got', run os (uf, got) = Returns (uf', got') ->
                    maxDepth uf' = maxDepth uf).
Proof.
  intros Hd.
  assert (Ha : AddURL uf rawURL d = Returns uf).
  { destruct (normalize rawURL) as [u|] eqn:Hn.
    - eapply AddURL_skips; eauto.
    - by apply AddURL_rejects. }
  split; [exact Ha |]. split.
  - cbn [run exec]. by rewrite Ha.
  - intros uf' got'. apply run_maxDepth.
Qed.

(** A URL that is marked visited and neither pending nor handed out stays
    so, whatever is called next. *)
Lemma run_keeps_out (u : string) (os : list op) (uf uf' : URLFrontier)
      (got got' : list string) :
  frontier_inv uf got ->
  is_visited uf u = true ->
  u ∉ got ++ pending uf ->
  run os (uf, got) = Returns (uf', got') ->
  u ∉ got' ++ pending uf'.
Proof.
  revert uf got. induction os as [|o os IH]; intros uf got Hi Hv Hout; cbn [run].
  - by intros [= <- <-].
  - destruct (exec_keeps o uf got Hi) as (uf1 & got1 & He & Hk). rewrite He.
    apply IH.
    + apply Hk.
    + by apply (keeps_visited _ _ _ _ Hk).
    + destruct o as [rawURL d|]; cbn [exec] in He.
      * destruct (AddURL uf rawURL d) as [uf2|] eqn:Ha; [| discriminate].
        injection He as <- <-.
        destruct (normalize rawURL) as [v|] eqn:Hn.
        2:{ rewrite AddURL_rejects in Ha by done. by injection Ha as <-. }
        destruct (is_visited uf v) eqn:Hvv.
        { erewrite AddURL_skips in Ha by eauto. by injection Ha as <-. }
        destruct (Z_lt_le_dec d (maxDepth uf)) as [Hd|Hd].
        2:{ erewrite AddURL_skips in Ha by eauto. by injection Ha as <-. }
        erewrite AddURL_accepts in Ha by first [eassumption | apply Hi].
        injection Ha as <-. unfold pending at 1; simpl.
        destruct (Chan.full (urls uf)); [exact Hout |]. simpl.
        rewrite app_assoc. intros [Hin | Hin]%elem_of_app; [by apply Hout |].
        apply list_elem_of_singleton in Hin. congruence.
      * unfold GetURL, Chan.try_recv in He. unfold pending in Hout.
        destruct (Chan.buf (urls uf)) as [|v rest] eqn:Hb.
        -- rewrite (inv_open _ _ Hi) in He. injection He as <- <-.
           unfold pending. by rewrite Hb.
        -- injection He as <- <-. unfold pending; simpl.
           by rewrite <- app_assoc.
Qed.

(** C2 (amended). Among the calls [AddURL(u, d)] whose argument normalizes
    to one URL, the first one with [d < maxDepth] marks the URL visited and
    records [d]; from then on every call for that URL is a no-op, the depth
    stays [d], and no URL is ever pending or handed out twice. *)
Theorem AddURL_dedup (md : Z) (os0 : list op) (uf0 : URLFrontier)
        (got0 : list string) (rawURL u : string) (d : Z) :
  run os0 (NewURLFrontier md, []) = Returns (uf0, got0) ->
  normalize rawURL = Some u ->
  is_visited uf0 u = false ->
  d < md ->
  exists uf1,
    AddURL uf0 rawURL d = Returns uf1 /\
    is_visited uf1 u = true /\
    depth uf1 !! u = Some d /\
    (Chan.full (urls uf0) = false -> pending uf1 = pending uf0 ++ [u]) /\
    forall os uf2 got2,
      run os (uf1, got0) = Returns (uf2, got2) ->
      depth uf2 !! u = Some d /\
      NoDup (got2 ++ pending uf2) /\
      forall rawURL' d', normalize rawURL' = Some u ->
                         AddURL uf2 rawURL' d' = Returns uf2.
Proof.
  intros Hr0 Hn Hv Hd.
  destruct (run_keeps os0 _ _ (frontier_inv_new md)) as (uf0' & got0' & Hr0' & Hk0).
  rewrite Hr0 in Hr0'. injection Hr0' as <- <-.
  pose proof (keeps_inv _ _ _ _ Hk0) as Hi0.
  pose proof (keeps_maxDepth _ _ _ _ Hk0) as Hm0. simpl in Hm0.
  destruct (AddURL_keeps uf0 got0 rawURL d Hi0) as (uf1 & Ha & Hk1).
  exists uf1. split; [exact Ha |].
  rewrite (AddURL_accepts uf0 rawURL u d) in Ha
    by first [assumption | lia | apply Hi0].
  injection Ha as <-.
  assert (Hv1 : is_visited
                  {| urls := if Chan.full (urls uf0) then urls uf0
                             else Chan.Make (pending uf0 ++ [u])
                                            (Chan.cap (urls uf0)) false;
                     visited := <[u:=true]> (visited uf0);
                     maxDepth := maxDepth uf0;
                     depth := <[u:=d]> (depth uf0) |} u = true).
  { rewrite is_visited_insert. by rewrite decide_True. }
  split; [exact Hv1 |].
  split; [simpl; by rewrite lookup_insert_eq |].
  split; [intros Hf; unfold pending at 1; simpl; by rewrite Hf |].
  intros os uf2 got2 Hr.
  destruct (run_keeps os _ _ (keeps_inv _ _ _ _ Hk1)) as (uf2' & got2' & Hr' & Hk2).
  rewrite Hr in Hr'. injection Hr' as <- <-.
  destruct (keeps_visited _ _ _ _ Hk2 u Hv1) as [Hv2 Hd2].
  split; [rewrite Hd2; simpl; by rewrite lookup_insert_eq |].
  split; [apply (keeps_inv _ _ _ _ Hk2) |].
  intros rawURL' d' Hn'. eapply AddURL_skips; eauto.
Qed.

(** C9. When the queue is full, [AddURL] has marked the URL visited and
    recorded its depth before it tries to enqueue; the URL is dropped, and
    from then on it is never pending, never handed out by [GetURL], and
    every later [AddURL] for it is a no-op, whatever room the queue has. *)
Theorem AddURL_drop_is_permanent (md : Z) (os0 : list op) (uf0 : URLFrontier)
        (got0 : list string) (rawURL u : string) (d : Z) :
  run os0 (NewURLFrontier md, []) = Returns (uf0, got0) ->
  normalize rawURL = Some u ->
  is_visited uf0 u = false ->
  d < md ->
  Chan.full (urls uf0) = true ->
  exists uf1,
    AddURL uf0 rawURL d = Returns uf1 /\
    urls uf1 = urls uf0 /\
    is_visited uf1 u = true /\
    depth uf1 !! u = Some d /\
    forall os uf2 got2,
      run os (uf1, got0) = Returns (uf2, got2) ->
      (u ∉ got2) /\ (u ∉ pending uf2) /\
      forall rawURL' d', normalize rawURL' = Some u ->
                         AddURL uf2 rawURL' d' = Returns uf2.
Proof.
  intros Hr0 Hn Hv Hd Hfull.
  destruct (run_keeps os0 _ _ (frontier_inv_new md)) as (uf0' & got0' & Hr0' & Hk0).
  rewrite Hr0 in Hr0'. injection Hr0' as <- <-.
  pose proof (keeps_inv _ _ _ _ Hk0) as Hi0.
  pose proof (keeps_maxDepth _ _ _ _ Hk0) as Hm0. simpl in Hm0.
  destruct (AddURL_keeps uf0 got0 rawURL d Hi0) as (uf1 & Ha & Hk1).
  exists uf1. split; [exact Ha |].
  rewrite (AddURL_accepts uf0 rawURL u d) in Ha
    by first [assumption | lia | apply Hi0].
  rewrite Hfull in Ha. injection Ha as <-.
  assert (Hv1 : is_visited
                  {| urls := urls uf0;
                     visited := <[u:=true]> (visited uf0);
                     maxDepth := maxDepth uf0;
                     depth := <[u:=d]> (depth uf0) |} u = true).
  { rewrite is_visited_insert. by rewrite decide_True. }
  split; [reflexivity |].
  split; [exact Hv1 |].
  split; [simpl; by rewrite lookup_insert_eq |].
  intros os uf2 got2 Hr.
  assert (Hout : u ∉ got0 ++ pending uf0).
  { intros Hin. apply (inv_visited _ _ Hi0) in Hin. congruence. }
  pose proof (run_keeps_out u os _ _ _ _ (keeps_inv _ _ _ _ Hk1) Hv1 Hout Hr) as Hout2.
  destruct (run_keeps os _ _ (keeps_inv _ _ _ _ Hk1)) as (uf2' & got2' & Hr' & Hk2).
  rewrite Hr in Hr'. injection Hr' as <- <-.
  destruct (keeps_visited _ _ _ _ Hk2 u Hv1) as [Hv2 _].
  split; [intros Hin; apply Hout2, elem_of_app; by left |].
  split; [intros Hin; apply Hout2, elem_of_app; by right |].
  intros rawURL' d' Hn'. eapply AddURL_skips; eauto.
Qed.

(** C6. On every frontier whose queue has not been closed, a full queue
    included, [AddURL] returns: the enqueue is a [select] with a [default]
    branch, and a full queue is left as it is (the URL is dropped, no error
    is reported). *)
Theorem AddURL_never_blocks (uf : URLFrontier) (rawURL : string) (d : Z) :
  Chan.closed (urls uf) = false ->
  exists uf',
    AddURL uf rawURL d = Returns uf' /\
    (Chan.full (urls uf) = true -> urls uf' = urls uf) /\
    (Chan.full (urls uf) = true -> forall u,
       normalize rawURL = Some u -> d < maxDepth uf -> is_visited uf' u = true).
Proof.
  intros Hopen.
  destruct (normalize rawURL) as [u|] eqn:Hn.
  2:{ exists uf. split; [by apply AddURL_rejects |]. split; [done | intros _ ? [=]]. }
  destruct (is_visited uf u) eqn:Hv.
  { exists uf. split; [eapply AddURL_skips; eauto |].
    split; [done | by intros _ ? [= <-]]. }
  destruct (Z_lt_le_dec d (maxDepth uf)) as [Hd|Hd].
  2:{ exists uf. split; [eapply AddURL_skips; eauto |].
      split; [done | intros _ ? _ ?; lia]. }
  eexists. split; [eapply AddURL_accepts; eauto |]. split.
  - intros ->. reflexivity.
  - intros _ v [= <-] _. rewrite is_visited_insert. by rewrite decide_True.
Qed.

(** C10. [AddURL] has no check of its own beyond the error of [url.Parse]:
    when the library accepts the empty string (as Go's does, yielding a URL
    whose text is empty again), [AddURL("", 0)] marks the empty string
    visited and enqueues it, and [GetURL] hands it out. *)
Theorem AddURL_accepts_empty_string (md : Z) (parsedURL : url_URL) :
  0 < md ->
  url_Parse "" = Ok parsedURL ->
  URL_String parsedURL = "" ->
  exists uf,
    AddURL (NewURLFrontier md) "" 0 = Returns uf /\
    is_visited uf "" = true /\
    pending uf = [""] /\
    (GetURL uf).1 = ("", 0, true).
Proof.
  intros Hmd Hp Hs.
  assert (Hn : normalize "" = Some "") by (unfold normalize; rewrite Hp; by rewrite Hs).
  eexists. split.
  - eapply AddURL_accepts; eauto.
  - split; [| split]; reflexivity.
Qed.

End FrontierClaims.

(** ** The frontier on concrete inputs *)

Section FrontierExamples.
Import World.

Lemma full_frontier_run :
  run fill (NewURLFrontier 2, []) = Returns (full_frontier, full_got).
Proof.
  destruct (run_keeps fill _ _ (frontier_inv_new 2)) as (uf & got & Hr & _).
  unfold full_frontier, full_got. rewrite Hr. reflexivity.
Qed.

Lemma AddURL_depth_ceiling_witness :
  AddURL (NewURLFrontier 2) "http://a.test/x" 2 = Returns (NewURLFrontier 2) /\
  run [OpAddURL "http://a.test/x" 2; OpGetURL] (NewURLFrontier 2, [])
  = run [OpGetURL] (NewURLFrontier 2, []) /\
  (forall uf' got', run [OpGetURL] (NewURLFrontier 2, []) = Returns (uf', got') ->
                    maxDepth uf' = maxDepth (NewURLFrontier 2)).
Proof.
  apply (AddURL_depth_ceiling (NewURLFrontier 2) "http://a.test/x" 2 [OpGetURL] []).
  simpl. lia.
Defined.

(** C2 as stated fails when the first call is at or above the ceiling: that
    call is a no-op, and the second call for the same URL is not: it
    enqueues the URL and records its own depth, 0, not the first call's 2. *)
Lemma AddURL_dedup_first_call_rejected :
  AddURL (NewURLFrontier 2) "http://a.com/x" 2 = Returns (NewURLFrontier 2) /\
  exists uf,
    AddURL (NewURLFrontier 2) "http://a.com/x" 0 = Returns uf /\
    uf <> NewURLFrontier 2 /\
    pending uf = ["http://a.com/x"] /\
    depth uf !! "http://a.com/x" = Some 0.
Proof.
  split; [reflexivity |].
  eexists. split; [reflexivity |].
  split; [| split; [reflexivity | vm_compute; reflexivity]].
  intros Heq. apply (f_equal pending) in Heq. discriminate Heq.
Qed.

Lemma AddURL_dedup_witness :
  exists uf1,
    AddURL (NewURLFrontier 2) "http://a.com/x" 0 = Returns uf1 /\
    is_visited uf1 "http://a.com/x" = true /\
    depth uf1 !! "http://a.com/x" = Some 0 /\
    (Chan.full (urls (NewURLFrontier 2)) = false ->
     pending uf1 = pending (NewURLFrontier 2) ++ ["http://a.com/x"]) /\
    forall os uf2 got2,
      run os (uf1, []) = Returns (uf2, got2) ->
      depth uf2 !! "http://a.com/x" = Some 0 /\
      NoDup (got2 ++ pending uf2) /\
      forall rawURL' d', normalize rawURL' = Some "http://a.com/x" ->
                         AddURL uf2 rawURL' d' = Returns uf2.
Proof.
  apply (AddURL_dedup 2 [] (NewURLFrontier 2) [] "http://a.com/x" "http://a.com/x" 0).
  - reflexivity.
  - reflexivity.
  - reflexivity.
  - lia.
Defined.

Lemma AddURL_drop_is_permanent_witness :
  exists uf1,
    AddURL full_frontier "http://b.test/" 1 = Returns uf1 /\
    urls uf1 = urls full_frontier /\
    is_visited uf1 "http://b.test/" = true /\
    depth uf1 !! "http://b.test/" = Some 1 /\
    forall os uf2 got2,
      run os (uf1, full_got) = Returns (uf2, got2) ->
      ("http://b.test/" ∉ got2) /\ ("http://b.test/" ∉ pending uf2) /\
      forall rawURL' d', normalize rawURL' = Some "http://b.test/" ->
                         AddURL uf2 rawURL' d' = Returns uf2.
Proof.
  apply (AddURL_drop_is_permanent 2 fill full_frontier full_got "http://b.test/"
                                  "http://b.test/" 1).
  - exact full_frontier_run.
  - reflexivity.
  - vm_compute. reflexivity.
  - lia.
  - vm_compute. reflexivity.
Defined.

Lemma AddURL_never_blocks_witness :
  exists uf',
    AddURL full_frontier "http://b.test/" 1 = Returns uf' /\
    (Chan.full (urls full_frontier) = true -> urls uf' = urls full_frontier) /\
    (Chan.full (urls full_frontier) = true -> forall u,
       normalize "http://b.test/" = Some u -> 1 < maxDepth full_frontier ->
       is_visited uf' u = true).
Proof.
  apply (AddURL_never_blocks full_frontier "http://b.test/" 1).
  vm_compute. reflexivity.
Defined.

Lemma AddURL_accepts_empty_string_witness :
  exists uf,
    AddURL (NewURLFrontier 2) "" 0 = Returns uf /\
    is_visited uf "" = true /\
    pending uf = [""] /\
    (GetURL uf).1 = ("", 0, true).
Proof.
  apply (AddURL_accepts_empty_string (net_url := url_lib) 2 "");
    [lia | reflexivity | reflexivity].
Defined.

End FrontierExamples.

(** ** Fetch: how a response is classified *)

Section FetchFacts.
Context {net_url : UrlLib} {net_http : HttpLib}.

Lemma Fetch_result (f : Fetcher) (now : Z) (rawURL : string) :
  (Fetch f now rawURL).1.1 = classify rawURL.
Proof.
  unfold Fetch, classify.
  destruct (url_Parse rawURL) as [p|e]; [| reflexivity].
  destruct (Fetch_pace f now (URL_Hostname p)) as [f1 now1].
  destruct (http_NewRequest rawURL); [reflexivity |].
  destruct (client_Do rawURL) as [resp|e]; [| reflexivity].
  destruct ((resp_StatusCode resp >=? 300) && (resp_StatusCode resp <? 400));
    [reflexivity |].
  destruct (resp_ReadAll resp); reflexivity.
Qed.

Lemma redirect_range (c : Z) :
  (c >=? 300) && (c <? 400) = true <-> 300 <= c < 400.
Proof.
  rewrite andb_true_iff, Z.geb_le, Z.ltb_lt. lia.
Qed.

(** C5 (amended). Of the response that [client.Do] returns, with a status
    code outside [300,400): reading the whole body makes the result
    [StatusFetched] with that content, a read error makes it [StatusError]
    with that error and no content.  In both cases the status code is
    recorded, the redirect target is empty and [Fetch] sets no links.  What
    [Fetch] makes of a redirect is left out: the client of [NewFetcher] has
    no [CheckRedirect] and follows a redirect with a [Location] itself, so
    the response [Fetch] sees there is the one of the target. *)
Theorem Fetch_classifies (f : Fetcher) (now : Z) (rawURL : string)
        (parsedURL : url_URL) (resp : Response) :
  url_Parse rawURL = Ok parsedURL ->
  http_NewRequest rawURL = None ->
  client_Do rawURL = Ok resp ->
  ~ 300 <= resp_StatusCode resp < 400 ->
  let result := (Fetch f now rawURL).1.1 in
  StatusCode result = resp_StatusCode resp /\
  Links result = [] /\
  RedirectURL result = "" /\
  (forall body, resp_ReadAll resp = Ok body ->
   Status result = StatusFetched /\ Content result = body /\
   Error result = None) /\
  (forall err, resp_ReadAll resp = Err err ->
   Status result = StatusError /\ Error result = Some err /\
   Content result = "").
Proof.
  intros Hp Hq Hd Hn. cbv zeta. rewrite Fetch_result. unfold classify.
  rewrite Hp, Hq, Hd.
  destruct ((resp_StatusCode resp >=? 300) && (resp_StatusCode resp <? 400)) eqn:Hc.
  - apply redirect_range in Hc. contradiction.
  - destruct (resp_ReadAll resp) as [body|err]; simpl;
      repeat split; auto; intros; congruence.
Qed.

(** What [Fetch] returns satisfies the invariant of results, with no links. *)
Lemma Fetch_result_wf (f : Fetcher) (now : Z) (rawURL : string) :
  result_wf (Fetch f now rawURL).1.1 /\ Links (Fetch f now rawURL).1.1 = [].
Proof.
  rewrite Fetch_result. unfold classify, result_wf.
  destruct (url_Parse rawURL) as [p|e]; [| simpl; repeat split; congruence].
  destruct (http_NewRequest rawURL); [simpl; repeat split; congruence |].
  destruct (client_Do rawURL) as [resp|e]; [| simpl; repeat split; congruence].
  destruct ((resp_StatusCode resp >=? 300) && (resp_StatusCode resp <? 400));
    [simpl; repeat split; congruence |].
  destruct (resp_ReadAll resp); simpl; repeat split; congruence.
Qed.

(** When no host can be reached, every fetch ends in [StatusError]. *)
Lemma Fetch_unreachable (f : Fetcher) (now : Z) (rawURL : string) :
  (forall u, exists err, client_Do u = Err err) ->
  Status (Fetch f now rawURL).1.1 = StatusError.
Proof.
  intros Hdown. rewrite Fetch_result. unfold classify.
  destruct (url_Parse rawURL) as [p|e]; [| reflexivity].
  destruct (http_NewRequest rawURL); [reflexivity |].
  destruct (Hdown rawURL) as [err ->]. reflexivity.
Qed.

End FetchFacts.

(** ** The worker pool: what it reports *)

Section PoolFacts.
Context {net_url : UrlLib} {net_http : HttpLib} {x_html : HtmlLib}.

Lemma pool_wf_set_goroutine (s : pool) (i : nat) (w : wstate) :
  pool_wf s ->
  (forall r, held w = Some r -> result_wf r) ->
  pool_wf (set_goroutine i w s).
Proof.
  intros [Hs Hh] Hw. split; simpl; [exact Hs |].
  intros j w' r Hj Hr.
  apply list_lookup_insert_Some in Hj as [(-> & <- & _) | (_ & Hj)].
  - by apply Hw.
  - by eapply Hh.
Qed.

Lemma pool_wf_same (s s' : pool) :
  Chan.buf (results s') = Chan.buf (results s) -> indexed s' = indexed s ->
  goroutines s' = goroutines s ->
  pool_wf s -> pool_wf s'.
Proof.
  intros Hr Hi Hg [Hs Hh]. split; rewrite ?Hr, ?Hi, ?Hg; assumption.
Qed.

Lemma held_adding (result : CrawlResult) (links : list string) (d : Z) :
  held (adding result links d) = Some result.
Proof. destruct links; reflexivity. Qed.

Lemma result_wf_set_Links (r : CrawlResult) (links : list string) :
  result_wf r -> Status r = StatusFetched -> result_wf (set_Links links r).
Proof.
  intros (Hp & Hr & _) Hf. repeat split; simpl; [exact Hp | | by intros _].
  intros Hne. apply Hr in Hne. congruence.
Qed.

Lemma URLStatus_eqb_eq (a b : URLStatus) : URLStatus_eqb a b = true <-> a = b.
Proof. destruct a, b; simpl; split; congruence. Qed.

(** A step of a goroutine keeps the invariant, also when it panics. *)
Lemma worker_step_wf (i : nat) (s : pool) :
  pool_wf s ->
  match worker_step i s with
  | Returns s' | Panics _ s' => pool_wf s'
  end.
Proof.
  intros Hwf. unfold worker_step.
  destruct (goroutines s !! i) as [w|] eqn:Hw; [| exact Hwf].
  destruct w as [| | |url d|result links d|result|].
  - destruct (GetURL (p_frontier s)) as [[[url d] ok] uf]. destruct ok.
    + apply (pool_wf_same (set_goroutine i (Fetching url d) (set_frontier uf s)));
        try reflexivity.
      apply pool_wf_set_goroutine; [| discriminate].
      by apply (pool_wf_same s).
    + apply pool_wf_set_goroutine; [| discriminate]. by apply (pool_wf_same s).
  - apply pool_wf_set_goroutine; [| discriminate]. by apply (pool_wf_same s).
  - destruct (GetURL (p_frontier s)) as [[[url d] ok] uf]. destruct ok.
    + apply (pool_wf_same (set_goroutine i Polling (set_frontier uf s)));
        try reflexivity.
      apply pool_wf_set_goroutine; [| discriminate]. by apply (pool_wf_same s).
    + apply pool_wf_set_goroutine; [| discriminate]. by apply (pool_wf_same s).
  - pose proof (Fetch_result_wf (p_fetcher s) (p_clock s) url) as [Hr _].
    destruct (Fetch (p_fetcher s) (p_clock s) url) as [[result f] now1].
    simpl in Hr.
    destruct (URLStatus_eqb (Status result) StatusFetched) eqn:Hst.
    + apply URLStatus_eqb_eq in Hst.
      apply pool_wf_set_goroutine; [by apply (pool_wf_same s) |].
      intros r. rewrite held_adding. intros [= <-].
      by apply result_wf_set_Links.
    + apply pool_wf_set_goroutine; [by apply (pool_wf_same s) |].
      by intros r [= <-].
  - assert (Hres : result_wf result) by (eapply (wf_held s Hwf); eauto).
    destruct links as [|link rest].
    + apply pool_wf_set_goroutine; [exact Hwf |]. by intros r [= <-].
    + destruct (AddURL (p_frontier s) link (wrap64 (d + 1))) as [uf|msg uf].
      * apply pool_wf_set_goroutine; [by apply (pool_wf_same s) |].
        intros r. rewrite held_adding. by intros [= <-].
      * by apply (pool_wf_same s).
  - assert (Hres : result_wf result) by (eapply (wf_held s Hwf); eauto).
    unfold Chan.try_send.
    destruct (Chan.closed (results s)); [exact Hwf |].
    destruct (Chan.full (results s)).
    + apply pool_wf_set_goroutine; [exact Hwf | discriminate].
    + apply pool_wf_set_goroutine; [| discriminate].
      destruct Hwf as [Hs Hh]. split; simpl; [| exact Hh].
      intros r. rewrite <- app_assoc. intros [Hin | Hin]%elem_of_app.
      * apply Hs, elem_of_app. by left.
      * apply elem_of_app in Hin as [Hin | Hin].
        -- apply list_elem_of_singleton in Hin. by subst r.
        -- apply Hs, elem_of_app. by right.
  - exact Hwf.
Qed.

Lemma processResults_step_wf (s : pool) :
  pool_wf s -> pool_wf (processResults_step s).
Proof.
  intros Hwf. unfold processResults_step, Chan.try_recv.
  destruct (Chan.buf (results s)) as [|r rest] eqn:Hb.
  - destruct (Chan.closed (results s)); exact Hwf.
  - destruct Hwf as [Hs Hh]. split; simpl; [| exact Hh].
    intros r' Hin. apply Hs. rewrite Hb.
    rewrite app_assoc in Hin. apply elem_of_app in Hin as [Hin | Hin].
    + apply elem_of_app in Hin as [Hin | Hin].
      * apply elem_of_app. left. by right.
      * apply elem_of_app. by right.
    + apply list_elem_of_singleton in Hin. subst r'.
      apply elem_of_app. left. by left.
Qed.

Lemma step_wf (a : action) (s : pool) :
  pool_wf s ->
  match step a s with
  | Returns s' | Panics _ s' => pool_wf s'
  end.
Proof.
  destruct a as [i|]; simpl.
  - apply worker_step_wf.
  - apply processResults_step_wf.
Qed.

Lemma wg_Wait_wf (sched : list action) (s : pool) :
  pool_wf s -> pool_wf (wg_Wait sched s).2.
Proof.
  revert s. induction sched as [|a sched IH]; intros s Hwf; cbn [wg_Wait].
  - destruct (forallb is_Exited (goroutines s)); simpl; [| exact Hwf].
    by apply (pool_wf_same s).
  - destruct (forallb is_Exited (goroutines s)); simpl;
      [by apply (pool_wf_same s) |].
    pose proof (step_wf a s Hwf) as Hst.
    destruct (step a s) as [s'|msg s']; [by apply IH | exact Hst].
Qed.

(** C8. Every result [Fetch] returns has a terminal status (never
    [StatusPending]), a redirect target only with [StatusRedirect], and no
    links; and in every crawl, under every schedule, each result sent to the
    results channel or passed to the indexer has a terminal status, a
    redirect target only with [StatusRedirect], and links only with
    [StatusFetched] (the worker sets them, after [Fetch] returned). *)
Theorem results_are_well_formed :
  (forall (f : Fetcher) (now : Z) (rawURL : string),
     result_wf (Fetch f now rawURL).1.1 /\ Links (Fetch f now rawURL).1.1 = []) /\
  (forall (c : Crawler) (now : Z) (startURL : string) (sched : list action)
          (e : crawl_end) (s : pool),
     Crawl c now startURL sched = (e, Some s) ->
     forall r, r ∈ Chan.buf (results s) ++ indexed s -> result_wf r).
Proof.
  split; [apply Fetch_result_wf |].
  intros c now startURL sched e s. unfold Crawl.
  destruct (NewParser startURL) as [parser|err]; [| discriminate].
  destruct (AddURL (frontier c) startURL 0) as [uf|msg uf]; [| discriminate].
  match goal with
  | |- context [wg_Wait sched ?s0] =>
      pose proof (wg_Wait_wf sched s0) as Hw; destruct (wg_Wait sched s0) as [e' s']
  end.
  intros [= <- <-]. apply Hw. split; simpl.
  - intros r Hin. inversion Hin.
  - intros i w r Hi Hr. apply lookup_replicate in Hi as [-> _]. discriminate.
Qed.

End PoolFacts.

(** ** The worker pool: when every fetch fails *)

Section Unreachable.
Context {net_url : UrlLib} {net_http : HttpLib} {x_html : HtmlLib}.

Lemma weight_insert (l : list wstate) (i : nat) (w w0 : wstate) :
  l !! i = Some w0 ->
  (sum_list_with weight (<[i := w]> l) + weight w0
   = sum_list_with weight l + weight w)%nat.
Proof.
  revert i. induction l as [|x l IH]; intros i Hi; [discriminate |].
  destruct i as [|i]; simpl in *.
  - injection Hi as ->. lia.
  - specialize (IH i Hi). lia.
Qed.

Lemma pool_later_refl (s : pool) : quiet s -> pool_later s s.
Proof. intros Hq. split; auto. Qed.

Lemma pool_later_trans (s1 s2 s3 : pool) :
  pool_later s1 s2 -> pool_later s2 s3 -> pool_later s1 s3.
Proof.
  intros [Q1 S1 E1 L1] [Q2 S2 E2 L2]. split; auto; [congruence | lia].
Qed.

Lemma quiet_step (s s' : pool) (i : nat) (w : wstate) :
  quiet s ->
  Chan.closed (urls (p_frontier s')) = false ->
  Chan.closed (results s') = false ->
  goroutines s' = <[i := w]> (goroutines s) ->
  (forall result link rest d, w <> Adding result (link :: rest) d) ->
  quiet s'.
Proof.
  intros [Qf Qr Qa] Hf Hr Hg Hw. split; auto.
  intros j result link rest d Hj. rewrite Hg in Hj.
  apply list_lookup_insert_Some in Hj as [(_ & -> & _) | (_ & Hj)].
  - by eapply Hw.
  - by eapply Qa.
Qed.

Lemma exited_insert (l : list wstate) (i j : nat) (w w0 : wstate) :
  l !! i = Some w0 -> is_Exited w0 = false ->
  l !! j = Some Exited ->
  <[i := w]> l !! j = Some Exited.
Proof.
  intros Hi Hw0 Hj. rewrite list_lookup_insert_ne; [exact Hj |].
  intros ->. rewrite Hi in Hj. injection Hj as ->. discriminate.
Qed.

(** A step that moves goroutine [i] from [w0] to [w] and takes [k] URLs off
    the queue. *)
Lemma moved_later (s s' : pool) (i : nat) (w0 w : wstate) :
  quiet s ->
  goroutines s !! i = Some w0 ->
  is_Exited w0 = false ->
  goroutines s' = <[i := w]> (goroutines s) ->
  Chan.closed (urls (p_frontier s')) = false ->
  Chan.closed (results s') = false ->
  (forall result link rest d, w <> Adding result (link :: rest) d) ->
  (weight w + 3 * length (pending (p_frontier s')) + 1
   <= weight w0 + 3 * length (pending (p_frontier s)))%nat ->
  pool_later s s' /\ (load s' + 1 <= load s)%nat.
Proof.
  intros Hq Hi Hw0 Hg Hf Hr Hw Hle.
  assert (Hl : (load s' + 1 <= load s)%nat).
  { unfold load. rewrite Hg. pose proof (weight_insert _ i w _ Hi). lia. }
  split; [| exact Hl]. split.
  - eapply quiet_step; eauto.
  - rewrite Hg. apply length_insert.
  - intros j Hj. rewrite Hg. eapply exited_insert; eauto.
  - lia.
Qed.

Section AllDown.
Hypothesis all_down : forall u, exists err, client_Do u = Err err.

(** A step of a goroutine that has not exited uses up load. *)
Lemma worker_step_load (i : nat) (s : pool) (w : wstate) :
  quiet s ->
  goroutines s !! i = Some w ->
  is_Exited w = false ->
  exists s', worker_step i s = Returns s' /\ pool_later s s' /\
             (load s' + 1 <= load s)%nat.
Proof.
  intros Hq Hi Hw. pose proof Hq as [Qf Qr Qa].
  unfold worker_step. rewrite Hi.
  destruct w as [| | |url d|result links d|result|]; try discriminate.
  - (* Polling *)
    unfold GetURL, Chan.try_recv.
    destruct (Chan.buf (urls (p_frontier s))) as [|v rest] eqn:Hb.
    + rewrite Qf. eexists. split; [reflexivity |].
      eapply moved_later; eauto; try discriminate; simpl; lia.
    + eexists. split; [reflexivity |].
      eapply moved_later; eauto; try discriminate.
      unfold pending; simpl. rewrite Hb. simpl. lia.
  - (* Waiting *)
    eexists. split; [reflexivity |].
    eapply moved_later; eauto; try discriminate; simpl; lia.
  - (* Retrying *)
    unfold GetURL, Chan.try_recv.
    destruct (Chan.buf (urls (p_frontier s))) as [|v rest] eqn:Hb.
    + rewrite Qf. eexists. split; [reflexivity |].
      eapply moved_later; eauto; try discriminate; simpl; lia.
    + eexists. split; [reflexivity |].
      eapply moved_later; eauto; try discriminate.
      unfold pending; simpl. rewrite Hb. simpl. lia.
  - (* Fetching *)
    pose proof (Fetch_unreachable (p_fetcher s) (p_clock s) url all_down) as Hst.
    destruct (Fetch (p_fetcher s) (p_clock s) url) as [[result f] now1].
    simpl in Hst. rewrite Hst. simpl.
    eexists. split; [reflexivity |].
    eapply moved_later; eauto; try discriminate; simpl; lia.
  - (* Adding *)
    destruct links as [|link rest]; [| by apply Qa in Hi].
    eexists. split; [reflexivity |].
    eapply moved_later; eauto; try discriminate; simpl; lia.
  - (* Reporting *)
    unfold Chan.try_send. rewrite Qr.
    destruct (Chan.full (results s)).
    + eexists. split; [reflexivity |].
      eapply moved_later; eauto; try discriminate; simpl; lia.
    + eexists. split; [reflexivity |].
      eapply moved_later; eauto; try discriminate; simpl; lia.
Qed.

Lemma worker_step_idle (i : nat) (s : pool) :
  goroutines s !! i = None \/ goroutines s !! i = Some Exited ->
  worker_step i s = Returns s.
Proof. unfold worker_step. by intros [-> | ->]. Qed.

Lemma processResults_step_later (s : pool) :
  quiet s -> pool_later s (processResults_step s).
Proof.
  intros Hq. unfold processResults_step, Chan.try_recv.
  destruct (Chan.buf (results s)) as [|r rest];
    [destruct (Chan.closed (results s)); by apply pool_later_refl |].
  destruct Hq as [Qf Qr Qa]. split; auto. by split.
Qed.

(** [wg.Wait] under a schedule: it returns, or some goroutine has not exited
    and each such goroutine has had fewer turns than the load allowed. *)
Lemma wg_Wait_load (sched : list action) (s : pool) :
  quiet s ->
  exists e s',
    wg_Wait sched s = (e, s') /\
    (e = CrawlReturns None \/
     (e = CrawlBlocked /\ pool_later s s' /\
      forallb is_Exited (goroutines s') = false /\
      forall i w, goroutines s' !! i = Some w -> is_Exited w = false ->
                  (runs i sched + load s' <= load s)%nat)).
Proof.
  revert s. induction sched as [|a sched IH]; intros s Hq; cbn [wg_Wait].
  - destruct (forallb is_Exited (goroutines s)) eqn:Hall.
    + eexists _, _. split; [reflexivity | by left].
    + exists CrawlBlocked, s. split; [reflexivity | right].
      split; [reflexivity |]. split; [by apply pool_later_refl |].
      split; [exact Hall |]. intros i w _ _. simpl. lia.
  - destruct (forallb is_Exited (goroutines s)) eqn:Hall.
    { eexists _, _. split; [reflexivity | by left]. }
    assert (Hstep : exists s1, step a s = Returns s1 /\ pool_later s s1 /\
              forall i w, goroutines s1 !! i = Some w -> is_Exited w = false ->
                          (runs i [a] + load s1 <= load s)%nat).
    { destruct a as [j|]; cbn [step runs].
      - destruct (goroutines s !! j) as [w|] eqn:Hj.
        + destruct (is_Exited w) eqn:Hw.
          * destruct w; try discriminate.
            exists s. split; [apply worker_step_idle; by right |].
            split; [by apply pool_later_refl |].
            intros i w Hi Hne. destruct (Nat.eqb_spec i j) as [->|_]; [| lia].
            rewrite Hj in Hi. injection Hi as <-. discriminate.
          * destruct (worker_step_load j s w Hq Hj Hw) as (s1 & Hs & Hl & Hd).
            exists s1. split; [exact Hs |]. split; [exact Hl |].
            intros i w' _ _. destruct (i =? j)%nat; lia.
        + exists s. split; [apply worker_step_idle; by left |].
          split; [by apply pool_later_refl |].
          intros i w Hi Hne. destruct (Nat.eqb_spec i j) as [->|_]; [| lia].
          rewrite Hj in Hi. discriminate.
      - exists (processResults_step s). split; [reflexivity |].
        pose proof (processResults_step_later s Hq) as Hl.
        split; [exact Hl |]. intros i w _ _. pose proof (later_load _ _ Hl). lia. }
    destruct Hstep as (s1 & -> & Hl1 & Hr1).
    destruct (IH s1 (later_quiet _ _ Hl1)) as (e & s' & Hw & Hcase).
    exists e, s'. split; [exact Hw |].
    destruct Hcase as [-> | (-> & Hl2 & Hall' & Hr2)]; [by left | right].
    split; [reflexivity |]. split; [by eapply pool_later_trans |].
    split; [exact Hall' |].
    intros i w Hi Hne. specialize (Hr2 i w Hi Hne).
    assert (Hr : (runs i (a :: sched) = runs i [a] + runs i sched)%nat).
    { destruct a; simpl; lia. }
    rewrite Hr.
    destruct (goroutines s1 !! i) as [w1|] eqn:Hi1.
    + destruct (is_Exited w1) eqn:Hw1.
      * destruct w1; try discriminate.
        rewrite (later_exited _ _ Hl2 i Hi1) in Hi. injection Hi as <-. discriminate.
      * specialize (Hr1 i w1 Hi1 Hw1). lia.
    + apply lookup_ge_None in Hi1. apply lookup_lt_Some in Hi.
      pose proof (later_size _ _ Hl2). lia.
Qed.

Lemma weight_replicate (n : nat) :
  sum_list_with weight (replicate n Polling) = (3 * n)%nat.
Proof. induction n as [|n IH]; simpl; lia. Qed.

Lemma seed_frontier (md : Z) (startURL : string) (uf : URLFrontier) :
  AddURL (NewURLFrontier md) startURL 0 = Returns uf ->
  Chan.closed (urls uf) = false /\ (length (pending uf) <= 1)%nat.
Proof.
  unfold AddURL. destruct (url_Parse startURL) as [p|e];
    [| intros [= <-]; simpl; split; [reflexivity | lia]].
  simpl. destruct (is_visited (NewURLFrontier md) (URL_String p) || (0 >=? md));
    [intros [= <-]; simpl; split; [reflexivity | lia] |].
  intros [= <-]. simpl. split; [reflexivity | lia].
Qed.

Lemma wg_Wait_no_error (sched : list action) (s s' : pool) (err : error) :
  wg_Wait sched s <> (CrawlReturns (Some err), s').
Proof.
  revert s. induction sched as [|a sched IH]; intros s; cbn [wg_Wait].
  - destruct (forallb is_Exited (goroutines s)); discriminate.
  - destruct (forallb is_Exited (goroutines s)); [discriminate |].
    destruct (step a s); [apply IH | discriminate].
Qed.

(** When no host can be reached, a crawl of a seed that parses returns nil
    under every schedule that gives each worker enough turns. *)
Lemma Crawl_all_down (md n delay now : Z) (startURL : string)
      (parsedURL : url_URL) (sched : list action) :
  url_Parse startURL = Ok parsedURL ->
  (forall i, (i < Z.to_nat n)%nat -> (3 * Z.to_nat n + 3 < runs i sched)%nat) ->
  exists s, Crawl (NewCrawler md n delay) now startURL sched
            = (CrawlReturns None, Some s).
Proof.
  intros Hp Hfair.
  unfold Crawl, NewParser. rewrite Hp. simpl.
  destruct (AddURL_keeps (NewURLFrontier md) [] startURL 0 (frontier_inv_new md))
    as (uf & Ha & _).
  rewrite Ha. destruct (seed_frontier md startURL uf Ha) as [Hopen Hlen].
  match goal with
  | |- context [wg_Wait sched ?s0] => set (s0_ := s0)
  end.
  assert (Hq : quiet s0_).
  { split; simpl; auto. intros i result link rest d Hi.
    apply lookup_replicate in Hi as [[=] _]. }
  destruct (wg_Wait_load sched s0_ Hq) as (e & s' & Hw & Hcase).
  rewrite Hw. destruct Hcase as [-> | (-> & Hl & Hall & Hr)]; [by exists s' |].
  exfalso.
  assert (Hex : exists i w, goroutines s' !! i = Some w /\ is_Exited w = false).
  { clear -Hall. induction (goroutines s') as [|w l IH]; [discriminate |].
    simpl in Hall. destruct (is_Exited w) eqn:Hw.
    - destruct (IH Hall) as (i & w' & Hi & Hw'). by exists (S i), w'.
    - by exists 0%nat, w. }
  destruct Hex as (i & w & Hi & Hne).
  specialize (Hr i w Hi Hne).
  assert (Hi' : (i < Z.to_nat n)%nat).
  { apply lookup_lt_Some in Hi. rewrite (later_size _ _ Hl) in Hi.
    subst s0_. simpl in Hi. by rewrite length_replicate in Hi. }
  specialize (Hfair i Hi').
  assert (Hload : (load s0_ <= 3 * Z.to_nat n + 3)%nat).
  { unfold load. subst s0_. simpl. rewrite weight_replicate. lia. }
  lia.
Qed.

End AllDown.

(** C7. [Crawl] returns a non-nil error only when [NewParser] fails on the
    seed URL, whatever the crawler, the web and the schedule: what a fetch
    yields never reaches the return value.  And when no host can be reached,
    a crawl of a seed that parses returns nil: under every schedule that
    gives each worker more than [3 * workers + 3] turns, all workers exit
    and [wg.Wait] returns. *)
Theorem Crawl_error_only_from_setup :
  (forall (c : Crawler) (now : Z) (startURL : string) (sched : list action)
          (err : error) (s : option pool),
     Crawl c now startURL sched = (CrawlReturns (Some err), s) ->
     url_Parse startURL = Err err /\ s = None) /\
  (forall (md n delay now : Z) (startURL : string) (parsedURL : url_URL)
          (sched : list action),
     (forall u, exists err, client_Do u = Err err) ->
     url_Parse startURL = Ok parsedURL ->
     (forall i, (i < Z.to_nat n)%nat -> (3 * Z.to_nat n + 3 < runs i sched)%nat) ->
     exists s, Crawl (NewCrawler md n delay) now startURL sched
               = (CrawlReturns None, Some s)).
Proof.
  split.
  - intros c now startURL sched err s. unfold Crawl, NewParser.
    destruct (url_Parse startURL) as [p|e]; [| by intros [= -> <-]].
    destruct (AddURL (frontier c) startURL 0) as [uf|msg uf]; [| discriminate].
    match goal with
    | |- context [wg_Wait sched ?s0] =>
        pose proof (wg_Wait_no_error sched s0) as Hne;
        destruct (wg_Wait sched s0) as [e' s'']
    end.
    intros [= -> <-]. exfalso. by eapply Hne.
  - intros md n delay now startURL parsedURL sched Hdown.
    by apply Crawl_all_down.
Qed.

End Unreachable.

(** ** Fetch and the worker pool on concrete webs *)

Section PoolExamples.
Import World.

Lemma Fetch_classifies_witness :
  StatusCode (Fetch (net_http := site) (NewFetcher 1000000000) 0 "http://a.test/").1.1
  = 200 /\
  Links (Fetch (net_http := site) (NewFetcher 1000000000) 0 "http://a.test/").1.1 = [] /\
  RedirectURL (Fetch (net_http := site) (NewFetcher 1000000000) 0 "http://a.test/").1.1
  = "" /\
  (forall body, Ok "http://a.test/x" = Ok body ->
   Status (Fetch (net_http := site) (NewFetcher 1000000000) 0 "http://a.test/").1.1
   = StatusFetched /\
   Content (Fetch (net_http := site) (NewFetcher 1000000000) 0 "http://a.test/").1.1
   = body /\
   Error (Fetch (net_http := site) (NewFetcher 1000000000) 0 "http://a.test/").1.1
   = None) /\
  (forall err, Ok "http://a.test/x" = Err err ->
   Status (Fetch (net_http := site) (NewFetcher 1000000000) 0 "http://a.test/").1.1
   = StatusError /\
   Error (Fetch (net_http := site) (NewFetcher 1000000000) 0 "http://a.test/").1.1
   = Some err /\
   Content (Fetch (net_http := site) (NewFetcher 1000000000) 0 "http://a.test/").1.1
   = "").
Proof.
  apply (Fetch_classifies (net_url := url_lib) (net_http := site)
                          (NewFetcher 1000000000) 0
                          "http://a.test/" "http://a.test/"
                          (ok_page "http://a.test/x"));
    [reflexivity | reflexivity | reflexivity | simpl; lia].
Defined.

(** C5 as stated fails on a response whose body cannot be read: the status
    code is 200, outside [300,400), and the result is [StatusError], not
    [StatusFetched]. *)
Lemma Fetch_read_error_is_not_Fetched :
  client_Do (HttpLib := truncated) "http://a.test/"
  = Ok {| resp_StatusCode := 200; resp_Location := "";
          resp_ReadAll := Err "unexpected EOF" |} /\
  Status (Fetch (net_http := truncated) (NewFetcher 1000000000) 0 "http://a.test/").1.1
  = StatusError /\
  Status (Fetch (net_http := truncated) (NewFetcher 1000000000) 0 "http://a.test/").1.1
  <> StatusFetched.
Proof. split; [reflexivity |]. split; [reflexivity | discriminate]. Qed.

Lemma Crawl_error_only_from_setup_witness :
  exists s, Crawl (net_http := nowhere) (NewCrawler 2 2 1000000000) 0
                  "http://a.test/" round_robin
            = (CrawlReturns None, Some s).
Proof.
  apply (proj2 (Crawl_error_only_from_setup (net_url := url_lib)
                                            (net_http := nowhere))
               2 2 1000000000 0 "http://a.test/" "http://a.test/" round_robin).
  - intros u. eexists. reflexivity.
  - reflexivity.
  - intros i Hi. change (Z.to_nat 2) with 2%nat in *.
    destruct i as [|[|i]]; [vm_compute; lia | vm_compute; lia | lia].
Defined.

(** C1 fails on the code.  Two workers crawl [site]; worker 1 finds the
    queue empty, sleeps, and its second poll dequeues the link worker 0 has
    added in between.  The worker drops it and polls again: the crawl ends
    with the link marked visited, dequeued once, and never fetched. *)
Theorem worker_retry_discards_url :
  exists s,
    Crawl (net_http := site) (NewCrawler 2 2 1000000000) 0 "http://a.test/" overlap
    = (CrawlReturns None, Some s) /\
    trace s = [EvDequeue 0 "http://a.test/"; EvFetch 0 "http://a.test/";
               EvDequeue 1 "http://a.test/x"] /\
    goroutines s = [Exited; Exited] /\
    pending (p_frontier s) = [] /\
    is_visited (p_frontier s) "http://a.test/x" = true.
Proof.
  assert (H : match Crawl (net_http := site) (NewCrawler 2 2 1000000000) 0
                          "http://a.test/" overlap with
              | (e, Some s) =>
                  e = CrawlReturns None /\
                  trace s = [EvDequeue 0 "http://a.test/"; EvFetch 0 "http://a.test/";
                             EvDequeue 1 "http://a.test/x"] /\
                  goroutines s = [Exited; Exited] /\
                  pending (p_frontier s) = [] /\
                  is_visited (p_frontier s) "http://a.test/x" = true
              | (_, None) => False
              end).
  { vm_compute. repeat split. }
  destruct (Crawl (NewCrawler 2 2 1000000000) 0 "http://a.test/" overlap)
    as [e [s|]]; [| contradiction].
  destruct H as (-> & H). by exists s.
Qed.

End PoolExamples.

(** ** Fetch: pacing under concurrency *)

Section PacingFacts.

Lemma pacing_run_app (s1 s2 : list Pacing.action) (s : Pacing.state) :
  Pacing.run (s1 ++ s2) s = Pacing.run s2 (Pacing.run s1 s).
Proof. unfold Pacing.run. apply fold_left_app. Qed.

Lemma pacing_go_now (i : nat) (s : Pacing.state) :
  Pacing.now (Pacing.go i s) = Pacing.now s.
Proof.
  unfold Pacing.go. destruct (Pacing.pool s !! i) as [[h p]|]; [| reflexivity].
  destruct p; simpl; try reflexivity.
  - destruct (Pacing.mu s); reflexivity.
  - destruct (rateLimiter (Pacing.limiter s) !! h); [| reflexivity].
    destruct (time_Since (Pacing.now s) z <? delay (Pacing.limiter s)); reflexivity.
  - destruct (wake <=? Pacing.now s); reflexivity.
Qed.

(** A goroutine is past the section since an earlier step, or since now. *)
Lemma pacing_go_passed (i j : nat) (s : Pacing.state) (t : Z) :
  Pacing.passed_at j (Pacing.go i s) = Some t ->
  Pacing.passed_at j s = Some t \/ t = Pacing.now s.
Proof.
  unfold Pacing.go. destruct (Pacing.pool s !! i) as [[h p]|] eqn:Hi; [| by left].
  assert (Hset : forall p' s',
             Pacing.pool s' = Pacing.pool s ->
             (forall t', p' = Pacing.Passed t' -> t' = Pacing.now s) ->
             Pacing.passed_at j (Pacing.set_pc i h p' s') = Some t ->
             Pacing.passed_at j s = Some t \/ t = Pacing.now s).
  { intros p' s' Hpool Hp'. unfold Pacing.passed_at, Pacing.set_pc. simpl.
    rewrite Hpool. destruct (decide (i = j)) as [->|Hne].
    - rewrite list_lookup_insert_eq by (by eapply lookup_lt_Some).
      destruct p'; try discriminate. intros [= <-]. right. by apply Hp'.
    - rewrite list_lookup_insert_ne by done. by left. }
  destruct p.
  - destruct (Pacing.mu s); [by left |]. apply Hset; [reflexivity | discriminate].
  - destruct (rateLimiter (Pacing.limiter s) !! h); [| apply Hset; done].
    destruct (time_Since (Pacing.now s) z <? delay (Pacing.limiter s));
      apply Hset; done.
  - apply Hset; done.
  - destruct (wake <=? Pacing.now s); [apply Hset; done | by left].
  - apply Hset; done.
  - apply Hset; [done |]. by intros t' [= <-].
  - by left.
Qed.

(** While a goroutine sleeps in the section until [wake], holding the
    mutex, a goroutine waiting at the lock gets past the section at [wake]
    at the earliest, whatever its host. *)
Lemma pacing_waits_for_sleeper (sched : list Pacing.action) (s : Pacing.state)
      (hostA hostB : string) (wake t : Z) :
  Pacing.mu s = Some 0%nat ->
  Pacing.pool s = [Pacing.MkGoroutine hostA (Pacing.Sleeping wake);
                   Pacing.MkGoroutine hostB Pacing.AtLock] ->
  Pacing.passed_at 1 (Pacing.run sched s) = Some t ->
  wake <= t.
Proof.
  intros Hmu Hpool.
  assert (Hinv : (Pacing.mu s = Some 0%nat /\
                  Pacing.pool s = [Pacing.MkGoroutine hostA (Pacing.Sleeping wake);
                                   Pacing.MkGoroutine hostB Pacing.AtLock]) \/
                 (wake <= Pacing.now s /\
                  forall t', Pacing.passed_at 1 s = Some t' -> wake <= t'))
    by (by left).
  clear Hmu Hpool. revert s Hinv.
  induction sched as [|a sched IH]; intros s Hinv; unfold Pacing.run; simpl.
  - destruct Hinv as [[_ Hpool] | [_ Hp]]; [| apply Hp].
    unfold Pacing.passed_at. rewrite Hpool. discriminate.
  - apply IH. destruct a as [dt|i]; simpl.
    + destruct Hinv as [Hl | [Hnow Hp]]; [by left | right].
      split; [simpl; lia | exact Hp].
    + destruct Hinv as [[Hmu Hpool] | [Hnow Hp]].
      * unfold Pacing.go. rewrite Hpool.
        destruct i as [|[|i]]; simpl.
        -- destruct (wake <=? Pacing.now s) eqn:Hw; [| by left].
           right. apply Z.leb_le in Hw. split; [exact Hw |].
           unfold Pacing.passed_at, Pacing.set_pc. simpl. rewrite Hpool.
           discriminate.
        -- rewrite Hmu. by left.
        -- by left.
      * right. rewrite pacing_go_now. split; [exact Hnow |].
        intros t' Ht'. apply pacing_go_passed in Ht' as [Ht' | ->];
          [by apply Hp | exact Hnow].
Qed.

(** C4 fails on the code.  [Fetch] sleeps for the pacing of one host while
    it holds the mutex of the whole fetcher.  A goroutine that asks for a
    host with no pacing due gets past the section at once when it is alone;
    when another goroutine is sleeping for its own host, it is held at the
    lock until that sleep ends. *)
Theorem pacing_sleep_delays_other_host (f : Fetcher) (t0 : Z)
        (hostA hostB : string) (lastRequest : Z) :
  rateLimiter f !! hostA = Some lastRequest ->
  rateLimiter f !! hostB = None ->
  time_Since t0 lastRequest < delay f ->
  Pacing.passed_at 0
    (Pacing.run [Pacing.Go 0; Pacing.Go 0; Pacing.Go 0; Pacing.Go 0]
       (Pacing.arrive f t0 [hostB])) = Some t0 /\
  forall sched t,
    Pacing.passed_at 1
      (Pacing.run ([Pacing.Go 0; Pacing.Go 0; Pacing.Go 0] ++ sched)
         (Pacing.arrive f t0 [hostA; hostB])) = Some t ->
    lastRequest + delay f <= t.
Proof.
  intros HA HB Hlt. split.
  - unfold Pacing.run, Pacing.arrive. simpl.
    unfold Pacing.go at 4. simpl.
    unfold Pacing.go at 3. simpl. rewrite HB.
    unfold Pacing.go at 2. simpl.
    unfold Pacing.go at 1. simpl. reflexivity.
  - intros sched t. rewrite pacing_run_app.
    assert (Hpre : Pacing.run [Pacing.Go 0; Pacing.Go 0; Pacing.Go 0]
                     (Pacing.arrive f t0 [hostA; hostB])
                   = Pacing.MkState t0 (Some 0%nat) f
                       [Pacing.MkGoroutine hostA
                          (Pacing.Sleeping (lastRequest + delay f));
                        Pacing.MkGoroutine hostB Pacing.AtLock]).
    { unfold Pacing.run, Pacing.arrive. simpl.
      unfold Pacing.go at 3. simpl.
      unfold Pacing.go at 2. simpl. rewrite HA.
      apply Z.ltb_lt in Hlt. rewrite Hlt.
      unfold Pacing.go at 1. simpl.
      apply Z.ltb_lt in Hlt. unfold time_Sleep, time_Since in *.
      replace (t0 + Z.max (delay f - (t0 - lastRequest)) 0)
        with (lastRequest + delay f) by lia.
      reflexivity. }
    rewrite Hpre. by apply (pacing_waits_for_sleeper sched _ hostA hostB).
Qed.

End PacingFacts.

(** ** Fetch: the gap between requests to one host *)

Section PacingGap.

Lemma paced_others_idle (s : Pacing.state) (i j : nat) (g : Pacing.goroutine) :
  Pacing.paced s -> Pacing.mu s = Some i -> j <> i ->
  Pacing.pool s !! j = Some g ->
  match Pacing.at_pc g with
  | Pacing.AtLock | Pacing.Passed _ => True
  | _ => False
  end.
Proof.
  intros Hp Hmu Hne Hj. specialize (Hp j g Hj). unfold Pacing.holds in Hp.
  revert Hp. destruct (Pacing.at_pc g); intros Hp; try exact I;
    assert (Pacing.mu s = Some j) by (first [exact Hp | exact (proj1 Hp)]);
    congruence.
Qed.

(** Goroutine [i] moves to [p]; the others are idle or unaffected. *)
Lemma paced_set_pc (s s' : Pacing.state) (i : nat) (h : string) (p : Pacing.pc) :
  Pacing.paced s ->
  Pacing.pool s' = <[i := Pacing.MkGoroutine h p]> (Pacing.pool s) ->
  (Pacing.mu s = Some i \/ Pacing.mu s = None) ->
  Pacing.holds s' i (Pacing.MkGoroutine h p) ->
  Pacing.paced s'.
Proof.
  intros Hp Hpool Hmu Hi j g Hj. rewrite Hpool in Hj.
  apply list_lookup_insert_Some in Hj as [(-> & <- & _) | (Hne & Hj)];
    [exact Hi |].
  pose proof (Hp j g Hj) as Hg. unfold Pacing.holds in *.
  revert Hg. destruct (Pacing.at_pc g); intros Hg; try exact I;
    assert (Pacing.mu s = Some j) by (first [exact Hg | exact (proj1 Hg)]);
    destruct Hmu as [Hmu | Hmu]; congruence.
Qed.

Lemma paced_step (a : Pacing.action) (s : Pacing.state) :
  Pacing.paced s -> Pacing.paced (Pacing.step a s).
Proof.
  intros Hp. destruct a as [dt|i]; simpl.
  - intros j g Hj. specialize (Hp j g Hj). unfold Pacing.holds in *. simpl in *.
    destruct (Pacing.at_pc g); try exact Hp.
    destruct Hp as [Hmu Hp]. split; [exact Hmu |].
    intros lastRequest Hl. specialize (Hp lastRequest Hl). lia.
  - unfold Pacing.go. destruct (Pacing.pool s !! i) as [[h p]|] eqn:Hi; [| exact Hp].
    pose proof (Hp i _ Hi) as Hh. unfold Pacing.holds in Hh. simpl in Hh.
    destruct p as [| |lastRequest|wake| | |t].
    + destruct (Pacing.mu s) eqn:Hmu; [exact Hp |].
      eapply (paced_set_pc s); eauto. reflexivity.
    + destruct (rateLimiter (Pacing.limiter s) !! h) as [lastRequest|] eqn:Hl.
      * destruct (time_Since (Pacing.now s) lastRequest <? delay (Pacing.limiter s))
          eqn:Hlt.
        -- eapply (paced_set_pc s); eauto. by split.
        -- eapply (paced_set_pc s); eauto. split; [exact Hh |].
           simpl. intros l' Hl'. rewrite Hl in Hl'. injection Hl' as <-.
           apply Z.ltb_ge in Hlt. unfold time_Since in Hlt. lia.
      * eapply (paced_set_pc s); eauto. split; [exact Hh |].
        simpl. intros l' Hl'. congruence.
    + destruct Hh as [Hmu Hl]. eapply (paced_set_pc s); eauto.
      split; [exact Hmu |]. exists lastRequest. split; [exact Hl |].
      simpl. unfold time_Sleep, time_Since. lia.
    + destruct Hh as [Hmu (lastRequest & Hl & Hw)].
      destruct (wake <=? Pacing.now s) eqn:Hle; [| exact Hp].
      apply Z.leb_le in Hle. eapply (paced_set_pc s); eauto.
      split; [exact Hmu |]. simpl. intros l' Hl'. rewrite Hl in Hl'.
      injection Hl' as <-. lia.
    + destruct Hh as [Hmu _].
      intros j g Hj. simpl in Hj.
      apply list_lookup_insert_Some in Hj as [(-> & <- & _) | (Hne & Hj)];
        [exact Hmu |].
      pose proof (paced_others_idle s i j g Hp Hmu ltac:(congruence) Hj) as Hidle.
      unfold Pacing.holds. destruct (Pacing.at_pc g); try contradiction; exact I.
    + intros j g Hj. simpl in Hj.
      apply list_lookup_insert_Some in Hj as [(-> & <- & _) | (Hne & Hj)];
        [exact I |].
      pose proof (paced_others_idle s i j g Hp Hh ltac:(congruence) Hj) as Hidle.
      unfold Pacing.holds. destruct (Pacing.at_pc g); try contradiction; exact I.
    + exact Hp.
Qed.

Lemma pacing_step_delay (a : Pacing.action) (s : Pacing.state) :
  delay (Pacing.limiter (Pacing.step a s)) = delay (Pacing.limiter s).
Proof.
  destruct a as [dt|i]; simpl; [reflexivity |].
  unfold Pacing.go. destruct (Pacing.pool s !! i) as [[h p]|]; [| reflexivity].
  destruct p; simpl; try reflexivity.
  - destruct (Pacing.mu s); reflexivity.
  - destruct (rateLimiter (Pacing.limiter s) !! h); [| reflexivity].
    destruct (time_Since (Pacing.now s) z <? delay (Pacing.limiter s)); reflexivity.
  - destruct (wake <=? Pacing.now s); reflexivity.
Qed.

Lemma paced_run (sched : list Pacing.action) (s : Pacing.state) :
  Pacing.paced s ->
  Pacing.paced (Pacing.run sched s) /\
  delay (Pacing.limiter (Pacing.run sched s)) = delay (Pacing.limiter s).
Proof.
  revert s. induction sched as [|a sched IH]; intros s Hp; [by split |].
  change (Pacing.run (a :: sched) s) with (Pacing.run sched (Pacing.step a s)).
  destruct (IH _ (paced_step a s Hp)) as [Hp' Hd].
  split; [exact Hp' |]. rewrite Hd. apply pacing_step_delay.
Qed.

(** X1. Under every interleaving of the goroutines that run [Fetch], a
    goroutine that records a request to a host does so at least [delay]
    after the request recorded before it for that host. *)
Lemma pacing_same_host_gap (f : Fetcher) (t0 : Z) (hosts : list string)
      (sched : list Pacing.action) (i : nat) (h : string) (lastRequest t : Z) :
  rateLimiter (Pacing.limiter (Pacing.run sched (Pacing.arrive f t0 hosts))) !! h
  = Some lastRequest ->
  rateLimiter
    (Pacing.limiter (Pacing.go i (Pacing.run sched (Pacing.arrive f t0 hosts)))) !! h
  = Some t ->
  t = lastRequest \/ lastRequest + delay f <= t.
Proof.
  assert (Hp0 : Pacing.paced (Pacing.arrive f t0 hosts)).
  { intros j g Hj. unfold Pacing.arrive in Hj. simpl in Hj.
    apply list_lookup_fmap_Some in Hj as (h' & -> & _). exact I. }
  destruct (paced_run sched _ Hp0) as [Hp Hd]. simpl in Hd.
  set (s := Pacing.run sched (Pacing.arrive f t0 hosts)) in *.
  intros Hl. unfold Pacing.go.
  destruct (Pacing.pool s !! i) as [[h' p]|] eqn:Hi; [| left; congruence].
  pose proof (Hp i _ Hi) as Hh. unfold Pacing.holds in Hh. simpl in Hh.
  destruct p; simpl; try (left; congruence).
  - destruct (Pacing.mu s); simpl; left; congruence.
  - destruct (rateLimiter (Pacing.limiter s) !! h'); [| simpl; left; congruence].
    destruct (time_Since (Pacing.now s) z <? delay (Pacing.limiter s));
      simpl; left; congruence.
  - destruct (wake <=? Pacing.now s); simpl; left; congruence.
  - destruct Hh as [_ Hh]. destruct (decide (h' = h)) as [->|Hne].
    + rewrite lookup_insert_eq. intros [= <-]. right.
      specialize (Hh lastRequest Hl). lia.
    + rewrite lookup_insert_ne by done. left. congruence.
Qed.

#[local] Arguments Pacing.run : simpl never.

Lemma pacing_run_cons (a : Pacing.action) (sched : list Pacing.action)
      (s : Pacing.state) :
  Pacing.run (a :: sched) s = Pacing.run sched (Pacing.step a s).
Proof. reflexivity. Qed.

(** A goroutine that runs the section alone leaves it as [Fetch_pace] says:
    with the same fetcher, at the same instant. *)
Lemma pacing_alone_is_Fetch_pace (f : Fetcher) (t0 : Z) (h : string) :
  exists sched,
    Pacing.run sched (Pacing.arrive f t0 [h])
    = Pacing.MkState (Fetch_pace f t0 h).2 None (Fetch_pace f t0 h).1
        [Pacing.MkGoroutine h (Pacing.Passed (Fetch_pace f t0 h).2)].
Proof.
  unfold Fetch_pace, Pacing.arrive. simpl.
  destruct (rateLimiter f !! h) as [lastRequest|] eqn:Hl.
  - destruct (time_Since t0 lastRequest <? delay f) eqn:Hlt.
    + exists [Pacing.Go 0; Pacing.Go 0; Pacing.Go 0;
              Pacing.Tick (Z.to_N (delay f - time_Since t0 lastRequest));
              Pacing.Go 0; Pacing.Go 0; Pacing.Go 0].
      assert (Hnow : t0 + Z.of_N (Z.to_N (delay f - time_Since t0 lastRequest))
                     = time_Sleep t0 (delay f - time_Since t0 lastRequest)).
      { apply Z.ltb_lt in Hlt. unfold time_Sleep. lia. }
      rewrite pacing_run_cons. unfold Pacing.step, Pacing.go. simpl.
      rewrite pacing_run_cons. unfold Pacing.step, Pacing.go. simpl.
      rewrite Hl, Hlt.
      rewrite pacing_run_cons. unfold Pacing.step, Pacing.go. simpl.
      rewrite pacing_run_cons. unfold Pacing.step. simpl. rewrite Hnow.
      rewrite pacing_run_cons. unfold Pacing.step, Pacing.go. simpl.
      rewrite Z.leb_refl.
      rewrite pacing_run_cons. unfold Pacing.step, Pacing.go. simpl.
      rewrite pacing_run_cons. unfold Pacing.step, Pacing.go. simpl.
      reflexivity.
    + exists [Pacing.Go 0; Pacing.Go 0; Pacing.Go 0; Pacing.Go 0].
      rewrite pacing_run_cons. unfold Pacing.step, Pacing.go. simpl.
      rewrite pacing_run_cons. unfold Pacing.step, Pacing.go. simpl.
      rewrite Hl, Hlt.
      rewrite pacing_run_cons. unfold Pacing.step, Pacing.go. simpl.
      rewrite pacing_run_cons. unfold Pacing.step, Pacing.go. simpl.
      reflexivity.
  - exists [Pacing.Go 0; Pacing.Go 0; Pacing.Go 0; Pacing.Go 0].
    rewrite pacing_run_cons. unfold Pacing.step, Pacing.go. simpl.
    rewrite pacing_run_cons. unfold Pacing.step, Pacing.go. simpl.
    rewrite Hl.
    rewrite pacing_run_cons. unfold Pacing.step, Pacing.go. simpl.
    rewrite pacing_run_cons. unfold Pacing.step, Pacing.go. simpl.
    reflexivity.
Qed.

End PacingGap.

(** ** Pacing on a concrete fetcher *)

Section PacingExamples.

Lemma pacing_sleep_delays_other_host_witness :
  Pacing.passed_at 0
    (Pacing.run [Pacing.Go 0; Pacing.Go 0; Pacing.Go 0; Pacing.Go 0]
       (Pacing.arrive World.paced_fetcher 10000000 ["b.test"])) = Some 10000000 /\
  forall sched t,
    Pacing.passed_at 1
      (Pacing.run ([Pacing.Go 0; Pacing.Go 0; Pacing.Go 0] ++ sched)
         (Pacing.arrive World.paced_fetcher 10000000 ["a.test"; "b.test"])) = Some t ->
    0 + delay World.paced_fetcher <= t.
Proof.
  apply (pacing_sleep_delays_other_host World.paced_fetcher 10000000
                                        "a.test" "b.test" 0).
  - reflexivity.
  - reflexivity.
  - unfold time_Since. simpl. lia.
Defined.

Lemma pacing_same_host_gap_witness :
  1000000000 = 0 \/ 0 + delay World.paced_fetcher <= 1000000000.
Proof.
  apply (pacing_same_host_gap World.paced_fetcher 10000000 ["a.test"]
           [Pacing.Go 0; Pacing.Go 0; Pacing.Go 0; Pacing.Tick 990000000;
            Pacing.Go 0]
           0 "a.test" 0 1000000000).
  - vm_compute. reflexivity.
  - vm_compute. reflexivity.
Defined.

(** The request to [b.test] does get past the section, one second late. *)
Lemma pacing_other_host_passes_late :
  Pacing.passed_at 1
    (Pacing.run ([Pacing.Go 0; Pacing.Go 0; Pacing.Go 0] ++
                 [Pacing.Go 1; Pacing.Tick 990000000; Pacing.Go 0; Pacing.Go 0;
                  Pacing.Go 0; Pacing.Go 1; Pacing.Go 1; Pacing.Go 1; Pacing.Go 1])
       (Pacing.arrive World.paced_fetcher 10000000 ["a.test"; "b.test"]))
  = Some 1000000000.
Proof. vm_compute. reflexivity. Qed.

End PacingExamples.

(** * Further properties *)

(** ** The frontier as a queue *)

Section FrontierQueue.
Context {net_url : UrlLib}.

(** [GetURL] hands out what is pending, oldest first. *)
Lemma run_drain (l1 l2 : list string) (uf : URLFrontier) (got : list string) :
  pending uf = l1 ++ l2 ->
  run (replicate (length l1) OpGetURL) (uf, got)
  = Returns (set_urls (Chan.Make l2 (Chan.cap (urls uf)) (Chan.closed (urls uf))) uf,
             got ++ l1).
Proof.
  revert uf got. induction l1 as [|v l1 IH]; intros uf got Hl.
  - simpl. rewrite app_nil_r. unfold set_urls.
    destruct uf as [[b c cl] vi md de]. unfold pending in Hl. simpl in *.
    by subst b.
  - cbn [length replicate run exec]. unfold GetURL, Chan.try_recv.
    unfold pending in Hl. rewrite Hl. simpl.
    rewrite (IH _ (got ++ [v])) by reflexivity.
    simpl. by rewrite <- app_assoc.
Qed.

(** X2. A URL that [AddURL] accepts into a queue with room comes back out of
    [GetURL] with the depth it was added with, after the URLs that were
    pending before it, which come out in their order; the queue is then
    empty. *)
Theorem AddURL_GetURL_round_trip (uf0 : URLFrontier) (got0 : list string)
        (rawURL u : string) (d : Z) :
  Chan.closed (urls uf0) = false ->
  Chan.full (urls uf0) = false ->
  normalize rawURL = Some u ->
  is_visited uf0 u = false ->
  d < maxDepth uf0 ->
  exists uf1 uf2,
    AddURL uf0 rawURL d = Returns uf1 /\
    run (replicate (length (pending uf0)) OpGetURL) (uf1, got0)
    = Returns (uf2, got0 ++ pending uf0) /\
    (GetURL uf2).1 = (u, d, true) /\
    pending (GetURL uf2).2 = [] /\
    (GetURL (GetURL uf2).2).1 = ("", 0, false).
Proof.
  intros Hopen Hroom Hn Hv Hd.
  eexists _, _. split; [by eapply AddURL_accepts |]. rewrite Hroom.
  split.
  - by rewrite (run_drain (pending uf0) [u]).
  - unfold GetURL, Chan.try_recv, depth_of. simpl.
    rewrite lookup_insert_eq. simpl. repeat split; reflexivity.
Qed.

(** X3. After [Close], [GetURL] never reports an empty queue: it hands out
    what is pending, in order, and from then on the empty URL with
    [ok = true], every time.  [AddURL] of a URL it would accept panics on
    the closed channel, after it has marked the URL visited. *)
Theorem Close_then_GetURL_never_empty :
  (forall (uf : URLFrontier) (got : list string) (k : nat),
     exists uf',
       run (replicate k OpGetURL) (Close uf, got)
       = Returns (uf', got ++ take k (pending uf)
                           ++ replicate (k - length (pending uf)) "") /\
       Chan.closed (urls uf') = true) /\
  (forall (uf : URLFrontier) (rawURL u : string) (d : Z),
     normalize rawURL = Some u ->
     is_visited uf u = false ->
     d < maxDepth uf ->
     exists uf1,
       AddURL (Close uf) rawURL d = Panics "send on closed channel" uf1 /\
       is_visited uf1 u = true /\
       pending uf1 = pending uf).
Proof.
  split.
  - intros uf got k.
    assert (Hgen : forall k l uf got,
              pending uf = l -> Chan.closed (urls uf) = true ->
              exists uf',
                run (replicate k OpGetURL) (uf, got)
                = Returns (uf', got ++ take k l ++ replicate (k - length l) "") /\
                Chan.closed (urls uf') = true).
    { clear. induction k as [|k IH]; intros l uf got Hl Hc.
      - exists uf. simpl. by rewrite app_nil_r.
      - cbn [replicate run exec]. unfold GetURL, Chan.try_recv.
        unfold pending in Hl. rewrite Hl, Hc. destruct l as [|v l].
        + destruct (IH [] uf (got ++ [""])) as (uf' & Hr & Hc'); [done | done |].
          exists uf'. split; [| exact Hc']. rewrite Hr. f_equal. f_equal.
          rewrite !take_nil. simpl. rewrite Nat.sub_0_r, <- app_assoc.
          reflexivity.
        + destruct (IH l (set_urls (Chan.Make l (Chan.cap (urls uf)) true) uf)
                       (got ++ [v])) as (uf' & Hr & Hc'); [done | done |].
          exists uf'. split; [| exact Hc']. rewrite Hr. f_equal. f_equal.
          simpl. by rewrite <- app_assoc. }
    apply Hgen; reflexivity.
  - intros uf rawURL u d Hn Hv Hd. unfold AddURL. unfold normalize in Hn.
    destruct (url_Parse rawURL) as [p|e]; [| discriminate].
    injection Hn as Hn. rewrite Hn.
    assert (Hv' : is_visited (Close uf) u = false) by exact Hv.
    assert (Hge : (d >=? maxDepth (Close uf)) = false).
    { simpl. rewrite Z.geb_leb. apply Z.leb_gt. lia. }
    rewrite Hv', Hge. simpl.
    eexists. split; [reflexivity |]. split; [| reflexivity].
    unfold is_visited. simpl. by rewrite lookup_insert_eq.
Qed.

End FrontierQueue.

Section FrontierQueueExamples.
Import World.

Lemma AddURL_GetURL_round_trip_witness :
  exists uf1 uf2,
    AddURL (NewURLFrontier 2) "http://a.test/" 0 = Returns uf1 /\
    run (replicate (length (pending (NewURLFrontier 2))) OpGetURL) (uf1, [])
    = Returns (uf2, [] ++ pending (NewURLFrontier 2)) /\
    (GetURL uf2).1 = ("http://a.test/", 0, true) /\
    pending (GetURL uf2).2 = [] /\
    (GetURL (GetURL uf2).2).1 = ("", 0, false).
Proof.
  apply (AddURL_GetURL_round_trip (NewURLFrontier 2) [] "http://a.test/"
                                  "http://a.test/" 0);
    [reflexivity | reflexivity | reflexivity | reflexivity | simpl; lia].
Defined.

End FrontierQueueExamples.

(** ** Fetch: pacing of calls made one after the other *)

Section FetchPacing.
Context {net_url : UrlLib} {net_http : HttpLib}.

Lemma Fetch_pace_spec (f : Fetcher) (now : Z) (h : string) :
  rateLimiter (Fetch_pace f now h).1 = <[h := (Fetch_pace f now h).2]> (rateLimiter f) /\
  delay (Fetch_pace f now h).1 = delay f /\
  now <= (Fetch_pace f now h).2 /\
  match rateLimiter f !! h with
  | Some lastRequest =>
      lastRequest + delay f <= (Fetch_pace f now h).2 /\
      (lastRequest + delay f <= now -> (Fetch_pace f now h).2 = now)
  | None => (Fetch_pace f now h).2 = now
  end.
Proof.
  unfold Fetch_pace. simpl. split; [reflexivity |]. split; [reflexivity |].
  destruct (rateLimiter f !! h) as [lastRequest|]; [| split; [lia | reflexivity]].
  unfold time_Sleep, time_Since.
  destruct (now - lastRequest <? delay f) eqn:Hlt.
  - apply Z.ltb_lt in Hlt. split; [lia |]. split; [lia | intros; lia].
  - apply Z.ltb_ge in Hlt. split; [lia |]. split; [lia | reflexivity].
Qed.

Lemma Fetch_state (f : Fetcher) (now : Z) (rawURL : string) :
  ((Fetch f now rawURL).1.2, (Fetch f now rawURL).2)
  = match url_Parse rawURL with
    | Ok parsedURL => Fetch_pace f now (URL_Hostname parsedURL)
    | Err _ => (f, now)
    end.
Proof.
  unfold Fetch. destruct (url_Parse rawURL) as [p|e]; [| reflexivity].
  destruct (Fetch_pace f now (URL_Hostname p)) as [f1 now1].
  destruct (http_NewRequest rawURL); [reflexivity |].
  destruct (client_Do rawURL) as [resp|e]; [| reflexivity].
  destruct ((resp_StatusCode resp >=? 300) && (resp_StatusCode resp <? 400));
    [reflexivity |].
  destruct (resp_ReadAll resp); reflexivity.
Qed.

(** X4. Two calls of [Fetch] made one after the other for URLs of one host:
    the second call returns at least [delay] after the instant the first
    one recorded, whatever the requests yield, and records its own instant.
    A call for a host the fetcher has no record of is not held back, and a
    call leaves the records of all other hosts as they were. *)
Theorem Fetch_paces_per_host (f : Fetcher) (now later : Z)
        (rawURL1 rawURL2 : string) (parsedURL1 parsedURL2 : url_URL) :
  url_Parse rawURL1 = Ok parsedURL1 ->
  url_Parse rawURL2 = Ok parsedURL2 ->
  (Fetch f now rawURL1).2 <= later ->
  let f1 := (Fetch f now rawURL1).1.2 in
  let t1 := (Fetch f now rawURL1).2 in
  let f2 := (Fetch f1 later rawURL2).1.2 in
  let t2 := (Fetch f1 later rawURL2).2 in
  rateLimiter f1 !! URL_Hostname parsedURL1 = Some t1 /\
  rateLimiter f2 !! URL_Hostname parsedURL2 = Some t2 /\
  later <= t2 /\
  (URL_Hostname parsedURL2 = URL_Hostname parsedURL1 -> t1 + delay f <= t2) /\
  (rateLimiter f1 !! URL_Hostname parsedURL2 = None -> t2 = later) /\
  (forall h, h <> URL_Hostname parsedURL1 -> h <> URL_Hostname parsedURL2 ->
             rateLimiter f2 !! h = rateLimiter f !! h).
Proof.
  intros Hp1 Hp2 Hlater. cbv zeta.
  pose proof (Fetch_state f now rawURL1) as H1. rewrite Hp1 in H1.
  pose proof (Fetch_pace_spec f now (URL_Hostname parsedURL1)) as (Hr1 & Hd1 & Hn1 & _).
  rewrite <- H1 in Hr1, Hd1, Hn1. simpl in Hr1, Hd1, Hn1.
  set (f1 := (Fetch f now rawURL1).1.2) in *.
  set (t1 := (Fetch f now rawURL1).2) in *.
  pose proof (Fetch_state f1 later rawURL2) as H2. rewrite Hp2 in H2.
  pose proof (Fetch_pace_spec f1 later (URL_Hostname parsedURL2)) as (Hr2 & Hd2 & Hn2 & Hm2).
  rewrite <- H2 in Hr2, Hd2, Hn2, Hm2. simpl in Hr2, Hd2, Hn2, Hm2.
  set (f2 := (Fetch f1 later rawURL2).1.2) in *.
  set (t2 := (Fetch f1 later rawURL2).2) in *.
  split; [rewrite Hr1; apply lookup_insert_eq |].
  split; [rewrite Hr2; apply lookup_insert_eq |].
  split; [exact Hn2 |].
  split; [| split].
  - intros Hh. rewrite Hh, Hr1, lookup_insert_eq in Hm2. lia.
  - intros Hnone. by rewrite Hnone in Hm2.
  - intros h Hh1 Hh2. rewrite Hr2, lookup_insert_ne by done.
    rewrite Hr1, lookup_insert_ne by done. reflexivity.
Qed.

(** A URL that does not parse is answered without pacing and without a
    request: the fetcher and the clock stay as they were. *)
Lemma Fetch_unparsable (f : Fetcher) (now : Z) (rawURL : string) (err : error) :
  url_Parse rawURL = Err err ->
  Fetch f now rawURL
  = ({| URL := rawURL; Status := StatusError; Content := ""; Links := [];
        Error := Some err; StatusCode := 0; RedirectURL := "" |}, f, now).
Proof. intros Hp. unfold Fetch. by rewrite Hp. Qed.

End FetchPacing.

Section FetchPacingExamples.
Import World.

Lemma Fetch_paces_per_host_witness :
  rateLimiter (Fetch (net_http := site) (NewFetcher 1000000000) 0
                     "http://a.test/").1.2 !! "a.test" = Some 0 /\
  rateLimiter (Fetch (net_http := site)
                     (Fetch (net_http := site) (NewFetcher 1000000000) 0
                            "http://a.test/").1.2
                     5 "http://a.test/x").1.2 !! "a.test" = Some 1000000000.
Proof.
  pose proof (Fetch_paces_per_host (net_url := url_lib) (net_http := site)
                (NewFetcher 1000000000) 0 5 "http://a.test/" "http://a.test/x"
                "http://a.test/" "http://a.test/x" eq_refl eq_refl) as H.
  cbv zeta in H. destruct H as (H1 & H2 & _); [vm_compute; discriminate |].
  split; [exact H1 | exact H2].
Defined.

End FetchPacingExamples.

(** ** Parser: the links of a page *)

Section ParserFacts.
Context {net_url : UrlLib} {x_html : HtmlLib}.

Lemma Node_ind_children (P : Node -> Prop) :
  (forall ty data attrs children,
      Forall P children -> P (MkNode ty data attrs children)) ->
  forall n, P n.
Proof.
  intros H. fix IH 1. intros [ty data attrs children]. apply H.
  induction children as [|c children IHc]; constructor; [apply IH | exact IHc].
Qed.

Lemma extractHrefs_spec (base : url_URL) (attrs : list (string * string))
      (links : list string) :
  extractHrefs base attrs links
  = links ++ omap (resolve_http base)
               (map snd (List.filter (fun attr => String.eqb (fst attr) "href") attrs)).
Proof.
  unfold extractHrefs. revert links.
  induction attrs as [|[k v] attrs IH]; intros links; simpl.
  - by rewrite app_nil_r.
  - rewrite IH. destruct (String.eqb k "href"); [| reflexivity]. simpl.
    unfold resolve_http at 2.
    destruct (URL_Parse base v) as [r|e]; [| reflexivity].
    destruct (String.eqb (URL_Scheme r) "http" || String.eqb (URL_Scheme r) "https");
      [| reflexivity].
    by rewrite <- app_assoc.
Qed.

Lemma extractLinks_spec (n : Node) (base : url_URL) (links : list string) :
  extractLinks n base links = links ++ omap (resolve_http base) (hrefs n).
Proof.
  revert links. induction n as [ty data attrs children IH] using Node_ind_children.
  intros links. cbn [extractLinks hrefs].
  assert (Hfold : forall acc,
             fold_left (fun links c => extractLinks c base links) children acc
             = acc ++ omap (resolve_http base) (concat (map hrefs children))).
  { induction IH as [|c cs Hc _ IHf]; intros acc; simpl.
    - by rewrite app_nil_r.
    - rewrite IHf, Hc, omap_app. by rewrite <- app_assoc. }
  rewrite Hfold, omap_app, app_assoc. f_equal.
  destruct (NodeType_eqb ty ElementNode && String.eqb data "a").
  - apply extractHrefs_spec.
  - simpl. by rewrite app_nil_r.
Qed.

(** X5. [Parse] returns, in document order and with repetitions, the [href]
    of every [a] element of the page that resolves against the page's URL to
    an [http] or [https] URL, and nothing else: each returned link is the
    string of such a resolved URL.  When the page's URL or the HTML does not
    parse, it returns no link at all.  The parser's own [baseURL] plays no
    part. *)
Theorem Parse_links_are_resolved_web_hrefs :
  forall (p : Parser) (content currentURL : string),
    Parser_Parse p content currentURL
    = match url_Parse currentURL, html_Parse content with
      | Ok base, Ok doc => omap (resolve_http base) (hrefs doc)
      | _, _ => []
      end
    /\ (forall l, l ∈ Parser_Parse p content currentURL ->
          exists base doc ref r,
            url_Parse currentURL = Ok base /\ html_Parse content = Ok doc /\
            ref ∈ hrefs doc /\ URL_Parse base ref = Ok r /\
            (URL_Scheme r = "http" \/ URL_Scheme r = "https") /\
            l = URL_String r).
Proof.
  intros p content currentURL.
  assert (Heq : Parser_Parse p content currentURL
                = match url_Parse currentURL, html_Parse content with
                  | Ok base, Ok doc => omap (resolve_http base) (hrefs doc)
                  | _, _ => []
                  end).
  { unfold Parser_Parse.
    destruct (url_Parse currentURL) as [base|e]; [| reflexivity].
    destruct (html_Parse content) as [doc|e]; [| reflexivity].
    by rewrite extractLinks_spec. }
  split; [exact Heq |].
  intros l. rewrite Heq.
  destruct (url_Parse currentURL) as [base|e]; [| by intros ?%elem_of_nil].
  destruct (html_Parse content) as [doc|e]; [| by intros ?%elem_of_nil].
  intros (ref & Href & Hres)%list_elem_of_omap.
  unfold resolve_http in Hres.
  destruct (URL_Parse base ref) as [r|e] eqn:Hr; [| discriminate].
  destruct (String.eqb (URL_Scheme r) "http") eqn:H1;
    [| destruct (String.eqb (URL_Scheme r) "https") eqn:H2; [| discriminate]];
    simpl in Hres; injection Hres as <-; exists base, doc, ref, r;
    repeat split; auto.
  - left. by apply String.eqb_eq.
  - right. by apply String.eqb_eq.
Qed.

End ParserFacts.

(** ** The worker pool: what every crawl keeps *)

Section CrawlRuns.
Context {net_url : UrlLib} {net_http : HttpLib} {x_html : HtmlLib}.

(** *** A property every step keeps holds where [Crawl] stops *)

Section Invariant.
Variable I : pool -> Prop.
Hypothesis I_step : forall a s, I s -> exists s', step a s = Returns s' /\ I s'.

Lemma wg_Wait_invariant (sched : list action) (s : pool) :
  I s ->
  exists s', I s' /\
    (wg_Wait sched s = (CrawlBlocked, s') \/
     wg_Wait sched s
     = (CrawlReturns None, set_results (Chan.close (results s')) s')).
Proof.
  revert s. induction sched as [|a sched IH]; intros s Hs; cbn [wg_Wait].
  - exists s. split; [exact Hs |].
    destruct (forallb is_Exited (goroutines s)); auto.
  - destruct (forallb is_Exited (goroutines s)).
    + exists s. auto.
    + destruct (I_step a s Hs) as (s1 & -> & H1). by apply IH.
Qed.

Lemma Crawl_invariant (c : Crawler) (now : Z) (startURL : string)
      (sched : list action) :
  (forall parser uf,
      NewParser startURL = Ok parser ->
      AddURL (frontier c) startURL 0 = Returns uf ->
      I {| p_frontier := uf; p_fetcher := fetcher c; p_parser := parser;
           p_clock := now; results := Chan.make 100;
           goroutines := replicate (Z.to_nat (workers c)) Polling;
           indexed := []; trace := [] |}) ->
  forall e s, Crawl c now startURL sched = (e, Some s) ->
  exists s', I s' /\
    (e = CrawlBlocked /\ s = s' \/
     e = CrawlReturns None /\ s = set_results (Chan.close (results s')) s').
Proof.
  intros H0 e s. unfold Crawl.
  destruct (NewParser startURL) as [parser|err]; [| discriminate].
  destruct (AddURL (frontier c) startURL 0) as [uf|msg uf]; [| discriminate].
  specialize (H0 parser uf eq_refl eq_refl).
  match goal with
  | |- context [wg_Wait sched ?s0] =>
      destruct (wg_Wait_invariant sched s0 H0) as (s' & Hs' & [Hw | Hw]);
      rewrite Hw
  end; intros [= <- <-]; exists s'; auto.
Qed.

End Invariant.

(** *** The channels *)

Lemma try_send_bounded {A : Type} (c c' : Chan.chan A) (v : A) :
  Chan.try_send c v = Chan.Sent c' ->
  Chan.closed c' = Chan.closed c /\ Chan.cap c' = Chan.cap c /\
  Chan.buf c' = Chan.buf c ++ [v] /\
  (length (Chan.buf c') <= Chan.cap c')%nat.
Proof.
  unfold Chan.try_send, Chan.full.
  destruct (Chan.closed c) eqn:Hc; [discriminate |].
  destruct (Chan.cap c <=? length (Chan.buf c))%nat eqn:Hf; [discriminate |].
  intros [= <-]. simpl. apply Nat.leb_gt in Hf.
  rewrite length_app. simpl. repeat split; lia.
Qed.

Lemma try_recv_bounded {A : Type} (c c' : Chan.chan A) (v : A) :
  Chan.try_recv c = Chan.Received v c' ->
  Chan.closed c' = Chan.closed c /\ Chan.cap c' = Chan.cap c /\
  Chan.buf c = v :: Chan.buf c'.
Proof.
  unfold Chan.try_recv. destruct (Chan.buf c) as [|v' rest].
  - destruct (Chan.closed c); discriminate.
  - intros [= <- <-]. auto.
Qed.

Lemma AddURL_chan (uf : URLFrontier) (rawURL : string) (d : Z) :
  Chan.closed (urls uf) = false ->
  (length (pending uf) <= Chan.cap (urls uf))%nat ->
  exists uf', AddURL uf rawURL d = Returns uf' /\
              Chan.closed (urls uf') = false /\
              Chan.cap (urls uf') = Chan.cap (urls uf) /\
              (length (pending uf') <= Chan.cap (urls uf'))%nat.
Proof.
  intros Hopen Hlen. unfold AddURL.
  destruct (url_Parse rawURL) as [p|e]; [| eauto].
  destruct (is_visited uf (URL_String p) || (d >=? maxDepth uf)); [eauto |].
  cbn [urls].
  destruct (Chan.try_send (urls uf) (URL_String p)) as [c| |] eqn:Hs.
  - apply try_send_bounded in Hs as (Hc & Hcap & _ & Hb).
    eexists. split; [reflexivity |]. unfold pending. simpl.
    rewrite Hc, Hcap. rewrite Hcap in Hb. auto.
  - eexists. split; [reflexivity |]. auto.
  - unfold Chan.try_send in Hs. rewrite Hopen in Hs.
    destruct (Chan.full (urls uf)); discriminate.
Qed.

Lemma GetURL_chan (uf : URLFrontier) :
  Chan.closed (urls (GetURL uf).2) = Chan.closed (urls uf) /\
  Chan.cap (urls (GetURL uf).2) = Chan.cap (urls uf) /\
  (length (pending (GetURL uf).2) <= length (pending uf))%nat.
Proof.
  unfold GetURL.
  destruct (Chan.try_recv (urls uf)) as [v c| |] eqn:Hr; simpl; auto.
  apply try_recv_bounded in Hr as (Hc & Hcap & Hb).
  unfold pending. simpl. rewrite Hb. simpl. auto.
Qed.

(** The channels of a pool, with their capacities. *)
Lemma step_chan_inv (n m : nat) (a : action) (s : pool) :
  chan_inv s /\ Chan.cap (urls (p_frontier s)) = n /\ Chan.cap (results s) = m ->
  exists s', step a s = Returns s' /\
             (chan_inv s' /\ Chan.cap (urls (p_frontier s')) = n /\
              Chan.cap (results s') = m).
Proof.
  intros ([Hfo Hro Hfc Hrc] & Hn & Hm). destruct a as [i|]; simpl.
  - unfold worker_step.
    destruct (goroutines s !! i) as [w|] eqn:Hw; [| eexists; split; [reflexivity |]; by repeat split].
    destruct w as [| | |url d|result links d|result|].
    + pose proof (GetURL_chan (p_frontier s)) as (Hc & Hcap & Hlen).
      destruct (GetURL (p_frontier s)) as [[[url d] ok] uf]. simpl in *.
      destruct ok; (eexists; split; [reflexivity |]);
        (split; [split; simpl |]; simpl; try congruence; lia).
    + eexists; split; [reflexivity |]. by repeat split.
    + pose proof (GetURL_chan (p_frontier s)) as (Hc & Hcap & Hlen).
      destruct (GetURL (p_frontier s)) as [[[url d] ok] uf]. simpl in *.
      destruct ok; (eexists; split; [reflexivity |]);
        (split; [split; simpl |]; simpl; try congruence; lia).
    + destruct (Fetch (p_fetcher s) (p_clock s) url) as [[result f] now1].
      destruct (URLStatus_eqb (Status result) StatusFetched);
        (eexists; split; [reflexivity |]); by repeat split.
    + destruct links as [|link rest].
      * eexists; split; [reflexivity |]. by repeat split.
      * destruct (AddURL_chan (p_frontier s) link (wrap64 (d + 1)) Hfo Hfc)
          as (uf & -> & Ho & Hcap & Hlen).
        eexists; split; [reflexivity |].
        split; [split; simpl |]; simpl; try congruence; lia.
    + destruct (Chan.try_send (results s) result) as [c| |] eqn:Hs.
      * apply try_send_bounded in Hs as (Hc & Hcap & _ & Hb).
        eexists; split; [reflexivity |].
        split; [split; simpl |]; simpl; try congruence; lia.
      * eexists; split; [reflexivity |]. by repeat split.
      * unfold Chan.try_send in Hs. rewrite Hro in Hs.
        destruct (Chan.full (results s)); discriminate.
    + eexists; split; [reflexivity |]. by repeat split.
  - eexists; split; [reflexivity |]. unfold processResults_step.
    destruct (Chan.try_recv (results s)) as [v c| |] eqn:Hr; [| by repeat split ..].
    apply try_recv_bounded in Hr as (Hc & Hcap & Hb).
    rewrite Hb in Hrc. simpl in Hrc.
    split; [split; simpl |]; simpl; try congruence; lia.
Qed.

(** X6. A crawl never sends on a closed channel and never overfills one.
    From a crawler whose queue is open and within its capacity, [Crawl] under
    every schedule either returns nil or is still waiting for its workers: it
    does not panic.  The results channel is closed when [Crawl] has returned
    and open while it waits; the queue of the frontier stays open and never
    holds more URLs than its capacity (1000 for a new frontier), the results
    channel never more than 100 results. *)
Theorem Crawl_never_panics (c : Crawler) (now : Z) (startURL : string)
        (sched : list action) :
  Chan.closed (urls (frontier c)) = false ->
  (length (pending (frontier c)) <= Chan.cap (urls (frontier c)))%nat ->
  (forall msg, (Crawl c now startURL sched).1 <> CrawlPanics msg) /\
  (forall e s, Crawl c now startURL sched = (e, Some s) ->
     (e = CrawlBlocked \/ e = CrawlReturns None) /\
     Chan.closed (results s) = (if e is CrawlBlocked then false else true) /\
     Chan.closed (urls (p_frontier s)) = false /\
     (length (pending (p_frontier s)) <= Chan.cap (urls (frontier c)))%nat /\
     (length (Chan.buf (results s)) <= 100)%nat).
Proof.
  intros Hopen Hlen.
  assert (Hrun : forall e s, Crawl c now startURL sched = (e, Some s) ->
     (e = CrawlBlocked \/ e = CrawlReturns None) /\
     Chan.closed (results s) = (if e is CrawlBlocked then false else true) /\
     Chan.closed (urls (p_frontier s)) = false /\
     (length (pending (p_frontier s)) <= Chan.cap (urls (frontier c)))%nat /\
     (length (Chan.buf (results s)) <= 100)%nat).
  { intros e s He.
    destruct (Crawl_invariant _ (step_chan_inv (Chan.cap (urls (frontier c))) 100)
                c now startURL sched) with (e := e) (s := s)
      as (s' & ([Hfo Hro Hfc Hrc] & Hn & Hm) & Hend); [| exact He |].
    - intros parser uf _ Ha.
      destruct (AddURL_chan (frontier c) startURL 0 Hopen Hlen)
        as (uf' & Ha' & Ho & Hcap & Hl).
      rewrite Ha in Ha'. injection Ha' as <-.
      split; [split; simpl |]; simpl; auto; lia.
    - destruct Hend as [[-> ->] | [-> ->]]; simpl;
        repeat split; auto; lia. }
  split; [| exact Hrun].
  intros msg Hp.
  destruct (Crawl c now startURL sched) as [e [s|]] eqn:He; simpl in Hp; subst e.
  - destruct (Hrun _ _ eq_refl) as ([? | ?] & _); discriminate.
  - unfold Crawl in He.
    destruct (NewParser startURL) as [parser|err]; [| discriminate].
    destruct (AddURL_chan (frontier c) startURL 0 Hopen Hlen) as (uf' & Ha' & _).
    rewrite Ha' in He.
    match type of He with
    | context [wg_Wait sched ?s0] => destruct (wg_Wait sched s0)
    end. discriminate.
Qed.

(** *** Each URL is fetched once *)

Lemma dequeued_snoc_dequeue (tr : list event) (i : nat) (url : string) :
  dequeued (tr ++ [EvDequeue i url]) = dequeued tr ++ [url].
Proof. unfold dequeued. by rewrite omap_app. Qed.

Lemma dequeued_snoc_fetch (tr : list event) (i : nat) (url : string) :
  dequeued (tr ++ [EvFetch i url]) = dequeued tr.
Proof. unfold dequeued. rewrite omap_app. simpl. by rewrite app_nil_r. Qed.

Lemma fetched_snoc_dequeue (tr : list event) (i : nat) (url : string) :
  fetched (tr ++ [EvDequeue i url]) = fetched tr.
Proof. unfold fetched. rewrite omap_app. simpl. by rewrite app_nil_r. Qed.

Lemma fetched_snoc_fetch (tr : list event) (i : nat) (url : string) :
  fetched (tr ++ [EvFetch i url]) = fetched tr ++ [url].
Proof. unfold fetched. by rewrite omap_app. Qed.

Lemma lookup_insert_goroutine (gs : list wstate) (i j : nat) (w w' : wstate) :
  <[i := w]> gs !! j = Some w' ->
  (j = i /\ w = w') \/ (j <> i /\ gs !! j = Some w').
Proof.
  intros [(-> & <- & _) | (Hne & Hj)]%list_lookup_insert_Some; auto.
Qed.

(** A goroutine moves to a point where it holds no URL to fetch. *)
Lemma once_inv_idle (s s' : pool) (i : nat) (w : wstate) :
  once_inv s ->
  frontier_inv (p_frontier s') (dequeued (trace s)) ->
  trace s' = trace s ->
  Chan.closed (results s') = false ->
  goroutines s' = <[i := w]> (goroutines s) ->
  is_Fetching w = false ->
  once_inv s'.
Proof.
  intros [Hf Hr Hn Hd Hfl Hone] Hf' Ht Hr' Hg Hw.
  split; rewrite ?Ht, ?Hg; auto.
  - intros j url d [(_ & ->) | (_ & Hj)]%lookup_insert_goroutine;
      [discriminate | eauto].
  - intros j k url d d' [(_ & ->) | (_ & Hj)]%lookup_insert_goroutine;
      [discriminate |].
    intros [(_ & ->) | (_ & Hk)]%lookup_insert_goroutine; [discriminate | eauto].
Qed.

(** [GetURL] hands a URL to goroutine [i], which fetches it or drops it. *)
Lemma once_inv_dequeue (s s' : pool) (i k : nat) (url : string) (w : wstate) :
  once_inv s ->
  frontier_inv (p_frontier s') (dequeued (trace s) ++ [url]) ->
  trace s' = trace s ++ [EvDequeue k url] ->
  Chan.closed (results s') = false ->
  goroutines s' = <[i := w]> (goroutines s) ->
  (forall u d, w = Fetching u d -> u = url) ->
  once_inv s'.
Proof.
  intros [Hf Hr Hn Hd Hfl Hone] Hf' Ht Hr' Hg Hw.
  assert (Hfresh : url ∉ dequeued (trace s)).
  { pose proof (inv_nodup _ _ Hf') as Hnd.
    rewrite <- app_assoc in Hnd. apply NoDup_app in Hnd as (_ & Hnd & _).
    intros Hin. apply (Hnd url Hin). by left. }
  split; rewrite ?Ht, ?Hg, ?dequeued_snoc_dequeue, ?fetched_snoc_dequeue; auto.
  - intros u Hu. apply elem_of_app. left. by apply Hd.
  - intros j u d [(_ & Hj) | (_ & Hj)]%lookup_insert_goroutine.
    + apply Hw in Hj as ->. split.
      * apply elem_of_app. right. by left.
      * intros Hin. by apply Hfresh, Hd.
    + destruct (Hfl _ _ _ Hj) as [Hin Hnf]. split; [| exact Hnf].
      apply elem_of_app. by left.
  - intros j1 j2 u d d' H1 H2.
    apply lookup_insert_goroutine in H1 as [(-> & H1) | (Hn1 & H1)];
      apply lookup_insert_goroutine in H2 as [(-> & H2) | (Hn2 & H2)].
    + reflexivity.
    + apply Hw in H1 as ->.
      destruct (Hfl _ _ _ H2) as [Hin _]. contradiction.
    + apply Hw in H2 as ->.
      destruct (Hfl _ _ _ H1) as [Hin _]. contradiction.
    + eauto.
Qed.

(** Goroutine [i] calls [Fetch] on the URL it holds. *)
Lemma once_inv_fetch (s s' : pool) (i k : nat) (url : string) (d : Z)
      (w : wstate) :
  once_inv s ->
  goroutines s !! i = Some (Fetching url d) ->
  p_frontier s' = p_frontier s ->
  trace s' = trace s ++ [EvFetch k url] ->
  Chan.closed (results s') = false ->
  goroutines s' = <[i := w]> (goroutines s) ->
  is_Fetching w = false ->
  once_inv s'.
Proof.
  intros [Hf Hr Hn Hd Hfl Hone] Hi Hf' Ht Hr' Hg Hw.
  destruct (Hfl _ _ _ Hi) as [Hin Hnf].
  split; rewrite ?Ht, ?Hg, ?Hf', ?dequeued_snoc_fetch, ?fetched_snoc_fetch; auto.
  - apply NoDup_app. split; [exact Hn |]. split; [| apply NoDup_singleton].
    intros u Hu Hu'. apply list_elem_of_singleton in Hu'. by subst u.
  - intros u [Hu | Hu]%elem_of_app; [by apply Hd |].
    apply list_elem_of_singleton in Hu. by subst u.
  - intros j u d' [(_ & ->) | (Hne & Hj)]%lookup_insert_goroutine;
      [discriminate |].
    destruct (Hfl _ _ _ Hj) as [Hin' Hnf']. split; [exact Hin' |].
    intros [Hu | Hu]%elem_of_app; [contradiction |].
    apply list_elem_of_singleton in Hu. subst u.
    apply Hne. eapply Hone; eauto.
  - intros j1 j2 u d1 d2 [(_ & ->) | (_ & H1)]%lookup_insert_goroutine;
      [discriminate |].
    intros [(_ & ->) | (_ & H2)]%lookup_insert_goroutine; [discriminate | eauto].
Qed.

Lemma is_Fetching_adding (result : CrawlResult) (links : list string) (d : Z) :
  is_Fetching (adding result links d) = false.
Proof. by destruct links. Qed.

Lemma step_once_inv (a : action) (s : pool) :
  once_inv s -> exists s', step a s = Returns s' /\ once_inv s'.
Proof.
  intros Hinv. pose proof Hinv as [Hf Hr Hn Hd Hfl Hone].
  destruct a as [i|]; simpl.
  - unfold worker_step.
    destruct (goroutines s !! i) as [w|] eqn:Hw; [| eauto].
    destruct w as [| | |url d|result links d|result|].
    + destruct (GetURL (p_frontier s)) as [[[url d] ok] uf] eqn:Hg.
      pose proof (GetURL_keeps _ _ Hf _ _ _ _ Hg) as [Hf' _ _].
      destruct ok; (eexists; split; [reflexivity |]).
      * eapply (once_inv_dequeue s _ i i url); eauto; try reflexivity.
        by intros u d' [= -> _].
      * eapply (once_inv_idle s _ i Waiting); eauto; reflexivity.
    + eexists; split; [reflexivity |].
      eapply (once_inv_idle s _ i Retrying); eauto; reflexivity.
    + destruct (GetURL (p_frontier s)) as [[[url d] ok] uf] eqn:Hg.
      pose proof (GetURL_keeps _ _ Hf _ _ _ _ Hg) as [Hf' _ _].
      destruct ok; (eexists; split; [reflexivity |]).
      * eapply (once_inv_dequeue s _ i i url); eauto; try reflexivity.
        intros u d'; discriminate.
      * eapply (once_inv_idle s _ i Exited); eauto; reflexivity.
    + destruct (Fetch (p_fetcher s) (p_clock s) url) as [[result f] now1].
      destruct (URLStatus_eqb (Status result) StatusFetched);
        (eexists; split; [reflexivity |]).
      * eapply (once_inv_fetch s _ i i url d); eauto; try reflexivity.
        apply is_Fetching_adding.
      * eapply (once_inv_fetch s _ i i url d); eauto; reflexivity.
    + destruct links as [|link rest].
      * eexists; split; [reflexivity |].
        eapply (once_inv_idle s _ i (Reporting result)); eauto; reflexivity.
      * destruct (AddURL_keeps _ _ link (wrap64 (d + 1)) Hf)
          as (uf & -> & [Hf' _ _]).
        eexists; split; [reflexivity |].
        eapply (once_inv_idle s _ i (adding result rest d)); eauto;
          try reflexivity.
        apply is_Fetching_adding.
    + unfold Chan.try_send. rewrite Hr.
      destruct (Chan.full (results s)); (eexists; split; [reflexivity |]).
      * eapply (once_inv_idle s _ i Polling); eauto; reflexivity.
      * eapply (once_inv_idle s _ i Polling); eauto; reflexivity.
    + eauto.
  - eexists; split; [reflexivity |]. unfold processResults_step.
    destruct (Chan.try_recv (results s)) as [v c| |] eqn:Hrecv; [| done ..].
    apply try_recv_bounded in Hrecv as (Hc & _ & _).
    split; simpl; auto. congruence.
Qed.

(** *** Each URL is reported once *)

Lemma Fetch_URL (f : Fetcher) (now : Z) (rawURL : string) :
  URL (Fetch f now rawURL).1.1 = rawURL.
Proof.
  rewrite Fetch_result. unfold classify.
  destruct (url_Parse rawURL) as [p|e]; [| reflexivity].
  destruct (http_NewRequest rawURL); [reflexivity |].
  destruct (client_Do rawURL) as [resp|e]; [| reflexivity].
  destruct ((resp_StatusCode resp >=? 300) && (resp_StatusCode resp <? 400));
    [reflexivity |].
  destruct (resp_ReadAll resp); reflexivity.
Qed.

(** A goroutine moves on with the result it held, or without one; nothing is
    sent. *)
Lemma report_inv_keep (s s' : pool) (i : nat) (w0 w : wstate) :
  report_inv s ->
  goroutines s !! i = Some w0 ->
  goroutines s' = <[i := w]> (goroutines s) ->
  reported s' = reported s ->
  (forall u, u ∈ fetched (trace s) -> u ∈ fetched (trace s')) ->
  held w = None \/ held w = held w0 ->
  report_inv s'.
Proof.
  intros [Hn Hf Hh Hone] Hi Hg Hrep Htr Hw.
  assert (Hold : forall j w' r, <[i := w]> (goroutines s) !! j = Some w' ->
                                held w' = Some r ->
                                exists w'', goroutines s !! j = Some w'' /\
                                            held w'' = Some r).
  { intros j w' r [(-> & <-) | (_ & Hj)]%lookup_insert_goroutine Hr; [| eauto].
    destruct Hw as [Hw | Hw]; [congruence |]. exists w0. split; congruence. }
  split; rewrite ?Hg, ?Hrep; auto.
  - intros j w' r Hj Hr. destruct (Hold _ _ _ Hj Hr) as (w'' & Hj' & Hr').
    destruct (Hh _ _ _ Hj' Hr') as [Hin Hnot]. auto.
  - intros j1 j2 w1 w2 r1 r2 H1 H2 Hr1 Hr2.
    destruct (Hold _ _ _ H1 Hr1) as (w1' & H1' & Hr1').
    destruct (Hold _ _ _ H2 Hr2) as (w2' & H2' & Hr2'). eauto.
Qed.

(** Goroutine [i] comes back from [Fetch] with a result for its URL. *)
Lemma report_inv_fetch (s s' : pool) (i k : nat) (url : string) (w : wstate)
      (result : CrawlResult) :
  report_inv s ->
  url ∉ fetched (trace s) ->
  goroutines s' = <[i := w]> (goroutines s) ->
  reported s' = reported s ->
  trace s' = trace s ++ [EvFetch k url] ->
  held w = Some result -> URL result = url ->
  report_inv s'.
Proof.
  intros [Hn Hf Hh Hone] Hfresh Hg Hrep Ht Hw Hu.
  assert (Hnew : url ∉ map URL (reported s)).
  { intros (r & -> & Hr)%list_elem_of_fmap. by apply Hfresh, Hf. }
  split; rewrite ?Hg, ?Hrep, ?Ht, ?fetched_snoc_fetch; auto.
  - intros r Hr. apply elem_of_app. left. by apply Hf.
  - intros j w' r [(-> & <-) | (_ & Hj)]%lookup_insert_goroutine Hr.
    + assert (r = result) as -> by congruence. rewrite Hu. split; [| exact Hnew].
      apply elem_of_app. right. by left.
    + destruct (Hh _ _ _ Hj Hr) as [Hin Hnot]. split; [| exact Hnot].
      apply elem_of_app. by left.
  - intros j1 j2 w1 w2 r1 r2 H1 H2 Hr1 Hr2 He.
    apply lookup_insert_goroutine in H1 as [(-> & <-) | (Hn1 & H1)];
      apply lookup_insert_goroutine in H2 as [(-> & <-) | (Hn2 & H2)].
    + reflexivity.
    + assert (r1 = result) as -> by congruence.
      destruct (Hh _ _ _ H2 Hr2) as [Hin _]. rewrite <- He, Hu in Hin.
      contradiction.
    + assert (r2 = result) as -> by congruence.
      destruct (Hh _ _ _ H1 Hr1) as [Hin _]. rewrite He, Hu in Hin.
      contradiction.
    + eauto.
Qed.

(** Goroutine [i] sends the result it holds. *)
Lemma report_inv_send (s s' : pool) (i : nat) (w0 w : wstate)
      (result : CrawlResult) :
  report_inv s ->
  goroutines s !! i = Some w0 -> held w0 = Some result ->
  goroutines s' = <[i := w]> (goroutines s) ->
  reported s' = reported s ++ [result] ->
  trace s' = trace s ->
  held w = None ->
  report_inv s'.
Proof.
  intros [Hn Hf Hh Hone] Hi Hr0 Hg Hrep Ht Hw.
  destruct (Hh _ _ _ Hi Hr0) as [Hin0 Hnot0].
  split; rewrite ?Hg, ?Hrep, ?Ht; auto.
  - rewrite map_app. apply NoDup_app. split; [exact Hn |].
    split; [| apply NoDup_singleton].
    intros u Hu Hu'. apply list_elem_of_singleton in Hu'. by subst u.
  - intros r [Hr | Hr]%elem_of_app; [by apply Hf |].
    apply list_elem_of_singleton in Hr. by subst r.
  - intros j w' r [(-> & <-) | (Hne & Hj)]%lookup_insert_goroutine Hr;
      [congruence |].
    destruct (Hh _ _ _ Hj Hr) as [Hin Hnot]. split; [exact Hin |].
    rewrite map_app. intros [Hu | Hu]%elem_of_app; [contradiction |].
    apply list_elem_of_singleton in Hu. apply Hne. eapply Hone; eauto.
  - intros j1 j2 w1 w2 r1 r2
           [(-> & <-) | (_ & H1)]%lookup_insert_goroutine; [congruence |].
    intros [(-> & <-) | (_ & H2)]%lookup_insert_goroutine; [congruence | eauto].
Qed.

Lemma step_report_inv (a : action) (s : pool) :
  once_inv s /\ report_inv s ->
  exists s', step a s = Returns s' /\ (once_inv s' /\ report_inv s').
Proof.
  intros [Honce Hrep].
  destruct (step_once_inv a s Honce) as (s' & Hstep & Honce').
  exists s'. split; [exact Hstep |]. split; [exact Honce' |].
  clear Honce'. revert Hstep. destruct a as [i|]; simpl.
  - unfold worker_step.
    destruct (goroutines s !! i) as [w|] eqn:Hw; [| by intros [= <-]].
    destruct w as [| | |url d|result links d|result|].
    + destruct (GetURL (p_frontier s)) as [[[url d] ok] uf].
      destruct ok; intros [= <-].
      * eapply (report_inv_keep s _ i Polling (Fetching url d)); eauto;
          try reflexivity.
        simpl. intros u Hu. by rewrite fetched_snoc_dequeue.
      * eapply (report_inv_keep s _ i Polling Waiting); eauto; reflexivity.
    + intros [= <-].
      eapply (report_inv_keep s _ i Waiting Retrying); eauto; reflexivity.
    + destruct (GetURL (p_frontier s)) as [[[url d] ok] uf].
      destruct ok; intros [= <-].
      * eapply (report_inv_keep s _ i Retrying Polling); eauto;
          try reflexivity.
        simpl. intros u Hu. by rewrite fetched_snoc_dequeue.
      * eapply (report_inv_keep s _ i Retrying Exited); eauto; reflexivity.
    + destruct (on_flight s Honce _ _ _ Hw) as [_ Hfresh].
      pose proof (Fetch_URL (p_fetcher s) (p_clock s) url) as Hu.
      destruct (Fetch (p_fetcher s) (p_clock s) url) as [[result f] now1].
      simpl in Hu.
      destruct (URLStatus_eqb (Status result) StatusFetched); intros [= <-].
      * eapply (report_inv_fetch s _ i i url _ (set_Links _ result)); eauto;
          try reflexivity.
        apply held_adding.
      * eapply (report_inv_fetch s _ i i url _ result); eauto; reflexivity.
    + destruct links as [|link rest].
      * intros [= <-].
        eapply (report_inv_keep s _ i _ (Reporting result)); eauto; reflexivity.
      * destruct (AddURL (p_frontier s) link (wrap64 (d + 1))) as [uf|msg uf];
          [| discriminate].
        intros [= <-].
        eapply (report_inv_keep s _ i _ (adding result rest d)); eauto;
          try reflexivity.
        right. by rewrite held_adding.
    + unfold Chan.try_send.
      destruct (Chan.closed (results s)); [discriminate |].
      destruct (Chan.full (results s)); intros [= <-].
      * eapply (report_inv_keep s _ i _ Polling); eauto; reflexivity.
      * eapply (report_inv_send s _ i _ Polling result); eauto; try reflexivity.
        unfold reported. simpl. by rewrite app_assoc.
    + by intros [= <-].
  - intros [= <-]. unfold processResults_step.
    destruct (Chan.try_recv (results s)) as [v c| |] eqn:Hrecv; [| done ..].
    apply try_recv_bounded in Hrecv as (_ & _ & Hb).
    assert (Hsame : reported (add_indexed v (set_results c s)) = reported s).
    { unfold reported. simpl. rewrite Hb, <- app_assoc. reflexivity. }
    destruct Hrep as [Hn Hf Hh Hone]. split; rewrite ?Hsame; auto.
Qed.

(** *** Depths *)

Lemma GetURL_depths (uf uf' : URLFrontier) (got : list string) (url : string)
      (d : Z) (ok : bool) :
  frontier_inv uf got ->
  GetURL uf = ((url, d, ok), uf') ->
  visited uf' = visited uf /\ depth uf' = depth uf /\
  maxDepth uf' = maxDepth uf /\
  (ok = true -> is_visited uf url = true /\ d = depth_of uf url).
Proof.
  intros [Hopen _ Hvis]. unfold GetURL, Chan.try_recv.
  destruct (Chan.buf (urls uf)) as [|v rest] eqn:Hb.
  - rewrite Hopen. intros [= <- <- <- <-]. repeat split; discriminate.
  - intros [= <- <- <- <-]. repeat split.
    apply Hvis, elem_of_app. right. unfold pending. rewrite Hb. by left.
Qed.

Lemma AddURL_depths (uf uf' : URLFrontier) (rawURL : string) (d md : Z) :
  maxDepth uf = md ->
  (forall url, is_visited uf url = true -> 0 <= depth_of uf url < md) ->
  0 <= d ->
  AddURL uf rawURL d = Returns uf' ->
  maxDepth uf' = md /\
  (forall url, is_visited uf' url = true -> 0 <= depth_of uf' url < md).
Proof.
  intros Hmd Hvis Hd. unfold AddURL.
  destruct (url_Parse rawURL) as [p|e]; [| by intros [= <-]].
  destruct (is_visited uf (URL_String p)) eqn:Hv; simpl; [by intros [= <-] |].
  destruct (d >=? maxDepth uf) eqn:Hge; [by intros [= <-] |].
  assert (Hlt : d < md).
  { rewrite Z.geb_leb in Hge. apply Z.leb_gt in Hge. lia. }
  assert (Hins : forall c url,
             is_visited {| urls := c; visited := <[URL_String p := true]> (visited uf);
                           maxDepth := maxDepth uf;
                           depth := <[URL_String p := d]> (depth uf) |} url = true ->
             0 <= depth_of {| urls := c;
                              visited := <[URL_String p := true]> (visited uf);
                              maxDepth := maxDepth uf;
                              depth := <[URL_String p := d]> (depth uf) |} url < md).
  { intros c url. unfold is_visited, depth_of. simpl.
    destruct (decide (URL_String p = url)) as [<- | Hne].
    - rewrite !lookup_insert_eq. simpl. lia.
    - rewrite !lookup_insert_ne by done. apply Hvis. }
  destruct (Chan.try_send _ _) as [c| |]; [| | discriminate];
    intros [= <-]; split; auto; apply Hins.
Qed.

Lemma depth_inv_update (md : Z) (s s' : pool) (i : nat) (w : wstate) :
  depth_inv md s ->
  maxDepth (p_frontier s') = md ->
  (forall url, is_visited (p_frontier s') url = true ->
               0 <= depth_of (p_frontier s') url < md) ->
  goroutines s' = <[i := w]> (goroutines s) ->
  (forall u d, w = Fetching u d -> 0 <= d < md) ->
  (forall r l d, w = Adding r l d -> 0 <= d < md) ->
  depth_inv md s'.
Proof.
  intros [Hmd Hvis Hf Ha] Hmd' Hvis' Hg Hwf Hwa. split; rewrite ?Hg; auto.
  - intros j u d [(_ & ->) | (_ & Hj)]%lookup_insert_goroutine; eauto.
  - intros j r l d [(_ & ->) | (_ & Hj)]%lookup_insert_goroutine; eauto.
Qed.

Lemma adding_depth (result r : CrawlResult) (links l : list string) (d d' : Z) :
  adding result links d = Adding r l d' -> d' = d.
Proof. destruct links; simpl; congruence. Qed.

Lemma wrap64_succ (d md : Z) : 0 <= d < md -> md < 2 ^ 63 -> wrap64 (d + 1) = d + 1.
Proof.
  intros Hd Hmd. unfold wrap64.
  rewrite Z.mod_small by lia. lia.
Qed.

Lemma step_depth_inv (md : Z) (a : action) (s : pool) :
  md < 2 ^ 63 ->
  once_inv s /\ depth_inv md s ->
  exists s', step a s = Returns s' /\ (once_inv s' /\ depth_inv md s').
Proof.
  intros Hmd [Honce Hdep].
  destruct (step_once_inv a s Honce) as (s' & Hstep & Honce').
  exists s'. split; [exact Hstep |]. split; [exact Honce' |].
  clear Honce'. revert Hstep. pose proof Hdep as [Hm Hvis Hf Ha].
  pose proof (on_frontier s Honce) as Hfi.
  destruct a as [i|]; simpl.
  - unfold worker_step.
    destruct (goroutines s !! i) as [w|] eqn:Hw; [| by intros [= <-]].
    destruct w as [| | |url d|result links d|result|].
    + destruct (GetURL (p_frontier s)) as [[[url d] ok] uf] eqn:Hg.
      destruct (GetURL_depths _ _ _ _ _ _ Hfi Hg) as (Hv & Hd & Hmx & Hok).
      assert (Hvis' : forall u, is_visited uf u = true -> 0 <= depth_of uf u < md).
      { intros u. unfold is_visited, depth_of. rewrite Hv, Hd. apply Hvis. }
      destruct ok; intros [= <-].
      * destruct (Hok eq_refl) as [Hvu ->].
        eapply (depth_inv_update md s _ i (Fetching url _)); eauto;
          try reflexivity; simpl; try congruence.
        intros u d' [= -> <-]. by apply Hvis.
      * eapply (depth_inv_update md s _ i Waiting); eauto;
          try reflexivity; simpl; congruence.
    + intros [= <-].
      eapply (depth_inv_update md s _ i Retrying); eauto;
        try reflexivity; simpl; congruence.
    + destruct (GetURL (p_frontier s)) as [[[url d] ok] uf] eqn:Hg.
      destruct (GetURL_depths _ _ _ _ _ _ Hfi Hg) as (Hv & Hd & Hmx & Hok).
      assert (Hvis' : forall u, is_visited uf u = true -> 0 <= depth_of uf u < md).
      { intros u. unfold is_visited, depth_of. rewrite Hv, Hd. apply Hvis. }
      destruct ok; intros [= <-].
      * eapply (depth_inv_update md s _ i Polling); eauto;
          try reflexivity; simpl; congruence.
      * eapply (depth_inv_update md s _ i Exited); eauto;
          try reflexivity; simpl; congruence.
    + destruct (Fetch (p_fetcher s) (p_clock s) url) as [[result f] now1].
      destruct (URLStatus_eqb (Status result) StatusFetched); intros [= <-].
      * eapply (depth_inv_update md s _ i (adding _ _ d)); eauto;
          try reflexivity.
        -- intros u d' Hx. pose proof (is_Fetching_adding
             (set_Links (Parser_Parse (p_parser s) (Content result) url) result)
             (Parser_Parse (p_parser s) (Content result) url) d) as Hn.
           simpl in Hx. rewrite Hx in Hn. discriminate.
        -- intros r l d' ->%adding_depth. eauto.
      * eapply (depth_inv_update md s _ i (Reporting result)); eauto;
          try reflexivity; simpl; congruence.
    + destruct links as [|link rest].
      * intros [= <-].
        eapply (depth_inv_update md s _ i (Reporting result)); eauto;
          try reflexivity; simpl; congruence.
      * pose proof (Ha _ _ _ _ Hw) as Hd.
        rewrite (wrap64_succ d md Hd Hmd).
        destruct (AddURL (p_frontier s) link (d + 1)) as [uf|msg uf] eqn:Hadd;
          [| discriminate].
        intros [= <-].
        assert (Hd1 : 0 <= d + 1) by lia.
        destruct (AddURL_depths _ _ _ _ md Hm Hvis Hd1 Hadd) as [Hmx Hvis'].
        eapply (depth_inv_update md s _ i (adding result rest d)); eauto;
          try reflexivity.
        -- intros u d' Hx. pose proof (is_Fetching_adding result rest d) as Hn.
           rewrite Hx in Hn. discriminate.
        -- intros r l d' ->%adding_depth. exact Hd.
    + unfold Chan.try_send.
      destruct (Chan.closed (results s)); [discriminate |].
      destruct (Chan.full (results s)); intros [= <-];
        eapply (depth_inv_update md s _ i Polling); eauto;
        try reflexivity; simpl; congruence.
    + by intros [= <-].
  - intros [= <-]. unfold processResults_step.
    destruct (Chan.try_recv (results s)) as [v c| |]; [| done ..].
    split; simpl; auto.
Qed.

(** *** Where a crawl starts *)

Lemma once_inv_start (c : Crawler) (now : Z) (startURL : string)
      (parser : Parser) (uf : URLFrontier) :
  frontier_inv (frontier c) [] ->
  AddURL (frontier c) startURL 0 = Returns uf ->
  once_inv {| p_frontier := uf; p_fetcher := fetcher c; p_parser := parser;
              p_clock := now; results := Chan.make 100;
              goroutines := replicate (Z.to_nat (workers c)) Polling;
              indexed := []; trace := [] |}.
Proof.
  intros Hf Ha.
  destruct (AddURL_keeps _ _ startURL 0 Hf) as (uf' & Ha' & [Hf' _ _]).
  rewrite Ha in Ha'. injection Ha' as <-.
  split; simpl; auto.
  - constructor.
  - intros i u d [Hi _]%lookup_replicate. discriminate.
  - intros i j u d d' [Hi _]%lookup_replicate. discriminate.
Qed.

Lemma report_inv_start (uf : URLFrontier) (f : Fetcher) (parser : Parser)
      (now : Z) (n : nat) :
  report_inv {| p_frontier := uf; p_fetcher := f; p_parser := parser;
                p_clock := now; results := Chan.make 100;
                goroutines := replicate n Polling;
                indexed := []; trace := [] |}.
Proof.
  split; simpl.
  - constructor.
  - intros r Hr. inversion Hr.
  - intros i w r [-> _]%lookup_replicate. discriminate.
  - intros i j w w' r r' [-> _]%lookup_replicate. discriminate.
Qed.

Lemma depth_inv_start (c : Crawler) (now : Z) (startURL : string)
      (parser : Parser) (uf : URLFrontier) :
  (forall url, is_visited (frontier c) url = true ->
               0 <= depth_of (frontier c) url < maxDepth (frontier c)) ->
  AddURL (frontier c) startURL 0 = Returns uf ->
  depth_inv (maxDepth (frontier c))
            {| p_frontier := uf; p_fetcher := fetcher c; p_parser := parser;
               p_clock := now; results := Chan.make 100;
               goroutines := replicate (Z.to_nat (workers c)) Polling;
               indexed := []; trace := [] |}.
Proof.
  intros Hvis Ha.
  destruct (AddURL_depths _ _ _ _ _ eq_refl Hvis (Z.le_refl 0) Ha) as [Hm Hvis'].
  split; simpl; auto.
  - intros i u d [Hi _]%lookup_replicate. discriminate.
  - intros i r l d [Hi _]%lookup_replicate. discriminate.
Qed.

Lemma trace_nil (tr : list event) : dequeued tr = [] -> fetched tr = [] -> tr = [].
Proof.
  destruct tr as [|[i u|i u] tr]; [reflexivity | discriminate |].
  intros _. discriminate.
Qed.

(** X7. No URL is fetched twice.  From a crawler whose frontier is in order
    (queue open, pending URLs distinct and marked visited), in every crawl
    and under every schedule: [GetURL] hands out each URL at most once,
    [Fetch] is called on each URL at most once, only on URLs that [GetURL]
    handed out, and every URL handed out is marked visited in the frontier. *)
Theorem Crawl_fetches_each_url_once (c : Crawler) (now : Z) (startURL : string)
        (sched : list action) (e : crawl_end) (s : pool) :
  frontier_inv (frontier c) [] ->
  Crawl c now startURL sched = (e, Some s) ->
  NoDup (dequeued (trace s)) /\
  NoDup (fetched (trace s)) /\
  (forall url, url ∈ fetched (trace s) -> url ∈ dequeued (trace s)) /\
  (forall url, url ∈ dequeued (trace s) -> is_visited (p_frontier s) url = true).
Proof.
  intros Hf He.
  destruct (Crawl_invariant once_inv step_once_inv c now startURL sched)
    with (e := e) (s := s) as (s' & [Hfi Hr Hn Hd Hfl Hone] & Hend);
    [| exact He |].
  { intros parser uf _ Ha. by eapply once_inv_start. }
  assert (Hs : trace s = trace s' /\ p_frontier s = p_frontier s').
  { destruct Hend as [[_ ->] | [_ ->]]; auto. }
  destruct Hs as [-> ->]. destruct Hfi as [_ Hnd Hvis].
  repeat split; auto.
  - by apply NoDup_app in Hnd as (Hnd & _).
  - intros url Hu. apply Hvis, elem_of_app. by left.
Qed.

(** X8. No URL is reported twice.  Under the same condition, the results that
    reached the indexer or wait in the results channel have distinct URLs,
    and each of them is the result of a fetch the crawl made: there are never
    more results than fetches. *)
Theorem Crawl_reports_each_url_once (c : Crawler) (now : Z) (startURL : string)
        (sched : list action) (e : crawl_end) (s : pool) :
  frontier_inv (frontier c) [] ->
  Crawl c now startURL sched = (e, Some s) ->
  NoDup (map URL (indexed s ++ Chan.buf (results s))) /\
  (forall r, r ∈ indexed s ++ Chan.buf (results s) -> URL r ∈ fetched (trace s)) /\
  (length (indexed s ++ Chan.buf (results s)) <= length (fetched (trace s)))%nat.
Proof.
  intros Hf He.
  destruct (Crawl_invariant (fun s => once_inv s /\ report_inv s) step_report_inv
              c now startURL sched)
    with (e := e) (s := s) as (s' & [_ [Hn Hfe _ _]] & Hend);
    [| exact He |].
  { intros parser uf _ Ha. split; [by eapply once_inv_start |].
    apply report_inv_start. }
  assert (Hs : trace s = trace s' /\ indexed s = indexed s' /\
               Chan.buf (results s) = Chan.buf (results s')).
  { destruct Hend as [[_ ->] | [_ ->]]; auto. }
  destruct Hs as (-> & -> & ->). fold (reported s').
  repeat split; auto.
  rewrite <- (length_map URL). apply submseteq_length, NoDup_submseteq; [exact Hn |].
  intros u (r & -> & Hr)%list_elem_of_fmap. by apply Hfe.
Qed.

(** X9. Nothing is fetched at depth [maxDepth] or beyond.  From a crawler
    whose frontier is in order, with [maxDepth] an [int] and the depths it
    has recorded in [0, maxDepth), in every crawl and under every schedule:
    [maxDepth] is not changed, every URL that [GetURL] handed out (so every
    URL fetched) has a recorded depth in [0, maxDepth), and the [depth+1] of
    the worker never wraps around.  With [maxDepth <= 0] the crawl hands out
    and fetches nothing at all. *)
Theorem Crawl_depth_bound (c : Crawler) (now : Z) (startURL : string)
        (sched : list action) (e : crawl_end) (s : pool) :
  maxDepth (frontier c) < 2 ^ 63 ->
  frontier_inv (frontier c) [] ->
  (forall url, is_visited (frontier c) url = true ->
               0 <= depth_of (frontier c) url < maxDepth (frontier c)) ->
  Crawl c now startURL sched = (e, Some s) ->
  maxDepth (p_frontier s) = maxDepth (frontier c) /\
  (forall url, url ∈ dequeued (trace s) ->
               0 <= depth_of (p_frontier s) url < maxDepth (frontier c)) /\
  (forall i result links d,
      goroutines s !! i = Some (Adding result links d) ->
      wrap64 (d + 1) = d + 1 /\ d + 1 <= maxDepth (frontier c)) /\
  (maxDepth (frontier c) <= 0 -> trace s = []).
Proof.
  intros Hmd Hf Hvis He.
  destruct (Crawl_invariant
              (fun s => once_inv s /\ depth_inv (maxDepth (frontier c)) s)
              (fun a s => step_depth_inv (maxDepth (frontier c)) a s Hmd)
              c now startURL sched)
    with (e := e) (s := s)
    as (s' & [[Hfi Hr Hn Hd Hfl Hone] [Hm Hv Hdf Hda]] & Hend);
    [| exact He |].
  { intros parser uf _ Ha. split; [by eapply once_inv_start |].
    by eapply depth_inv_start. }
  assert (Hs : trace s = trace s' /\ p_frontier s = p_frontier s' /\
               goroutines s = goroutines s').
  { destruct Hend as [[_ ->] | [_ ->]]; auto. }
  destruct Hs as (-> & -> & ->).
  assert (Hdeq : forall url, url ∈ dequeued (trace s') ->
                 0 <= depth_of (p_frontier s') url < maxDepth (frontier c)).
  { intros url Hu. apply Hv. destruct Hfi as [_ _ Hvi].
    apply Hvi, elem_of_app. by left. }
  split; [exact Hm |]. split; [exact Hdeq |]. split.
  - intros i result links d Hi. apply Hda in Hi. split; [| lia].
    by apply (wrap64_succ d (maxDepth (frontier c))).
  - intros Hle.
    assert (Hnone : dequeued (trace s') = []).
    { destruct (dequeued (trace s')) as [|u l] eqn:Hq; [reflexivity |].
      assert (Hu : u ∈ dequeued (trace s')) by (rewrite Hq; by left).
      rewrite <- Hq in Hdeq. apply Hdeq in Hu. lia. }
    apply trace_nil; [exact Hnone |].
    destruct (fetched (trace s')) as [|u l] eqn:Hq; [reflexivity |].
    assert (Hu : u ∈ dequeued (trace s')) by (apply Hd; by left).
    rewrite Hnone in Hu. inversion Hu.
Qed.

(** With a start URL that parses and an open queue, the workers are
    started. *)
Lemma Crawl_starts (c : Crawler) (now : Z) (startURL : string)
      (sched : list action) (parser : Parser) :
  NewParser startURL = Ok parser ->
  Chan.closed (urls (frontier c)) = false ->
  exists e s, Crawl c now startURL sched = (e, Some s).
Proof.
  intros Hp Hopen. unfold Crawl. rewrite Hp.
  assert (Ha : exists uf, AddURL (frontier c) startURL 0 = Returns uf).
  { unfold AddURL. destruct (url_Parse startURL) as [p|err]; [| eauto].
    destruct (is_visited (frontier c) (URL_String p) || (0 >=? maxDepth (frontier c)));
      [eauto |].
    unfold Chan.try_send. cbn [urls]. rewrite Hopen.
    destruct (Chan.full (urls (frontier c))); eauto. }
  destruct Ha as [uf ->].
  match goal with
  | |- context [wg_Wait sched ?s0] => destruct (wg_Wait sched s0) as [e s]
  end. eauto.
Qed.

End CrawlRuns.

(** ** The invariants of a crawl on a concrete web *)

Section CrawlRunsExamples.
Import World.

Lemma Crawl_never_panics_witness :
  (forall msg,
     (Crawl (net_http := site) (NewCrawler 2 2 1000000000) 0
            "http://a.test/" overlap).1 <> CrawlPanics msg) /\
  (forall e s,
     Crawl (net_http := site) (NewCrawler 2 2 1000000000) 0
           "http://a.test/" overlap = (e, Some s) ->
     (e = CrawlBlocked \/ e = CrawlReturns None) /\
     Chan.closed (results s) = (if e is CrawlBlocked then false else true) /\
     Chan.closed (urls (p_frontier s)) = false /\
     (length (pending (p_frontier s)) <= 1000)%nat /\
     (length (Chan.buf (results s)) <= 100)%nat).
Proof.
  apply (Crawl_never_panics (net_url := url_lib) (net_http := site)
                            (NewCrawler 2 2 1000000000) 0 "http://a.test/" overlap).
  - reflexivity.
  - simpl. lia.
Defined.

Lemma Crawl_fetches_each_url_once_witness :
  exists e s,
    Crawl (net_http := site) (NewCrawler 2 2 1000000000) 0 "http://a.test/" overlap
    = (e, Some s) /\
    NoDup (dequeued (trace s)) /\
    NoDup (fetched (trace s)) /\
    (forall url, url ∈ fetched (trace s) -> url ∈ dequeued (trace s)) /\
    (forall url, url ∈ dequeued (trace s) -> is_visited (p_frontier s) url = true).
Proof.
  destruct (Crawl_starts (net_url := url_lib) (net_http := site)
              (NewCrawler 2 2 1000000000) 0 "http://a.test/" overlap
              (MkParser (net_url := url_lib) "http://a.test/") eq_refl eq_refl)
    as (e & s & He).
  exists e, s. split; [exact He |].
  apply (Crawl_fetches_each_url_once (net_url := url_lib) (net_http := site)
           (NewCrawler 2 2 1000000000) 0 "http://a.test/" overlap e s);
    [apply frontier_inv_new | exact He].
Defined.

Lemma Crawl_reports_each_url_once_witness :
  exists e s,
    Crawl (net_http := site) (NewCrawler 2 2 1000000000) 0 "http://a.test/" overlap
    = (e, Some s) /\
    NoDup (map URL (indexed s ++ Chan.buf (results s))) /\
    (forall r, r ∈ indexed s ++ Chan.buf (results s) -> URL r ∈ fetched (trace s)) /\
    (length (indexed s ++ Chan.buf (results s)) <= length (fetched (trace s)))%nat.
Proof.
  destruct (Crawl_starts (net_url := url_lib) (net_http := site)
              (NewCrawler 2 2 1000000000) 0 "http://a.test/" overlap
              (MkParser (net_url := url_lib) "http://a.test/") eq_refl eq_refl)
    as (e & s & He).
  exists e, s. split; [exact He |].
  apply (Crawl_reports_each_url_once (net_url := url_lib) (net_http := site)
           (NewCrawler 2 2 1000000000) 0 "http://a.test/" overlap e s);
    [apply frontier_inv_new | exact He].
Defined.

Lemma Crawl_depth_bound_witness :
  exists e s,
    Crawl (net_http := site) (NewCrawler 2 2 1000000000) 0 "http://a.test/" overlap
    = (e, Some s) /\
    maxDepth (p_frontier s) = 2 /\
    (forall url, url ∈ dequeued (trace s) -> 0 <= depth_of (p_frontier s) url < 2) /\
    (forall i result links d,
        goroutines s !! i = Some (Adding result links d) ->
        wrap64 (d + 1) = d + 1 /\ d + 1 <= 2) /\
    (2 <= 0 -> trace s = []).
Proof.
  destruct (Crawl_starts (net_url := url_lib) (net_http := site)
              (NewCrawler 2 2 1000000000) 0 "http://a.test/" overlap
              (MkParser (net_url := url_lib) "http://a.test/") eq_refl eq_refl)
    as (e & s & He).
  exists e, s. split; [exact He |].
  apply (Crawl_depth_bound (net_url := url_lib) (net_http := site)
           (NewCrawler 2 2 1000000000) 0 "http://a.test/" overlap e s).
  - reflexivity.
  - apply frontier_inv_new.
  - intros url Hv. discriminate.
  - exact He.
Defined.

End CrawlRunsExamples.

(** ** The worker pool: where the URLs of a crawl come from *)

Section CrawlProvenance.
Context {net_url : UrlLib} {net_http : HttpLib} {x_html : HtmlLib}.

Lemma AddURL_visited (uf uf' : URLFrontier) (rawURL : string) (d : Z) :
  AddURL uf rawURL d = Returns uf' ->
  (forall v, is_visited uf v = true ->
             is_visited uf' v = true /\ depth_of uf' v = depth_of uf v) /\
  (forall v, is_visited uf' v = true ->
             is_visited uf v = true \/
             (normalize rawURL = Some v /\ depth_of uf' v = d)).
Proof.
  unfold AddURL, normalize.
  destruct (url_Parse rawURL) as [p|e]; [| intros [= <-]; auto].
  destruct (is_visited uf (URL_String p)) eqn:Hv; simpl; [intros [= <-]; auto |].
  destruct (d >=? maxDepth uf); [intros [= <-]; auto |].
  assert (Hins : forall c,
    (forall v, is_visited uf v = true ->
       is_visited {| urls := c; visited := <[URL_String p := true]> (visited uf);
                     maxDepth := maxDepth uf;
                     depth := <[URL_String p := d]> (depth uf) |} v = true /\
       depth_of {| urls := c; visited := <[URL_String p := true]> (visited uf);
                   maxDepth := maxDepth uf;
                   depth := <[URL_String p := d]> (depth uf) |} v = depth_of uf v) /\
    (forall v,
       is_visited {| urls := c; visited := <[URL_String p := true]> (visited uf);
                     maxDepth := maxDepth uf;
                     depth := <[URL_String p := d]> (depth uf) |} v = true ->
       is_visited uf v = true \/
       (Some (URL_String p) = Some v /\
        depth_of {| urls := c; visited := <[URL_String p := true]> (visited uf);
                    maxDepth := maxDepth uf;
                    depth := <[URL_String p := d]> (depth uf) |} v = d))).
  { intros c. split; intros v; unfold is_visited, depth_of in *; simpl;
      destruct (decide (URL_String p = v)) as [<- | Hne];
      rewrite ?lookup_insert_eq, ?lookup_insert_ne by done; simpl; auto.
    congruence. }
  destruct (Chan.try_send _ _) as [c| |]; [| | discriminate];
    intros [= <-]; apply Hins.
Qed.

Lemma adding_inv (result r : CrawlResult) (links l : list string) (d d' : Z) :
  adding result links d = Adding r l d' -> r = result /\ l = links /\ d' = d.
Proof. destruct links; simpl; [discriminate |]. by intros [= <- <- <-]. Qed.

(** A step that leaves the visited set and the recorded depths alone. *)
Lemma prov_inv_update (startURL : string) (parser : Parser) (s s' : pool)
      (i : nat) (w : wstate) :
  prov_inv startURL parser s ->
  p_parser s' = p_parser s ->
  visited (p_frontier s') = visited (p_frontier s) ->
  depth (p_frontier s') = depth (p_frontier s) ->
  (forall u, u ∈ fetched (trace s) -> u ∈ fetched (trace s')) ->
  goroutines s' = <[i := w]> (goroutines s) ->
  (forall u d, w = Fetching u d -> d = depth_of (p_frontier s) u) ->
  (forall r l d, w = Adding r l d ->
     exists u, u ∈ fetched (trace s') /\ d = depth_of (p_frontier s) u /\
               forall l0, l0 ∈ l -> l0 ∈ page_links parser u) ->
  prov_inv startURL parser s'.
Proof.
  intros [Hp Hv Hf Ha] Hp' Hvis Hdep Htr Hg Hwf Hwa.
  assert (Hiv : forall v, is_visited (p_frontier s') v = is_visited (p_frontier s) v).
  { intros v. unfold is_visited. by rewrite Hvis. }
  assert (Hdv : forall v, depth_of (p_frontier s') v = depth_of (p_frontier s) v).
  { intros v. unfold depth_of. by rewrite Hdep. }
  split.
  - congruence.
  - intros v. rewrite Hiv, !Hdv. intros Hvv.
    destruct (Hv v Hvv) as [? | (u & l & Hu & Hl & Hn & Hd)]; [by left |].
    right. exists u, l. rewrite Hdv. auto.
  - rewrite Hg. intros j u d [(_ & ->) | (_ & Hj)]%lookup_insert_goroutine;
      rewrite Hdv; eauto.
  - rewrite Hg. intros j r l d [(_ & ->) | (_ & Hj)]%lookup_insert_goroutine.
    + destruct (Hwa _ _ _ eq_refl) as (u & Hu & -> & Hl).
      exists u. by rewrite Hdv.
    + destruct (Ha _ _ _ _ Hj) as (u & Hu & -> & Hl).
      exists u. rewrite Hdv. auto.
Qed.

Lemma once_inv_fetched_visited (s : pool) (u : string) :
  once_inv s -> u ∈ fetched (trace s) -> is_visited (p_frontier s) u = true.
Proof.
  intros [[_ _ Hvis] _ _ Hd _ _] Hu. apply Hvis, elem_of_app. left. by apply Hd.
Qed.

Lemma step_prov_inv (md : Z) (startURL : string) (parser : Parser)
      (a : action) (s : pool) :
  md < 2 ^ 63 ->
  (once_inv s /\ depth_inv md s) /\ prov_inv startURL parser s ->
  exists s', step a s = Returns s' /\
             ((once_inv s' /\ depth_inv md s') /\ prov_inv startURL parser s').
Proof.
  intros Hmd [[Honce Hdep] Hprov].
  destruct (step_depth_inv md a s Hmd (conj Honce Hdep)) as (s' & Hstep & Hinv').
  exists s'. split; [exact Hstep |]. split; [exact Hinv' |].
  clear Hinv'. revert Hstep. pose proof Hprov as [Hp Hv Hf Ha].
  pose proof (on_frontier s Honce) as Hfi.
  destruct a as [i|]; simpl.
  - unfold worker_step.
    destruct (goroutines s !! i) as [w|] eqn:Hw; [| by intros [= <-]].
    destruct w as [| | |url d|result links d|result|].
    + destruct (GetURL (p_frontier s)) as [[[url d] ok] uf] eqn:Hg.
      destruct (GetURL_depths _ _ _ _ _ _ Hfi Hg) as (Hvi & Hd & _ & Hok).
      destruct ok; intros [= <-].
      * destruct (Hok eq_refl) as [_ ->].
        eapply (prov_inv_update _ _ s _ i (Fetching url _)); eauto;
          try reflexivity; simpl.
        -- intros u Hu. by rewrite fetched_snoc_dequeue.
        -- by intros u d' [= -> <-].
        -- discriminate.
      * eapply (prov_inv_update _ _ s _ i Waiting); eauto;
          try reflexivity; simpl; discriminate.
    + intros [= <-].
      eapply (prov_inv_update _ _ s _ i Retrying); eauto;
        try reflexivity; simpl; discriminate.
    + destruct (GetURL (p_frontier s)) as [[[url d] ok] uf] eqn:Hg.
      destruct (GetURL_depths _ _ _ _ _ _ Hfi Hg) as (Hvi & Hd & _ & Hok).
      destruct ok; intros [= <-].
      * eapply (prov_inv_update _ _ s _ i Polling); eauto;
          try reflexivity; simpl; try discriminate.
        intros u Hu. by rewrite fetched_snoc_dequeue.
      * eapply (prov_inv_update _ _ s _ i Exited); eauto;
          try reflexivity; simpl; discriminate.
    + pose proof (Fetch_result (p_fetcher s) (p_clock s) url) as Hres.
      destruct (Fetch (p_fetcher s) (p_clock s) url) as [[result f] now1].
      simpl in Hres.
      destruct (URLStatus_eqb (Status result) StatusFetched) eqn:Hst;
        intros [= <-].
      * eapply (prov_inv_update _ _ s _ i (adding _ _ d)); eauto;
          try reflexivity; simpl.
        -- intros u Hu. rewrite fetched_snoc_fetch. apply elem_of_app. by left.
        -- intros u d' Hx. pose proof (is_Fetching_adding
             (set_Links (Parser_Parse (p_parser s) (Content result) url) result)
             (Parser_Parse (p_parser s) (Content result) url) d) as Hn.
           rewrite Hx in Hn. discriminate.
        -- intros r l d' (-> & -> & ->)%adding_inv.
           exists url. rewrite fetched_snoc_fetch. split; [| split].
           ++ apply elem_of_app. right. by left.
           ++ eauto.
           ++ intros l0. unfold page_links. rewrite <- Hres, Hst, Hp. auto.
      * eapply (prov_inv_update _ _ s _ i (Reporting result)); eauto;
          try reflexivity; simpl; try discriminate.
        intros u Hu. rewrite fetched_snoc_fetch. apply elem_of_app. by left.
    + destruct links as [|link rest].
      * intros [= <-].
        eapply (prov_inv_update _ _ s _ i (Reporting result)); eauto;
          try reflexivity; simpl; discriminate.
      * pose proof (dp_adding md s Hdep _ _ _ _ Hw) as Hd.
        rewrite (wrap64_succ d md Hd Hmd).
        destruct (Ha _ _ _ _ Hw) as (u & Hu & Hdu & Hl).
        pose proof (once_inv_fetched_visited s u Honce Hu) as Huv.
        destruct (AddURL (p_frontier s) link (d + 1)) as [uf|msg uf] eqn:Hadd;
          [| discriminate].
        intros [= <-].
        destruct (AddURL_visited _ _ _ _ Hadd) as [Hold Hnew].
        split; simpl.
        -- exact Hp.
        -- intros v Hvv. destruct (Hnew v Hvv) as [Hvo | [Hn Hdv]].
           ++ destruct (Hold v Hvo) as [_ Hdv]. rewrite Hdv.
              destruct (Hv v Hvo) as [? | (u' & l & Hu' & Hl' & Hn & Hd')];
                [by left |].
              right. exists u', l. repeat split; auto.
              pose proof (once_inv_fetched_visited s u' Honce Hu') as Hu'v.
              destruct (Hold u' Hu'v) as [_ ->]. exact Hd'.
           ++ right. exists u, link. repeat split; auto.
              ** apply Hl. by left.
              ** destruct (Hold u Huv) as [_ ->]. lia.
        -- intros j u' d' [(_ & Hx) | (_ & Hj)]%lookup_insert_goroutine.
           ++ pose proof (is_Fetching_adding result rest d) as Hn.
              rewrite Hx in Hn. discriminate.
           ++ pose proof (on_flight s Honce _ _ _ Hj) as [Hin _].
              assert (Hvj : is_visited (p_frontier s) u' = true).
              { destruct Hfi as [_ _ Hvis]. apply Hvis, elem_of_app. by left. }
              destruct (Hold u' Hvj) as [_ ->]. eauto.
        -- intros j r l d' [(_ & Hx) | (_ & Hj)]%lookup_insert_goroutine.
           ++ apply adding_inv in Hx as (-> & -> & ->).
              exists u. destruct (Hold u Huv) as [_ ->].
              repeat split; auto. intros l0 Hl0. apply Hl. by right.
           ++ destruct (Ha _ _ _ _ Hj) as (u' & Hu' & Hdu' & Hl').
              pose proof (once_inv_fetched_visited s u' Honce Hu') as Hu'v.
              exists u'. destruct (Hold u' Hu'v) as [_ ->]. auto.
    + unfold Chan.try_send.
      destruct (Chan.closed (results s)); [discriminate |].
      destruct (Chan.full (results s)); intros [= <-];
        eapply (prov_inv_update _ _ s _ i Polling); eauto;
        try reflexivity; simpl; discriminate.
    + by intros [= <-].
  - intros [= <-]. unfold processResults_step.
    destruct (Chan.try_recv (results s)) as [v c| |]; [| done ..].
    split; simpl; auto.
Qed.

(** The invariants of a crawl from a new frontier, where [Crawl] stops. *)
Lemma Crawl_new_frontier (c : Crawler) (md now : Z) (startURL : string)
      (sched : list action) (parser : Parser) (e : crawl_end) (s : pool) :
  frontier c = NewURLFrontier md ->
  md < 2 ^ 63 ->
  NewParser startURL = Ok parser ->
  Crawl c now startURL sched = (e, Some s) ->
  exists s', (e = CrawlBlocked \/ e = CrawlReturns None) /\
             trace s = trace s' /\ p_frontier s = p_frontier s' /\
             once_inv s' /\ depth_inv md s' /\ prov_inv startURL parser s'.
Proof.
  intros Hc Hmd Hp He.
  assert (Hfi : frontier_inv (frontier c) []).
  { rewrite Hc. apply frontier_inv_new. }
  assert (Hnone : forall v, is_visited (frontier c) v = false).
  { intros v. rewrite Hc. reflexivity. }
  destruct (Crawl_invariant
              (fun s => (once_inv s /\ depth_inv md s) /\ prov_inv startURL parser s)
              (fun a s => step_prov_inv md startURL parser a s Hmd)
              c now startURL sched)
    with (e := e) (s := s) as (s' & [[Honce Hdep] Hprov] & Hend); [| exact He |].
  { intros parser' uf Hp' Ha.
    assert (parser' = parser) as -> by congruence.
    split; [split |].
    - by eapply once_inv_start.
    - replace md with (maxDepth (frontier c)) by (rewrite Hc; reflexivity).
      eapply depth_inv_start; eauto.
      intros v Hvv. rewrite Hnone in Hvv. discriminate.
    - destruct (AddURL_visited _ _ _ _ Ha) as [_ Hnew].
      split; simpl; auto.
      + intros v Hvv. destruct (Hnew v Hvv) as [Hvo | ?]; [| by left].
        rewrite Hnone in Hvo. discriminate.
      + intros i u d [Hi _]%lookup_replicate. discriminate.
      + intros i r l d [Hi _]%lookup_replicate. discriminate. }
  assert (Hs : trace s = trace s' /\ p_frontier s = p_frontier s').
  { destruct Hend as [[_ ->] | [_ ->]]; auto. }
  destruct Hs as [Ht Hf]. exists s'.
  split; [destruct Hend as [[-> _] | [-> _]]; auto |]. auto.
Qed.

(** X10. What a crawl marks visited comes from the links of what it
    fetched, level by level.  From a new frontier whose [maxDepth] is an
    [int], in every crawl and under every schedule, each URL the frontier
    has marked visited is the normalized start URL, recorded at depth 0, or
    the normal form of a link that [Parse] found in the content [Fetch]
    returned with [StatusFetched] for a URL the crawl fetched, recorded one
    level below that URL.  ([classify u] is the result [Fetch] returns for
    [u], whatever the fetcher and the instant.) *)
Theorem Crawl_visits_only_linked_pages (c : Crawler) (md now : Z)
        (startURL : string) (sched : list action) (parser : Parser)
        (e : crawl_end) (s : pool) :
  frontier c = NewURLFrontier md ->
  md < 2 ^ 63 ->
  NewParser startURL = Ok parser ->
  Crawl c now startURL sched = (e, Some s) ->
  forall v, is_visited (p_frontier s) v = true ->
    (normalize startURL = Some v /\ depth_of (p_frontier s) v = 0) \/
    exists u l,
      u ∈ fetched (trace s) /\
      Status (classify u) = StatusFetched /\
      l ∈ Parser_Parse parser (Content (classify u)) u /\
      normalize l = Some v /\
      depth_of (p_frontier s) v = depth_of (p_frontier s) u + 1.
Proof.
  intros Hc Hmd Hp He.
  destruct (Crawl_new_frontier c md now startURL sched parser e s Hc Hmd Hp He)
    as (s' & _ & -> & -> & _ & _ & [_ Hv _ _]).
  intros v Hvv. destruct (Hv v Hvv) as [? | (u & l & Hu & Hl & Hn & Hd)]; [by left |].
  right. exists u, l. unfold page_links in Hl.
  destruct (URLStatus_eqb (Status (classify u)) StatusFetched) eqn:Hst;
    [| inversion Hl].
  apply URLStatus_eqb_eq in Hst. auto.
Qed.

End CrawlProvenance.

Section CrawlProvenanceExamples.
Import World.

Lemma Crawl_visits_only_linked_pages_witness :
  exists e s,
    Crawl (net_http := site) (NewCrawler 2 2 1000000000) 0 "http://a.test/" overlap
    = (e, Some s) /\
    forall v, is_visited (p_frontier s) v = true ->
      (normalize "http://a.test/" = Some v /\ depth_of (p_frontier s) v = 0) \/
      exists u l,
        u ∈ fetched (trace s) /\
        Status (classify (net_http := site) u) = StatusFetched /\
        l ∈ Parser_Parse (MkParser (net_url := url_lib) "http://a.test/")
              (Content (classify (net_http := site) u)) u /\
        normalize l = Some v /\
        depth_of (p_frontier s) v = depth_of (p_frontier s) u + 1.
Proof.
  destruct (Crawl_starts (net_url := url_lib) (net_http := site)
              (NewCrawler 2 2 1000000000) 0 "http://a.test/" overlap
              (MkParser (net_url := url_lib) "http://a.test/") eq_refl eq_refl)
    as (e & s & He).
  exists e, s. split; [exact He |].
  apply (Crawl_visits_only_linked_pages (net_url := url_lib) (net_http := site)
           (NewCrawler 2 2 1000000000) 2 0 "http://a.test/" overlap
           (MkParser (net_url := url_lib) "http://a.test/") e s);
    [reflexivity | reflexivity | reflexivity | exact He].
Defined.

End CrawlProvenanceExamples.

(** ** The worker pool: a crawler without workers *)

Section NoWorkers.
Context {net_url : UrlLib} {net_http : HttpLib} {x_html : HtmlLib}.

(** X11. With [workers <= 0] the loop of [Crawl] starts no goroutine and
    [wg.Wait] returns at once: when the start URL parses and the queue is
    open, [Crawl] returns nil under every schedule, having closed the
    results channel, with nothing dequeued, fetched or reported; what
    [AddURL] made of the start URL is all that happened to the frontier. *)
Theorem Crawl_without_workers (c : Crawler) (now : Z) (startURL : string)
        (sched : list action) (parser : Parser) :
  workers c <= 0 ->
  NewParser startURL = Ok parser ->
  Chan.closed (urls (frontier c)) = false ->
  exists uf s,
    AddURL (frontier c) startURL 0 = Returns uf /\
    Crawl c now startURL sched = (CrawlReturns None, Some s) /\
    p_frontier s = uf /\ goroutines s = [] /\ trace s = [] /\
    indexed s = [] /\ Chan.buf (results s) = [] /\
    Chan.closed (results s) = true.
Proof.
  intros Hw Hp Hopen.
  assert (Ha : exists uf, AddURL (frontier c) startURL 0 = Returns uf).
  { unfold AddURL. destruct (url_Parse startURL) as [p|err]; [| eauto].
    destruct (is_visited (frontier c) (URL_String p) || (0 >=? maxDepth (frontier c)));
      [eauto |].
    unfold Chan.try_send. cbn [urls]. rewrite Hopen.
    destruct (Chan.full (urls (frontier c))); eauto. }
  destruct Ha as [uf Ha].
  assert (Hn : Z.to_nat (workers c) = 0%nat) by lia.
  exists uf. eexists. split; [exact Ha |].
  unfold Crawl. rewrite Hp, Ha, Hn.
  destruct sched; simpl; repeat split; reflexivity.
Qed.

End NoWorkers.

Section NoWorkersExamples.
Import World.

Lemma Crawl_without_workers_witness :
  exists uf s,
    AddURL (NewURLFrontier 2) "http://a.test/" 0 = Returns uf /\
    Crawl (net_http := site) (NewCrawler 2 0 1000000000) 0 "http://a.test/"
          round_robin = (CrawlReturns None, Some s) /\
    p_frontier s = uf /\ goroutines s = [] /\ trace s = [] /\
    indexed s = [] /\ Chan.buf (results s) = [] /\
    Chan.closed (results s) = true.
Proof.
  apply (Crawl_without_workers (net_url := url_lib) (net_http := site)
           (NewCrawler 2 0 1000000000) 0 "http://a.test/" round_robin
           (MkParser (net_url := url_lib) "http://a.test/"));
    [simpl; lia | reflexivity | reflexivity].
Defined.

End NoWorkersExamples.

(** ** The worker pool: the depth of a URL is a distance in links *)

Section CrawlLinkDistance.
Context {net_url : UrlLib} {net_http : HttpLib} {x_html : HtmlLib}.

Lemma visited_linked (md : Z) (startURL : string) (parser : Parser) (s : pool) :
  once_inv s -> depth_inv md s -> prov_inv startURL parser s ->
  forall (n : nat) (v : string),
    is_visited (p_frontier s) v = true ->
    depth_of (p_frontier s) v = Z.of_nat n ->
    linked parser startURL (fetched (trace s)) (Z.of_nat n) v.
Proof.
  intros Honce Hdep Hprov n.
  induction n as [n IH] using lt_wf_ind. intros v Hv Hd.
  destruct (pv_visited _ _ _ Hprov v Hv) as [[Hn H0] | (u & l & Hu & Hl & Hn & Hdu)].
  - assert (n = 0%nat) as -> by lia. by apply linked_start.
  - pose proof (once_inv_fetched_visited s u Honce Hu) as Huv.
    pose proof (dp_visited md s Hdep u Huv) as Hb.
    unfold page_links in Hl.
    destruct (URLStatus_eqb (Status (classify u)) StatusFetched) eqn:Hst;
      [| inversion Hl].
    apply URLStatus_eqb_eq in Hst.
    replace (Z.of_nat n) with (Z.of_nat (Z.to_nat (depth_of (p_frontier s) u)) + 1)
      by lia.
    eapply linked_step; eauto.
    apply IH; [lia | exact Huv | lia].
Qed.

(** X15. The depth the frontier records for a URL is the length of a chain
    of links that leads to it.  From a new frontier whose [maxDepth] is an
    [int], in every crawl and under every schedule, each URL marked visited
    has a depth [k] in [0, maxDepth) and is reached from the start URL by
    [k] links, each found by [Parse] on a page that the crawl fetched with
    [StatusFetched] and normalized by [AddURL]. *)
Theorem Crawl_depth_is_link_distance (c : Crawler) (md now : Z)
        (startURL : string) (sched : list action) (parser : Parser)
        (e : crawl_end) (s : pool) :
  frontier c = NewURLFrontier md ->
  md < 2 ^ 63 ->
  NewParser startURL = Ok parser ->
  Crawl c now startURL sched = (e, Some s) ->
  forall v, is_visited (p_frontier s) v = true ->
    0 <= depth_of (p_frontier s) v < md /\
    linked parser startURL (fetched (trace s)) (depth_of (p_frontier s) v) v.
Proof.
  intros Hc Hmd Hp He.
  destruct (Crawl_new_frontier c md now startURL sched parser e s Hc Hmd Hp He)
    as (s' & _ & -> & -> & Honce & Hdep & Hprov).
  intros v Hv. pose proof (dp_visited md s' Hdep v Hv) as Hb.
  split; [exact Hb |].
  replace (depth_of (p_frontier s') v)
    with (Z.of_nat (Z.to_nat (depth_of (p_frontier s') v))) by lia.
  eapply visited_linked; eauto. lia.
Qed.

End CrawlLinkDistance.

Section CrawlLinkDistanceExamples.
Import World.

Lemma Crawl_depth_is_link_distance_witness :
  exists e s,
    Crawl (net_http := site) (NewCrawler 2 2 1000000000) 0 "http://a.test/" overlap
    = (e, Some s) /\
    forall v, is_visited (p_frontier s) v = true ->
      0 <= depth_of (p_frontier s) v < 2 /\
      linked (net_http := site) (MkParser (net_url := url_lib) "http://a.test/")
             "http://a.test/" (fetched (trace s)) (depth_of (p_frontier s) v) v.
Proof.
  destruct (Crawl_starts (net_url := url_lib) (net_http := site)
              (NewCrawler 2 2 1000000000) 0 "http://a.test/" overlap
              (MkParser (net_url := url_lib) "http://a.test/") eq_refl eq_refl)
    as (e & s & He).
  exists e, s. split; [exact He |].
  apply (Crawl_depth_is_link_distance (net_url := url_lib) (net_http := site)
           (NewCrawler 2 2 1000000000) 2 0 "http://a.test/" overlap
           (MkParser (net_url := url_lib) "http://a.test/") e s);
    [reflexivity | reflexivity | reflexivity | exact He].
Defined.

End CrawlLinkDistanceExamples.

(** ** The worker pool: the queue when [Crawl] returns *)

Section CrawlDrained.
Context {net_url : UrlLib} {net_http : HttpLib} {x_html : HtmlLib}.

Lemma forallb_is_Exited_insert (gs : list wstate) (i : nat) (w0 w : wstate) :
  gs !! i = Some w0 -> is_Exited w = false ->
  forallb is_Exited (<[i := w]> gs) = false.
Proof.
  intros Hi Hw. apply not_true_is_false. intros Hall.
  rewrite forallb_forall in Hall.
  assert (Hin : In w (<[i := w]> gs)).
  { apply list_elem_of_In, (list_elem_of_lookup_2 _ i).
    apply list_lookup_insert_eq. by eapply lookup_lt_Some. }
  apply Hall in Hin. congruence.
Qed.

Lemma is_Exited_adding (result : CrawlResult) (links : list string) (d : Z) :
  is_Exited (adding result links d) = false.
Proof. by destruct links. Qed.

(** The last worker to leave has just found the queue empty. *)
Lemma step_drained (a : action) (s s' : pool) :
  (forallb is_Exited (goroutines s) = true -> pending (p_frontier s) = []) ->
  step a s = Returns s' ->
  (forallb is_Exited (goroutines s') = true -> pending (p_frontier s') = []) /\
  length (goroutines s') = length (goroutines s).
Proof.
  intros HJ. destruct a as [i|]; simpl.
  - unfold worker_step.
    destruct (goroutines s !! i) as [w|] eqn:Hw; [| by intros [= <-]].
    destruct w as [| | |url d|result links d|result|].
    + destruct (GetURL (p_frontier s)) as [[[url d] ok] uf].
      destruct ok; intros [= <-]; simpl; rewrite length_insert;
        (split; [| reflexivity]);
        erewrite forallb_is_Exited_insert by eauto; discriminate.
    + intros [= <-]; simpl; rewrite length_insert; split; [| reflexivity].
      erewrite forallb_is_Exited_insert by eauto. discriminate.
    + unfold GetURL, Chan.try_recv.
      destruct (Chan.buf (urls (p_frontier s))) as [|v rest] eqn:Hb.
      * destruct (Chan.closed (urls (p_frontier s))); intros [= <-]; simpl;
          rewrite length_insert; (split; [| reflexivity]).
        -- erewrite forallb_is_Exited_insert by eauto. discriminate.
        -- intros _. exact Hb.
      * intros [= <-]; simpl; rewrite length_insert; split; [| reflexivity].
        erewrite forallb_is_Exited_insert by eauto. discriminate.
    + destruct (Fetch (p_fetcher s) (p_clock s) url) as [[result f] now1].
      destruct (URLStatus_eqb (Status result) StatusFetched);
        intros [= <-]; simpl; rewrite length_insert; (split; [| reflexivity]);
        erewrite forallb_is_Exited_insert by eauto using is_Exited_adding;
        discriminate.
    + destruct links as [|link rest].
      * intros [= <-]; simpl; rewrite length_insert; split; [| reflexivity].
        erewrite forallb_is_Exited_insert by eauto. discriminate.
      * destruct (AddURL (p_frontier s) link (wrap64 (d + 1))) as [uf|msg uf];
          [| discriminate].
        intros [= <-]; simpl; rewrite length_insert; split; [| reflexivity].
        erewrite forallb_is_Exited_insert by eauto using is_Exited_adding.
        discriminate.
    + destruct (Chan.try_send (results s) result) as [c| |]; [| | discriminate];
        intros [= <-]; simpl; rewrite length_insert; (split; [| reflexivity]);
        erewrite forallb_is_Exited_insert by eauto; discriminate.
    + by intros [= <-].
  - intros [= <-]. unfold processResults_step.
    destruct (Chan.try_recv (results s)) as [v c| |]; auto.
Qed.

Lemma wg_Wait_drained (sched : list action) (s s' : pool) :
  (forallb is_Exited (goroutines s) = true -> pending (p_frontier s) = []) ->
  wg_Wait sched s = (CrawlReturns None, s') ->
  pending (p_frontier s') = [] /\
  forallb is_Exited (goroutines s') = true /\
  length (goroutines s') = length (goroutines s) /\
  Chan.closed (results s') = true.
Proof.
  revert s. induction sched as [|a sched IH]; intros s HJ; cbn [wg_Wait].
  - destruct (forallb is_Exited (goroutines s)) eqn:Hall; [| discriminate].
    intros [= <-]. simpl. auto.
  - destruct (forallb is_Exited (goroutines s)) eqn:Hall.
    + intros [= <-]. simpl. auto.
    + assert (HJ0 : forallb is_Exited (goroutines s) = true ->
                    pending (p_frontier s) = []) by (rewrite Hall; discriminate).
      destruct (step a s) as [s1|msg s1] eqn:Hstep; [| discriminate].
      destruct (step_drained a s s1 HJ0 Hstep) as [HJ1 Hlen].
      intros Hw. destruct (IH s1 HJ1 Hw) as (Hp & He & Hl & Hc).
      repeat split; auto. congruence.
Qed.

(** X17. [Crawl] returns only when the queue is drained.  With at least one
    worker, when [Crawl] has returned nil, under whatever schedule, every
    worker has left its loop, the results channel is closed and no URL is
    pending in the frontier: the last worker to leave had just found the
    queue empty, and nothing is added after it. *)
Theorem Crawl_returns_with_empty_queue (c : Crawler) (now : Z)
        (startURL : string) (sched : list action) (s : pool) :
  0 < workers c ->
  Crawl c now startURL sched = (CrawlReturns None, Some s) ->
  pending (p_frontier s) = [] /\
  (forall i w, goroutines s !! i = Some w -> w = Exited) /\
  Z.of_nat (length (goroutines s)) = workers c /\
  Chan.closed (results s) = true.
Proof.
  intros Hw. unfold Crawl.
  destruct (NewParser startURL) as [parser|err]; [| discriminate].
  destruct (AddURL (frontier c) startURL 0) as [uf|msg uf]; [| discriminate].
  match goal with
  | |- context [wg_Wait sched ?s0] =>
      pose proof (wg_Wait_drained sched s0) as Hd;
      destruct (wg_Wait sched s0) as [e s']
  end.
  intros [= -> ->].
  destruct (Hd s) as (Hp & He & Hl & Hc); [| reflexivity |].
  { simpl. destruct (Z.to_nat (workers c)) eqn:Hn; [lia | discriminate]. }
  simpl in Hl. rewrite length_replicate in Hl.
  repeat split; auto; [| lia].
  intros i w Hi. rewrite forallb_forall in He.
  assert (Hin : In w (goroutines s)).
  { apply list_elem_of_In. by eapply list_elem_of_lookup_2. }
  apply He in Hin. by destruct w.
Qed.

End CrawlDrained.

Section CrawlDrainedExamples.
Import World.

Lemma site_overlap_returns :
  exists s, Crawl (net_http := site) (NewCrawler 2 2 1000000000) 0
                  "http://a.test/" overlap = (CrawlReturns None, Some s).
Proof.
  assert (H : match Crawl (net_http := site) (NewCrawler 2 2 1000000000) 0
                          "http://a.test/" overlap with
              | (CrawlReturns None, Some s) => True
              | _ => False
              end) by (vm_compute; exact I).
  destruct (Crawl (net_http := site) (NewCrawler 2 2 1000000000) 0
                  "http://a.test/" overlap) as [[[err|]| |msg] [s|]];
    try contradiction.
  by exists s.
Qed.

Lemma Crawl_returns_with_empty_queue_witness :
  exists s,
    Crawl (net_http := site) (NewCrawler 2 2 1000000000) 0 "http://a.test/" overlap
    = (CrawlReturns None, Some s) /\
    pending (p_frontier s) = [] /\
    (forall i w, goroutines s !! i = Some w -> w = Exited) /\
    Z.of_nat (length (goroutines s)) = 2 /\
    Chan.closed (results s) = true.
Proof.
  destruct site_overlap_returns as [s Hs].
  exists s. split; [exact Hs |].
  apply (Crawl_returns_with_empty_queue (net_url := url_lib) (net_http := site)
           (NewCrawler 2 2 1000000000) 0 "http://a.test/" overlap s);
    [simpl; lia | exact Hs].
Defined.

End CrawlDrainedExamples.

(** ** Indexer: the preview text *)

Section IndexerText.
Import Strings Indexer.

Lemma has_gt_app (s t : list Ascii.ascii) : has_gt (s ++ t) = has_gt s || has_gt t.
Proof. apply existsb_app. Qed.

Lemma is_space_not_angle (c : Ascii.ascii) :
  is_space c = true ->
  Ascii.eqb c ">"%char = false /\ Ascii.eqb c "<"%char = false.
Proof.
  destruct c as [[] [] [] [] [] [] [] []]; vm_compute; intros; try discriminate; auto.
Qed.

(** *** No tag is left *)

Lemma strip_tags_no_gt (s : list Ascii.ascii) :
  has_gt s = false -> strip_tags false s = s.
Proof.
  induction s as [|c s IH]; [reflexivity |]. simpl.
  intros [Hc Hs]%orb_false_iff. rewrite Hs, andb_false_r. by rewrite IH.
Qed.

Lemma strip_tags_no_tag (s : list Ascii.ascii) (in_tag : bool) :
  no_tag (strip_tags in_tag s) = true.
Proof.
  revert in_tag. induction s as [|c s IH]; intros in_tag; [reflexivity |].
  simpl. destruct in_tag.
  - destruct (Ascii.eqb c ">"%char); [| apply IH]. simpl. apply IH.
  - destruct (Ascii.eqb c "<"%char) eqn:Hc; simpl.
    + destruct (has_gt s) eqn:Hs; simpl; [apply IH |].
      rewrite Hc, (strip_tags_no_gt s Hs), Hs. simpl.
      rewrite <- (strip_tags_no_gt s Hs). apply IH.
    + rewrite Hc. simpl. apply IH.
Qed.

Lemma no_tag_strip_tags (s : list Ascii.ascii) :
  no_tag s = true -> strip_tags false s = s.
Proof.
  induction s as [|c s IH]; [reflexivity |]. simpl.
  intros [Hc Hs]%andb_true_iff. apply negb_true_iff in Hc. rewrite Hc.
  by rewrite IH.
Qed.

Lemma has_gt_collapse_space (s : list Ascii.ascii) (in_run : bool) :
  has_gt (collapse_space in_run s) = has_gt s.
Proof.
  revert in_run. induction s as [|c s IH]; intros in_run; [reflexivity |].
  simpl. destruct (is_space c) eqn:Hc.
  - destruct (is_space_not_angle c Hc) as [-> _].
    destruct in_run; simpl; apply IH.
  - simpl. by rewrite IH.
Qed.

Lemma no_tag_collapse_space (s : list Ascii.ascii) (in_run : bool) :
  no_tag (collapse_space in_run s) = no_tag s.
Proof.
  revert in_run. induction s as [|c s IH]; intros in_run; [reflexivity |].
  simpl. destruct (is_space c) eqn:Hc.
  - destruct (is_space_not_angle c Hc) as [_ ->].
    destruct in_run; simpl; apply IH.
  - simpl. by rewrite IH, has_gt_collapse_space.
Qed.

Lemma no_tag_app (s t : list Ascii.ascii) :
  no_tag (s ++ t) = true -> no_tag s = true /\ no_tag t = true.
Proof.
  induction s as [|c s IH]; simpl; [auto |].
  intros [Hc Hs]%andb_true_iff. destruct (IH Hs) as [Hs' Ht].
  split; [| exact Ht]. rewrite Hs', andb_true_r.
  apply negb_true_iff in Hc. apply negb_true_iff.
  destruct (Ascii.eqb c "<"%char); [| reflexivity]. simpl in *.
  rewrite has_gt_app in Hc. by apply orb_false_iff in Hc as [-> _].
Qed.

Lemma no_tag_sound (s s1 s2 s3 : list Ascii.ascii) :
  no_tag s = true -> s <> s1 ++ "<"%char :: s2 ++ ">"%char :: s3.
Proof.
  intros Hs ->. apply no_tag_app in Hs as [_ Hs]. simpl in Hs.
  rewrite has_gt_app in Hs. simpl in Hs. rewrite orb_true_r in Hs. discriminate.
Qed.

(** *** White space is collapsed *)

Lemma collapse_space_collapsed (s : list Ascii.ascii) :
  (forall in_run, collapsed (collapse_space in_run s) = true) /\
  starts_with_space (collapse_space true s) = false.
Proof.
  induction s as [|c s [IH1 IH2]]; [split; [intros []|]; reflexivity |].
  simpl. destruct (is_space c) eqn:Hc.
  - split; [| exact IH2]. intros [|]; [apply IH1 |].
    simpl. by rewrite IH2, IH1.
  - split; [| simpl; exact Hc]. intros in_run. simpl. by rewrite Hc, IH1.
Qed.

Lemma collapse_space_no_run (s : list Ascii.ascii) :
  starts_with_space s = false -> collapse_space true s = collapse_space false s.
Proof.
  destruct s as [|c s]; [reflexivity |]. simpl. by intros ->.
Qed.

Lemma collapsed_collapse_space (s : list Ascii.ascii) :
  collapsed s = true -> collapse_space false s = s.
Proof.
  induction s as [|c s IH]; [reflexivity |]. simpl.
  intros [Hc Hs]%andb_true_iff. destruct (is_space c).
  - apply andb_true_iff in Hc as [Hb Hn]. apply Ascii.eqb_eq in Hb as ->.
    apply negb_true_iff in Hn. by rewrite collapse_space_no_run, IH.
  - by rewrite IH.
Qed.

Lemma collapsed_app (s t : list Ascii.ascii) :
  collapsed (s ++ t) = true -> collapsed s = true /\ collapsed t = true.
Proof.
  induction s as [|c s IH]; simpl; [auto |].
  intros [Hc Hs]%andb_true_iff. destruct (IH Hs) as [Hs' Ht].
  split; [| exact Ht]. rewrite Hs', andb_true_r.
  destruct (is_space c); [| reflexivity].
  apply andb_true_iff in Hc as [-> Hn]. simpl.
  destruct s as [|c' s]; [reflexivity | exact Hn].
Qed.

Lemma collapsed_sound (s s1 s2 : list Ascii.ascii) (c : Ascii.ascii) :
  collapsed s = true -> s = s1 ++ c :: s2 -> is_space c = true ->
  c = " "%char /\ starts_with_space s2 = false.
Proof.
  intros Hs -> Hc. apply collapsed_app in Hs as [_ Hs]. simpl in Hs.
  rewrite Hc in Hs. apply andb_true_iff in Hs as [Hs _].
  apply andb_true_iff in Hs as [Hb Hn]. apply Ascii.eqb_eq in Hb.
  by apply negb_true_iff in Hn.
Qed.

(** *** No white space is left at the ends *)

Lemma space_runes_nonempty (r : list Ascii.ascii) :
  In r space_runes -> (0 < length r)%nat.
Proof.
  intros Hr. assert (H : Forall (fun r => (0 < length r)%nat) space_runes).
  { unfold space_runes. repeat constructor. }
  rewrite Forall_forall in H. apply H. by apply list_elem_of_In.
Qed.

Lemma leading_space_Some (s r : list Ascii.ascii) :
  leading_space s = Some r -> In r space_runes /\ r `prefix_of` s.
Proof.
  intros [Hin Hp]%find_some. split; [exact Hin |]. by apply bool_decide_eq_true in Hp.
Qed.

Lemma leading_space_None (s r : list Ascii.ascii) :
  leading_space s = None -> In r space_runes -> ~ r `prefix_of` s.
Proof.
  intros Hn Hin. apply (find_none _ _ Hn) in Hin.
  by apply bool_decide_eq_false in Hin.
Qed.

Lemma trailing_space_Some (s r : list Ascii.ascii) :
  trailing_space s = Some r -> In r space_runes /\ r `suffix_of` s.
Proof.
  intros [Hin Hp]%find_some. split; [exact Hin |]. by apply bool_decide_eq_true in Hp.
Qed.

Lemma trailing_space_None (s r : list Ascii.ascii) :
  trailing_space s = None -> In r space_runes -> ~ r `suffix_of` s.
Proof.
  intros Hn Hin. apply (find_none _ _ Hn) in Hin.
  by apply bool_decide_eq_false in Hin.
Qed.

Lemma leading_space_prefix (s t : list Ascii.ascii) :
  leading_space s = None -> t `prefix_of` s -> leading_space t = None.
Proof.
  intros Hs Ht. destruct (leading_space t) as [r|] eqn:Hr; [| reflexivity].
  apply leading_space_Some in Hr as [Hin Hp].
  destruct (leading_space_None s r Hs Hin). by etrans.
Qed.

Lemma TrimLeft_suffix (fuel : nat) (s : list Ascii.ascii) :
  TrimLeft fuel s `suffix_of` s.
Proof.
  revert s. induction fuel as [|fuel IH]; intros s; simpl; [done |].
  destruct (leading_space s) as [r|]; [| done].
  etrans; [apply IH |]. apply suffix_drop.
Qed.

Lemma TrimRight_prefix (fuel : nat) (s : list Ascii.ascii) :
  TrimRight fuel s `prefix_of` s.
Proof.
  revert s. induction fuel as [|fuel IH]; intros s; simpl; [done |].
  destruct (trailing_space s) as [r|]; [| done].
  etrans; [apply IH |]. apply prefix_take.
Qed.

Lemma TrimLeft_done (fuel : nat) (s : list Ascii.ascii) :
  (length s <= fuel)%nat -> leading_space (TrimLeft fuel s) = None.
Proof.
  revert s. induction fuel as [|fuel IH]; intros s Hlen; simpl.
  - destruct s; [reflexivity | simpl in Hlen; lia].
  - destruct (leading_space s) as [r|] eqn:Hr; [| exact Hr].
    apply leading_space_Some in Hr as [Hin [k ->]].
    apply space_runes_nonempty in Hin. apply IH.
    rewrite length_drop, length_app in *. lia.
Qed.

Lemma TrimRight_done (fuel : nat) (s : list Ascii.ascii) :
  (length s <= fuel)%nat -> trailing_space (TrimRight fuel s) = None.
Proof.
  revert s. induction fuel as [|fuel IH]; intros s Hlen; simpl.
  - destruct s; [reflexivity | simpl in Hlen; lia].
  - destruct (trailing_space s) as [r|] eqn:Hr; [| exact Hr].
    apply trailing_space_Some in Hr as [Hin [k ->]].
    apply space_runes_nonempty in Hin. apply IH.
    rewrite length_take, length_app in *. lia.
Qed.

Lemma TrimLeft_id (fuel : nat) (s : list Ascii.ascii) :
  leading_space s = None -> TrimLeft fuel s = s.
Proof. destruct fuel; simpl; [reflexivity |]. by intros ->. Qed.

Lemma TrimRight_id (fuel : nat) (s : list Ascii.ascii) :
  trailing_space s = None -> TrimRight fuel s = s.
Proof. destruct fuel; simpl; [reflexivity |]. by intros ->. Qed.

Lemma TrimSpace_spec (s : list Ascii.ascii) :
  (exists a b, s = a ++ TrimSpace s ++ b) /\
  leading_space (TrimSpace s) = None /\
  trailing_space (TrimSpace s) = None.
Proof.
  unfold TrimSpace.
  pose proof (TrimLeft_suffix (length s) s) as Hsuf.
  pose proof (TrimRight_prefix (length s) (TrimLeft (length s) s)) as Hpre.
  split; [| split].
  - destruct Hsuf as [a Ha]. destruct Hpre as [b Hb].
    exists a, b. by rewrite <- Hb.
  - eapply leading_space_prefix; [| exact Hpre]. by apply TrimLeft_done.
  - apply TrimRight_done. destruct Hsuf as [a Ha].
    apply (f_equal length) in Ha. rewrite length_app in Ha. lia.
Qed.

Lemma TrimSpace_id (s : list Ascii.ascii) :
  leading_space s = None -> trailing_space s = None -> TrimSpace s = s.
Proof.
  intros Hl Ht. unfold TrimSpace. by rewrite (TrimLeft_id _ _ Hl), TrimRight_id.
Qed.

Lemma blank_is_space_rune : In [" "%char] space_runes.
Proof. unfold space_runes. simpl. tauto. Qed.

(** X12. The text [extractText] returns is clean.  No [<] in it has a [>]
    after it, so no tag is left; each of its white-space bytes (tab, line
    feed, form feed, carriage return, blank) is a single blank that stands
    between two other bytes, the next of which is not white space; and
    extracting the text of the result again changes nothing. *)
Theorem extractText_is_clean (htmlContent : string) :
  (forall s1 s2 s3,
      String.list_ascii_of_string (extractText htmlContent)
      <> s1 ++ "<"%char :: s2 ++ ">"%char :: s3) /\
  (forall s1 c s2,
      String.list_ascii_of_string (extractText htmlContent) = s1 ++ c :: s2 ->
      is_space c = true ->
      c = " "%char /\ s1 <> [] /\ s2 <> [] /\
      forall c' s3, s2 = c' :: s3 -> is_space c' = false) /\
  extractText (extractText htmlContent) = extractText htmlContent.
Proof.
  unfold extractText at 1 2 3 5.
  rewrite !String.list_ascii_of_string_of_list_ascii.
  set (l := collapse_space false
              (strip_tags false (String.list_ascii_of_string htmlContent))).
  destruct (TrimSpace_spec l) as ((a & b & Hab) & Hlead & Htrail).
  assert (Hnt : no_tag (TrimSpace l) = true).
  { assert (Hl : no_tag l = true).
    { subst l. rewrite no_tag_collapse_space. apply strip_tags_no_tag. }
    rewrite Hab in Hl. apply no_tag_app in Hl as [_ Hl].
    by apply no_tag_app in Hl as [Hl _]. }
  assert (Hcol : collapsed (TrimSpace l) = true).
  { assert (Hl : collapsed l = true).
    { subst l. apply collapse_space_collapsed. }
    rewrite Hab in Hl. apply collapsed_app in Hl as [_ Hl].
    by apply collapsed_app in Hl as [Hl _]. }
  split; [| split].
  - intros s1 s2 s3. by apply no_tag_sound.
  - intros s1 c s2 Heq Hc.
    destruct (collapsed_sound _ _ _ _ Hcol Heq Hc) as [-> Hnext].
    split; [reflexivity |]. split; [| split].
    + intros ->. apply (leading_space_None _ _ Hlead blank_is_space_rune).
      rewrite Heq. by exists s2.
    + intros ->. apply (trailing_space_None _ _ Htrail blank_is_space_rune).
      rewrite Heq. by exists s1.
    + intros c' s3 ->. exact Hnext.
  - unfold extractText. rewrite String.list_ascii_of_string_of_list_ascii.
    fold l. rewrite (no_tag_strip_tags _ Hnt), (collapsed_collapse_space _ Hcol).
    by rewrite (TrimSpace_id _ Hlead Htrail).
Qed.

End IndexerText.

(** ** Indexer: what is written *)

Section IndexerOutput.
Import Indexer.

Lemma length_append (s t : string) :
  String.length (s +:+ t) = (String.length s + String.length t)%nat.
Proof. induction s as [|c s IH]; simpl; [reflexivity |]. by rewrite <- IH. Qed.

Lemma length_substring_0 (n : nat) (s : string) :
  (n <= String.length s)%nat -> String.length (String.substring 0 n s) = n.
Proof.
  revert n. induction s as [|c s IH]; intros [|n] Hn; simpl in *;
    try reflexivity; try lia.
  rewrite IH; lia.
Qed.

Lemma truncate_fits (text : string) (length : Z) :
  0 <= length ->
  exists r, truncate text length = Returns r /\
            len r <= length + 3 /\
            (len text <= length -> r = text) /\
            (length < len text ->
             r = String.substring 0 (Z.to_nat length) text +:+ "..." /\
             len r = length + 3).
Proof.
  unfold truncate, string_upto, len. intros Hl.
  destruct (Z.leb_spec (Z.of_nat (String.length text)) length) as [Hle | Hgt].
  - exists text. repeat split; auto; lia.
  - assert (Hin : (0 <=? length) && (length <=? Z.of_nat (String.length text)) = true).
    { apply andb_true_iff. split; apply Z.leb_le; lia. }
    rewrite Hin. eexists. split; [reflexivity |].
    assert (Hlen : Z.of_nat (String.length
                     (String.substring 0 (Z.to_nat length) text +:+ "..."))
                   = length + 3).
    { rewrite length_append, length_substring_0 by lia. simpl. lia. }
    repeat split; auto; lia.
Qed.

(** X13. [truncate] on a length that is not negative returns at most
    [length + 3] bytes: the text itself when it has at most [length] bytes,
    and otherwise its first [length] bytes followed by three dots, which is
    longer than the text when the text has fewer than [length + 3] bytes.
    On a negative length it panics, whatever the text. *)
Theorem truncate_bounds (text : string) (length : Z) :
  (0 <= length ->
   exists r, truncate text length = Returns r /\
             len r <= length + 3 /\
             (len text <= length -> r = text) /\
             (length < len text ->
              r = String.substring 0 (Z.to_nat length) text +:+ "..." /\
              len r = length + 3)) /\
  (length < 0 ->
   truncate text length = Panics "runtime error: slice bounds out of range" "").
Proof.
  split; [apply truncate_fits |].
  unfold truncate, string_upto, len. intros Hneg.
  destruct (Z.leb_spec (Z.of_nat (String.length text)) length) as [Hle | Hgt];
    [lia |].
  assert (Hout : (0 <=? length) = false) by (apply Z.leb_gt; lia).
  by rewrite Hout.
Qed.

Lemma app_nonempty (s t : string) : s <> "" -> s +:+ t <> "".
Proof. destruct s; [done |]. intros _. discriminate. Qed.

Lemma Index_returns (result : CrawlResult) :
  exists out, Index result = Returns out /\
              (out = "" <-> Status result = StatusPending).
Proof.
  unfold Index. destruct (Status result) eqn:Hst.
  - exists "". split; [reflexivity | tauto].
  - destruct (truncate_fits (extractText (Content result)) 200)
      as (preview & -> & _); [lia |].
    unfold strings_upto, min.
    assert (Hin : (0 <=? (if Z.of_nat (length (Links result)) <? 5
                          then Z.of_nat (length (Links result)) else 5))
                  && ((if Z.of_nat (length (Links result)) <? 5
                       then Z.of_nat (length (Links result)) else 5)
                      <=? Z.of_nat (length (Links result))) = true).
    { apply andb_true_iff.
      destruct (Z.ltb_spec (Z.of_nat (length (Links result))) 5);
        split; apply Z.leb_le; lia. }
    rewrite Hin. eexists. split; [reflexivity |].
    split; [| discriminate]. intros Hout. exfalso. revert Hout.
    apply app_nonempty. discriminate.
  - eexists. split; [reflexivity |]. split; [| discriminate].
    intros Hout. exfalso. revert Hout. apply app_nonempty. discriminate.
  - eexists. split; [reflexivity |]. split; [| discriminate].
    intros Hout. exfalso. revert Hout. apply app_nonempty. discriminate.
Qed.

End IndexerOutput.

Section IndexerCrawl.
Context {net_url : UrlLib} {net_http : HttpLib} {x_html : HtmlLib}.

Lemma Crawl_indexed_wf (c : Crawler) (now : Z) (startURL : string)
      (sched : list action) (e : crawl_end) (s : pool) :
  Crawl c now startURL sched = (e, Some s) ->
  forall r, r ∈ indexed s -> result_wf r.
Proof.
  unfold Crawl.
  destruct (NewParser startURL) as [parser|err]; [| discriminate].
  destruct (AddURL (frontier c) startURL 0) as [uf|msg uf]; [| discriminate].
  match goal with
  | |- context [wg_Wait sched ?s0] =>
      pose proof (wg_Wait_wf sched s0) as Hw; destruct (wg_Wait sched s0) as [e' s']
  end.
  intros [= <- <-] r Hr. apply Hw; [| apply elem_of_app; by right].
  split; simpl.
  - intros r' Hin. inversion Hin.
  - intros i w r' Hi Hr'. apply lookup_replicate in Hi as [-> _]. discriminate.
Qed.

(** X14. [Index] never panics: the length it passes to [truncate] is 200 and
    the bound of the slice of links is at most their number.  It writes
    nothing only for a result still in [StatusPending]; so in every crawl
    and under every schedule, each result that [processResults] passes to
    the indexer is written out. *)
Theorem Index_never_panics :
  (forall result,
     exists out, Indexer.Index result = Returns out /\
                 (out = "" <-> Status result = StatusPending)) /\
  (forall (c : Crawler) (now : Z) (startURL : string) (sched : list action)
          (e : crawl_end) (s : pool),
     Crawl c now startURL sched = (e, Some s) ->
     forall r, r ∈ indexed s ->
               exists out, Indexer.Index r = Returns out /\ out <> "").
Proof.
  split; [apply Index_returns |].
  intros c now startURL sched e s He r Hr.
  destruct (Index_returns r) as (out & Hout & Hempty).
  exists out. split; [exact Hout |]. intros Hnil.
  apply Hempty in Hnil.
  by destruct (Crawl_indexed_wf c now startURL sched e s He r Hr) as [Hp _].
Qed.

End IndexerCrawl.

(** ** main: what the program crawls *)

Section MainFacts.
Context {net_url : UrlLib} {net_http : HttpLib} {x_html : HtmlLib}.

Lemma prefix_append (p s : string) : String.prefix p (p +:+ s) = true.
Proof.
  induction p as [|c p IH]; [by destruct s |].
  change (String c p +:+ s) with (String c (p +:+ s)). cbn [String.prefix].
  destruct (Ascii.ascii_dec c c); [exact IH | congruence].
Qed.

(** With maxDepth 2, what is visited is the start URL or a link found in
    what [Fetch] returned for it. *)
Lemma two_levels (startURL : string) (parser : Parser) (s : pool) :
  once_inv s -> depth_inv 2 s -> prov_inv startURL parser s ->
  forall v, is_visited (p_frontier s) v = true ->
    normalize startURL = Some v \/
    exists u l, normalize startURL = Some u /\ u ∈ fetched (trace s) /\
                Status (classify u) = StatusFetched /\
                l ∈ Parser_Parse parser (Content (classify u)) u /\
                normalize l = Some v.
Proof.
  intros Honce Hdep Hprov v Hv.
  destruct (pv_visited _ _ _ Hprov v Hv) as [[Hn _] | (u & l & Hu & Hl & Hn & Hd)];
    [by left |].
  right. exists u, l.
  pose proof (once_inv_fetched_visited s u Honce Hu) as Huv.
  pose proof (dp_visited 2 s Hdep v Hv) as Hbv.
  pose proof (dp_visited 2 s Hdep u Huv) as Hbu.
  unfold page_links in Hl.
  destruct (URLStatus_eqb (Status (classify u)) StatusFetched) eqn:Hst;
    [| inversion Hl].
  apply URLStatus_eqb_eq in Hst. repeat split; auto.
  destruct (pv_visited _ _ _ Hprov u Huv)
    as [[Hnu _] | (u' & l' & Hu' & _ & _ & Hd')]; [exact Hnu |].
  pose proof (once_inv_fetched_visited s u' Honce Hu') as Hu'v.
  pose proof (dp_visited 2 s Hdep u' Hu'v) as Hbu'. lia.
Qed.

(** How [main] ends, case by case, with the invariants of the crawl it
    starts. *)
Lemma main_run (line trimmed startURL : string) (now : Z) (sched : list action) :
  trimmed = String.string_of_list_ascii
              (Strings.TrimSpace (String.list_ascii_of_string line)) ->
  startURL = (if negb (Strings.HasPrefix trimmed "http://")
                 && negb (Strings.HasPrefix trimmed "https://")
              then "https://" +:+ trimmed else trimmed) ->
  (String.prefix "http://" startURL = true \/
   String.prefix "https://" startURL = true) /\
  ((trimmed = "" /\ main line now sched = (MainNoURL, None)) \/
   (trimmed <> "" /\
    exists err, url_Parse trimmed = Err err /\
                main line now sched = (MainInvalidURL err, None)) \/
   (trimmed <> "" /\ (exists p, url_Parse trimmed = Ok p) /\
    exists err, NewParser startURL = Err err /\
                main line now sched = (MainCrawlFailed err, None)) \/
   (trimmed <> "" /\ (exists p, url_Parse trimmed = Ok p) /\
    exists parser e m s s',
      NewParser startURL = Ok parser /\
      Crawl (NewCrawler 2 3 1000000000) now startURL sched = (e, Some s) /\
      main line now sched = (m, Some s) /\
      (e = CrawlReturns None /\ m = MainCompleted \/
       e = CrawlBlocked /\ m = MainWaiting) /\
      trace s = trace s' /\ p_frontier s = p_frontier s' /\
      once_inv s' /\ depth_inv 2 s' /\ prov_inv startURL parser s')).
Proof.
  intros Ht Hs. unfold main. rewrite <- Ht. rewrite <- Hs. clear Ht.
  unfold Strings.HasPrefix in Hs.
  split.
  { subst startURL.
    destruct (String.prefix "http://" trimmed) eqn:H1; simpl; [by left |].
    destruct (String.prefix "https://" trimmed) eqn:H2; simpl; [by right |].
    right. apply prefix_append. }
  clear Hs. destruct (String.eqb trimmed "") eqn:He.
  { left. apply String.eqb_eq in He. auto. }
  apply String.eqb_neq in He. right.
  destruct (url_Parse trimmed) as [p|err] eqn:Hp.
  2:{ left. eauto. }
  right. destruct (NewParser startURL) as [parser|err] eqn:Hn.
  2:{ left. unfold Crawl. rewrite Hn. eauto 8. }
  right.
  destruct (Crawl_starts (NewCrawler 2 3 1000000000) now startURL sched parser
              Hn eq_refl) as (e & s & Hc).
  destruct (Crawl_new_frontier (NewCrawler 2 3 1000000000) 2 now startURL sched
              parser e s eq_refl eq_refl Hn Hc)
    as (s' & Hend & Htr & Hf & Honce & Hdep & Hprov).
  rewrite Hc. split; [exact He |]. split; [eauto |].
  destruct Hend as [-> | ->]; exists parser; eexists _, _, s, s';
    (split; [reflexivity |]); (split; [reflexivity |]);
    (split; [reflexivity |]); tauto.
Qed.

(** X16. What [main] crawls.  Let [trimmed] be the line read with the white
    space at its ends taken off, and [startURL] be [trimmed] when it begins
    with [http://] or [https://], and [https://] followed by [trimmed]
    otherwise; so [startURL] begins with one of the two.  Whatever the line
    and however the goroutines are scheduled, [main] does not panic.  It
    ends without a crawl exactly when [trimmed] is empty, when [url.Parse]
    refuses [trimmed], or when [NewParser] refuses [startURL].  Otherwise
    it runs [Crawl] on [startURL] with [NewCrawler(2, 3, 1s)] and ends as
    that crawl ends; and every URL the frontier of that crawl marks visited
    is the normalized [startURL] or the normal form of a link that [Parse]
    found in the content [Fetch] returned, with [StatusFetched], for the
    normalized [startURL]. *)
Theorem main_crawls_two_levels (line trimmed startURL : string) (now : Z)
        (sched : list action) :
  trimmed = String.string_of_list_ascii
              (Strings.TrimSpace (String.list_ascii_of_string line)) ->
  startURL = (if negb (Strings.HasPrefix trimmed "http://")
                 && negb (Strings.HasPrefix trimmed "https://")
              then "https://" +:+ trimmed else trimmed) ->
  (String.prefix "http://" startURL = true \/
   String.prefix "https://" startURL = true) /\
  (forall msg, (main line now sched).1 <> MainPanics msg) /\
  (forall m,
     main line now sched = (m, None) ->
     (trimmed = "" /\ m = MainNoURL) \/
     (trimmed <> "" /\
      exists err, url_Parse trimmed = Err err /\ m = MainInvalidURL err) \/
     (trimmed <> "" /\ (exists p, url_Parse trimmed = Ok p) /\
      exists err, NewParser startURL = Err err /\ m = MainCrawlFailed err)) /\
  (forall m s,
     main line now sched = (m, Some s) ->
     trimmed <> "" /\ (exists p, url_Parse trimmed = Ok p) /\
     exists parser e,
       NewParser startURL = Ok parser /\
       Crawl (NewCrawler 2 3 1000000000) now startURL sched = (e, Some s) /\
       (e = CrawlReturns None /\ m = MainCompleted \/
        e = CrawlBlocked /\ m = MainWaiting) /\
       forall v, is_visited (p_frontier s) v = true ->
         normalize startURL = Some v \/
         exists u l, normalize startURL = Some u /\ u ∈ fetched (trace s) /\
                     Status (classify u) = StatusFetched /\
                     l ∈ Parser_Parse parser (Content (classify u)) u /\
                     normalize l = Some v).
Proof.
  intros Ht Hs.
  destruct (main_run line trimmed startURL now sched Ht Hs)
    as [Hpre [(He & Hm) | [(He & err & Hp & Hm) | [(He & Hp & err & Hn & Hm) |
         (He & Hp & parser & e & m & s & s' & Hn & Hc & Hm & Hend & Htr & Hf
             & Honce & Hdep & Hprov)]]]];
    (split; [exact Hpre |]); rewrite Hm; simpl.
  - split; [discriminate |]. split; [| discriminate].
    intros m0 [= <-]. auto.
  - split; [discriminate |]. split; [| discriminate].
    intros m0 [= <-]. right. left. eauto.
  - split; [discriminate |]. split; [| discriminate].
    intros m0 [= <-]. right. right. eauto.
  - split; [destruct Hend as [[_ ->] | [_ ->]]; discriminate |].
    split; [discriminate |].
    intros m0 s0 [= <- <-]. split; [exact He |]. split; [exact Hp |].
    exists parser, e. split; [exact Hn |]. split; [exact Hc |].
    split; [exact Hend |]. rewrite Htr, Hf. by apply two_levels.
Qed.

End MainFacts.

Section MainExamples.
Import World.

Lemma site_line :
  "http://a.test/"
  = String.string_of_list_ascii
      (Strings.TrimSpace (String.list_ascii_of_string "  http://a.test/ ")).
Proof. vm_compute. reflexivity. Qed.

Lemma main_site_runs :
  exists m s, main (net_http := site) "  http://a.test/ " 0 overlap = (m, Some s).
Proof.
  destruct (main_run (net_url := url_lib) (net_http := site)
              "  http://a.test/ " "http://a.test/" "http://a.test/" 0 overlap
              site_line eq_refl)
    as [_ [(He & _) | [(_ & err & Hp & _) | [(_ & _ & err & Hn & _) |
         (_ & _ & parser & e & m & s & s' & _ & _ & Hm & _)]]]];
    [discriminate | discriminate | discriminate | eauto].
Qed.

Lemma main_crawls_two_levels_witness :
  (exists m s,
     main (net_http := site) "  http://a.test/ " 0 overlap = (m, Some s)) /\
  (String.prefix "http://" "http://a.test/" = true \/
   String.prefix "https://" "http://a.test/" = true) /\
  (forall msg,
     (main (net_http := site) "  http://a.test/ " 0 overlap).1 <> MainPanics msg) /\
  (forall m,
     main (net_http := site) "  http://a.test/ " 0 overlap = (m, None) ->
     ("http://a.test/" = "" /\ m = MainNoURL) \/
     ("http://a.test/" <> "" /\
      exists err, url_Parse "http://a.test/" = Err err /\ m = MainInvalidURL err) \/
     ("http://a.test/" <> "" /\ (exists p, url_Parse "http://a.test/" = Ok p) /\
      exists err, NewParser "http://a.test/" = Err err /\ m = MainCrawlFailed err)) /\
  (forall m s,
     main (net_http := site) "  http://a.test/ " 0 overlap = (m, Some s) ->
     "http://a.test/" <> "" /\ (exists p, url_Parse "http://a.test/" = Ok p) /\
     exists parser e,
       NewParser "http://a.test/" = Ok parser /\
       Crawl (net_http := site) (NewCrawler 2 3 1000000000) 0 "http://a.test/"
             overlap = (e, Some s) /\
       (e = CrawlReturns None /\ m = MainCompleted \/
        e = CrawlBlocked /\ m = MainWaiting) /\
       forall v, is_visited (p_frontier s) v = true ->
         normalize "http://a.test/" = Some v \/
         exists u l, normalize "http://a.test/" = Some u /\
                     u ∈ fetched (trace s) /\
                     Status (classify (net_http := site) u) = StatusFetched /\
                     l ∈ Parser_Parse parser
                           (Content (classify (net_http := site) u)) u /\
                     normalize l = Some v).
Proof.
  split; [exact main_site_runs |].
  apply (main_crawls_two_levels (net_url := url_lib) (net_http := site)
           "  http://a.test/ " "http://a.test/" "http://a.test/" 0 overlap);
    [vm_compute; reflexivity | reflexivity].
Defined.

End MainExamples.
